(** * forw: a Telegram forwarder bot (src/server.js)

    A shallow embedding of the conversation state machine, the chat
    reference normalizer and the rate-limited forwarding loop of
    [src/server.js], together with the properties of its specification.

    Layout:
    - [Js]       JavaScript strings (UTF-16 code units), [trim], the regular
                 expressions of the source with an executable matcher, and
                 Number values (IEEE-754 doubles holding integers);
    - [Refs]     [normalizeChatRef] and [resolveChatId];
    - [Store]    the [sessions] Map and the session objects it points to;
    - [Bot]      the handlers, cut at every [await] into resumable
                 continuations, and the event loop that interleaves them;
    - theorems.  *)

From Stdlib Require Import ZArith NArith Bool List Lia Ascii String.
From stdpp Require Import base option list gmap.

Local Open Scope Z_scope.

(* ===================================================================== *)
(** ** JavaScript strings, regular expressions and numbers *)
(* ===================================================================== *)

Module Js.

(** A JavaScript string is a sequence of UTF-16 code units. *)
Definition jschar := N.
Definition jsstring := list jschar.

(** Code units of an ASCII literal. *)
Fixpoint lit (s : String.string) : jsstring :=
  match s with
  | String.EmptyString => []
  | String.String a s' => Ascii.N_of_ascii a :: lit s'
  end.

Section Characters.
Local Open Scope N_scope.

Definition ch_minus : jschar := 45.   (* "-" *)
Definition ch_slash : jschar := 47.   (* "/" *)
Definition ch_at : jschar := 64.      (* "@" *)
Definition ch_underscore : jschar := 95.

Definition in_range (lo hi c : jschar) : bool := (lo <=? c) && (c <=? hi).

(** [\d] (without the unicode flag): [0-9]. *)
Definition is_digit (c : jschar) : bool := in_range 48 57 c.

(** [\w] and the class [[A-Za-z0-9_]]. *)
Definition is_word (c : jschar) : bool :=
  in_range 65 90 c || in_range 97 122 c || is_digit c || (c =? ch_underscore).

(** [\s], which is also the set [String.prototype.trim] strips: WhiteSpace
    and LineTerminator of ECMAScript. *)
Definition is_space (c : jschar) : bool :=
  in_range 9 13 c || (c =? 32) || (c =? 160) || (c =? 5760)
  || in_range 8192 8202 c || (c =? 8232) || (c =? 8233) || (c =? 8239)
  || (c =? 8287) || (c =? 12288) || (c =? 65279).

End Characters.

Fixpoint drop_space (s : jsstring) : jsstring :=
  match s with
  | c :: s' => if is_space c then drop_space s' else s
  | [] => []
  end.

(** [s.trim()]. *)
Definition trim (s : jsstring) : jsstring :=
  rev (drop_space (rev (drop_space s))).

(** [s.slice(1)] *)
Definition slice1 (s : jsstring) : jsstring :=
  match s with
  | _ :: s' => s'
  | [] => []
  end.

(** [s.startsWith(c)] for a one-character [c]. *)
Definition startsWith (c : jschar) (s : jsstring) : bool :=
  match s with
  | c' :: _ => (c' =? c)%N
  | [] => false
  end.

(** *** Regular expressions

    The patterns of the source are all anchored with [^] and [$] and use no
    flags, so [re.test(s)] asks whether the whole of [s] is in the language
    of the pattern. *)

Inductive regex :=
| Void
| Eps
| Cls (p : jschar -> bool)
| Cat (r1 r2 : regex)
| Alt (r1 r2 : regex)
| Star (r : regex).

Definition Chr (c : jschar) : regex := Cls (N.eqb c).
Definition Opt (r : regex) : regex := Alt r Eps.          (* r? *)
Definition Plus (r : regex) : regex := Cat r (Star r).    (* r+ *)
Fixpoint Str (s : jsstring) : regex :=
  match s with
  | [] => Eps
  | c :: s' => Cat (Chr c) (Str s')
  end.
Fixpoint AtLeast (n : nat) (r : regex) : regex :=         (* r{n,} *)
  match n with
  | O => Star r
  | S n' => Cat r (AtLeast n' r)
  end.

(** The language of a pattern. *)
Inductive Matches : regex -> jsstring -> Prop :=
| M_eps : Matches Eps []
| M_cls p c : p c = true -> Matches (Cls p) [c]
| M_cat r1 r2 s1 s2 :
    Matches r1 s1 -> Matches r2 s2 -> Matches (Cat r1 r2) (s1 ++ s2)
| M_alt_l r1 r2 s : Matches r1 s -> Matches (Alt r1 r2) s
| M_alt_r r1 r2 s : Matches r2 s -> Matches (Alt r1 r2) s
| M_star_nil r : Matches (Star r) []
| M_star_cons r s1 s2 :
    Matches r s1 -> Matches (Star r) s2 -> Matches (Star r) (s1 ++ s2).

(** The matcher: derivatives of the pattern along the input. *)
Fixpoint nullable (r : regex) : bool :=
  match r with
  | Void => false
  | Eps => true
  | Cls _ => false
  | Cat r1 r2 => nullable r1 && nullable r2
  | Alt r1 r2 => nullable r1 || nullable r2
  | Star _ => true
  end.

Fixpoint deriv (c : jschar) (r : regex) : regex :=
  match r with
  | Void => Void
  | Eps => Void
  | Cls p => if p c then Eps else Void
  | Cat r1 r2 =>
      if nullable r1 then Alt (Cat (deriv c r1) r2) (deriv c r2)
      else Cat (deriv c r1) r2
  | Alt r1 r2 => Alt (deriv c r1) (deriv c r2)
  | Star r' => Cat (deriv c r') (Star r')
  end.

(** [re.test(s)]. *)
Fixpoint test (r : regex) (s : jsstring) : bool :=
  match s with
  | [] => nullable r
  | c :: s' => test (deriv c r) s'
  end.

(** *** Numbers

    A Number is an IEEE-754 double.  The program only ever holds integral
    values and infinities in its Numbers: [Finite z] is the double whose
    value is the integer [z], [Infinite neg] is [Infinity] or [-Infinity].
    ([-0] is identified with [0]: the program cannot tell them apart, both
    are falsy, compare equal and print as "0".) *)

Inductive jsnum :=
| Finite (z : Z)
| Infinite (negative : bool).

(** Round a non-negative integer to 53 significant bits, ties to even. *)
Definition round53 (m : Z) : Z :=
  let bits := Z.log2 m + 1 in
  if bits <=? 53 then m
  else
    let sh := bits - 53 in
    let q := Z.shiftr m sh in
    let r := Z.land m (Z.ones sh) in
    let half := Z.shiftl 1 (sh - 1) in
    let q' := if (half <? r) || ((r =? half) && Z.odd q) then q + 1 else q in
    Z.shiftl q' sh.

(** The double nearest to the integer [z]; magnitudes that round to
    [2^1024] or more overflow to an infinity. *)
Definition to_double (z : Z) : jsnum :=
  let m := round53 (Z.abs z) in
  if 2 ^ 1024 <=? m then Infinite (z <? 0) else Finite (Z.sgn z * m).

(** The value of a run of decimal digits. *)
Definition digit_value (c : jschar) : Z := Z.of_N c - 48.
Definition decimal (ds : jsstring) : Z :=
  fold_left (fun acc c => 10 * acc + digit_value c) ds 0.

(** The integer a string of the form [-?\d+] denotes. *)
Definition signed_decimal (raw : jsstring) : Z :=
  match raw with
  | c :: ds => if (c =? ch_minus)%N then - decimal ds else decimal raw
  | [] => 0
  end.

(** [Number(raw)], for [raw] of the form [-?\d+] (the only strings the
    program converts). *)
Definition Number (raw : jsstring) : jsnum := to_double (signed_decimal raw).

(** [Number.isInteger(x)]. *)
Definition isInteger (x : jsnum) : bool :=
  match x with
  | Finite _ => true
  | Infinite _ => false
  end.

(** [x < y] and [x <= y]. *)
Definition lt (x y : jsnum) : bool :=
  match x, y with
  | Finite a, Finite b => a <? b
  | Finite _, Infinite neg => negb neg
  | Infinite neg, Finite _ => neg
  | Infinite n1, Infinite n2 => n1 && negb n2
  end.

Definition le (x y : jsnum) : bool :=
  match x, y with
  | Finite a, Finite b => a <=? b
  | Finite _, Infinite neg => negb neg
  | Infinite neg, Finite _ => neg
  | Infinite n1, Infinite n2 => n1 || negb n2
  end.

(** [x + 1], as computed by [x++] and by [Number(x) + 1]. *)
Definition succ (x : jsnum) : jsnum :=
  match x with
  | Finite z => to_double (z + 1)
  | Infinite neg => Infinite neg
  end.

(** Truthiness of a Number: [0] is falsy. *)
Definition truthy (x : jsnum) : bool :=
  match x with
  | Finite z => negb (z =? 0)
  | Infinite _ => true
  end.

(** The largest magnitude up to which every integer is a double. *)
Definition max_exact : Z := 2 ^ 53.

End Js.

(* ===================================================================== *)
(** ** Chat references *)
(* ===================================================================== *)

Module Refs.
Import Js.

(** A chat reference: a Number (chat id) or "@username". *)
Inductive chatref :=
| RefNum (n : jsnum)
| RefName (u : jsstring).

(** [/^-?\d+$/] *)
Definition re_numeric : regex := Cat (Opt (Chr ch_minus)) (Plus (Cls is_digit)).

(** [/^[A-Za-z0-9_]{5,}$/] *)
Definition re_username : regex := AtLeast 5 (Cls is_word).

(** [raw.startsWith("@") ? raw.slice(1) : raw] *)
Definition strip_at (raw : jsstring) : jsstring :=
  if startsWith ch_at raw then slice1 raw else raw.

(** [normalizeChatRef(input)]; [None] is [null].  (The callers pass strings,
    on which the default of [input] to the empty string changes nothing.) *)
Definition normalizeChatRef (input : jsstring) : option chatref :=
  let raw := trim input in
  match raw with
  | [] => None
  | _ =>
      if test re_numeric raw then Some (RefNum (Number raw))
      else
        let uname := strip_at raw in
        if negb (test re_username uname) then None
        else Some (RefName (ch_at :: uname))
  end.

(** [!ref] is false: a reference that is neither [null] nor the Number 0. *)
Definition ref_truthy (r : option chatref) : bool :=
  match r with
  | None => false
  | Some (RefNum n) => truthy n
  | Some (RefName _) => true
  end.

End Refs.

(* ===================================================================== *)
(** ** The session store *)
(* ===================================================================== *)

Module Store.
Import Js Refs.

(** [step: null | "SRC" | "DST"], and "TEST_USERNAME" set by /test. *)
Inductive step_name := SRC | DST | TEST_USERNAME.

(** A session object.  Fields never assigned are [None] ([undefined]; the
    [null] written by /forward into [srcRef] and [dstRef] is [None] as
    well, the program treats both alike). *)
Record session := Session {
  step : option step_name;
  running : bool;
  startId : option jsnum;
  endId : option jsnum;
  srcRef : option chatref;
  dstRef : option chatref;
}.

(** [{ step: null, running: false }] *)
Definition fresh : session :=
  {| step := None; running := false; startId := None; endId := None;
     srcRef := None; dstRef := None |}.

Definition set_step (v : option step_name) (s : session) : session :=
  {| step := v; running := running s; startId := startId s; endId := endId s;
     srcRef := srcRef s; dstRef := dstRef s |}.
Definition set_running (v : bool) (s : session) : session :=
  {| step := step s; running := v; startId := startId s; endId := endId s;
     srcRef := srcRef s; dstRef := dstRef s |}.
Definition set_range (a b : jsnum) (s : session) : session :=
  {| step := step s; running := running s; startId := Some a; endId := Some b;
     srcRef := srcRef s; dstRef := dstRef s |}.
Definition set_srcRef (v : option chatref) (s : session) : session :=
  {| step := step s; running := running s; startId := startId s; endId := endId s;
     srcRef := v; dstRef := dstRef s |}.
Definition set_dstRef (v : option chatref) (s : session) : session :=
  {| step := step s; running := running s; startId := startId s; endId := endId s;
     srcRef := srcRef s; dstRef := v |}.

(** Session objects live in a heap and are referred to by address: a
    handler that obtained a session keeps its object while the Map may
    already point to another one. *)
Definition loc := nat.

Record store := Mk {
  heap : gmap loc session;
  next_loc : loc;            (* the address of the next object created *)
  sessions : gmap Z loc;     (* const sessions = new Map() *)
}.

Definition empty : store := {| heap := ∅; next_loc := O; sessions := ∅ |}.

(** The object at an address. *)
Definition obj (σ : store) (l : loc) : session := default fresh (heap σ !! l).

(** An assignment to fields of the object at [l]. *)
Definition update (l : loc) (f : session -> session) (σ : store) : store :=
  {| heap := <[l := f (obj σ l)]> (heap σ);
     next_loc := next_loc σ;
     sessions := sessions σ |}.

(** [sessions.set(chatId, { step: null, running: false })] *)
Definition resetSession (σ : store) (chatId : Z) : store :=
  {| heap := <[next_loc σ := fresh]> (heap σ);
     next_loc := S (next_loc σ);
     sessions := <[chatId := next_loc σ]> (sessions σ) |}.

(** [getSession(chatId)]: the store afterwards and the object returned. *)
Definition getSession (σ : store) (chatId : Z) : store * loc :=
  match sessions σ !! chatId with
  | Some l => (σ, l)
  | None => (resetSession σ chatId, next_loc σ)
  end.

(** What a handler sees of a chat: its session, a default one if the Map
    has none yet. *)
Definition view (σ : store) (chatId : Z) : session :=
  match sessions σ !! chatId with
  | Some l => obj σ l
  | None => fresh
  end.

End Store.

(* ===================================================================== *)
(** ** The bot *)
(* ===================================================================== *)

Module Bot.
Import Js Refs Store.

(** *** What the handlers exchange with the outside *)

(** An error thrown by a Telegram call: its message, [response.statusCode],
    [response.status], [response.body.parameters.retry_after] and
    [response.data.parameters.retry_after]. *)
Record error := Error {
  message : jsstring;
  statusCode : option Z;
  status : option Z;
  body_retry_after : option jsnum;
  data_retry_after : option jsnum;
}.

(** The texts the bot sends, by template and arguments. *)
Inductive outmsg :=
| MsgHelp                                   (* "Forwarder bot ready ..." *)
| MsgCancelled                              (* "Cancelled." *)
| MsgChatId (chatId : Z)                    (* "chat_id = ..." *)
| MsgTestPrompt                             (* "Username resolving test: ..." *)
| MsgAlreadyRunning                         (* "A forward job is already running ..." *)
| MsgNotIntegers                            (* "start_id and end_id must be integers." *)
| MsgRangeSet (startId endId : jsnum)       (* "Range set: a -> b ... enter SOURCE" *)
| MsgTestNotUsername                        (* "Please send a username ... not a number." *)
| MsgTestResolved (ref : chatref) (id : jsnum)
| MsgCouldNotResolve (ref : chatref) (e : error)
| MsgInvalidInput                           (* "Invalid input. Send username ..." *)
| MsgSourceReceived                         (* "Source received. Now enter TARGET ..." *)
| MsgSourceFailed (ref : option chatref) (e : error)
| MsgTargetFailed (ref : option chatref) (e : error)
| MsgStarting (srcId dstId : jsnum) (startId endId : option jsnum)
| MsgDone (ok fail : jsnum).                (* "Done. Success: ok Failed: fail" *)

(** The argument of [sleep]: [BASE_DELAY * 1000], [FAIL_DELAY * 1000] or
    [waitSec * 1000] milliseconds. *)
Inductive delay :=
| BASE_DELAY
| FAIL_DELAY
| Seconds (waitSec : jsnum).

(** The promises a handler awaits. *)
Inductive call :=
| sendMessage (chatId : Z) (m : outmsg)
| getChat (ref : option chatref)
| copyMessage (dstId srcId mid : jsnum)
| sleep (d : delay)
| settled (v : jsnum).      (* an async function that returned [v] at once *)

(** How an awaited promise settles. *)
Inductive response :=
| Fulfilled (v : jsnum)     (* the value matters for [getChat] and [settled] only *)
| Rejected (e : error).

Inductive logline :=
| LogFlood (mid waitSec : jsnum)            (* "Flood control mid= wait=" *)
| LogRetryFailed (mid : jsnum) (e : error)  (* "Retry failed mid= err=" *)
| LogFail (mid : jsnum) (e : error).        (* "Fail mid= err=" *)

Inductive effect :=
| Log (l : logline)
| Call (c : call).

(** [resolveChatId(bot, ref)]: a Number is returned as it is, anything else
    goes to [bot.getChat]. *)
Definition resolveChatId (ref : option chatref) : call :=
  match ref with
  | Some (RefNum n) => settled n
  | _ => getChat ref
  end.

(** *** Suspended handlers *)

(** The locals of the forwarding loop. *)
Record frame := Frame {
  chatId : Z;
  s : loc;
  srcId : jsnum;
  dstId : jsnum;
  mid : jsnum;
  ok : jsnum;
  fail : jsnum;
}.

(** [mid++], [ok++] and [fail++] go through these. *)
Definition at_mid (m : jsnum) (fr : frame) : frame :=
  {| chatId := chatId fr; s := s fr; srcId := srcId fr; dstId := dstId fr;
     mid := m; ok := ok fr; fail := fail fr |}.
Definition ok_incr (fr : frame) : frame :=
  {| chatId := chatId fr; s := s fr; srcId := srcId fr; dstId := dstId fr;
     mid := mid fr; ok := succ (ok fr); fail := fail fr |}.
Definition fail_incr (fr : frame) : frame :=
  {| chatId := chatId fr; s := s fr; srcId := srcId fr; dstId := dstId fr;
     mid := mid fr; ok := ok fr; fail := succ (fail fr) |}.

(** Where a handler stands while it awaits, with the locals it needs to go
    on. *)
Inductive kont :=
| K_end                                   (* nothing follows *)
| K_test_prompted (chatId : Z)            (* /test, its prompt sent *)
| K_test_resolving (chatId : Z) (ref : chatref)
| K_test_reported (chatId : Z) (ref : chatref) (in_try : bool)
| K_src_resolving (chatId : Z) (s : loc)
| K_dst_resolving (chatId : Z) (s : loc) (srcId : jsnum)
| K_starting (chatId : Z) (s : loc) (srcId dstId : jsnum)
| K_copying (fr : frame)                  (* first copyMessage of fr.mid *)
| K_pacing (fr : frame)                   (* sleep at the end of an iteration *)
| K_flood_wait (fr : frame)               (* sleep before the retry *)
| K_retrying (fr : frame)                 (* the retry's copyMessage *)
| K_summary (chatId : Z).                 (* the "Done" message *)

Record task := Task { awaiting : call; cont : kont }.

(** What a handler did until it returned or reached its next [await]. *)
Record result := Result {
  st : store;
  out : list effect;
  next : option task;
}.

Definition finish (σ : store) (logs : list logline) : result :=
  {| st := σ; out := map Log logs; next := None |}.

Definition await (σ : store) (logs : list logline) (c : call) (k : kont) : result :=
  {| st := σ; out := map Log logs ++ [Call c];
     next := Some {| awaiting := c; cont := k |} |}.

(** *** The forwarding loop *)

(** [e?.response?.statusCode || e?.response?.status] *)
Definition error_status (e : error) : option Z :=
  match statusCode e with
  | Some c => if c =? 0 then status e else Some c
  | None => status e
  end.

(** [body?.parameters?.retry_after ?? data?.parameters?.retry_after ?? null] *)
Definition retryAfter (e : error) : option jsnum :=
  match body_retry_after e with
  | Some n => Some n
  | None => data_retry_after e
  end.

(** [status === 429 && retryAfter != null], with the hint. *)
Definition flood_control (e : error) : option jsnum :=
  match error_status e with
  | Some c => if c =? 429 then retryAfter e else None
  | None => None
  end.

(** The loop condition [mid <= s.endId]; an [undefined] bound compares
    false. *)
Definition loop_condition (σ : store) (fr : frame) : bool :=
  match endId (obj σ (s fr)) with
  | Some e => le (mid fr) e
  | None => false
  end.

(** [bot.copyMessage(dstId, srcId, mid)] *)
Definition copy_of (fr : frame) : call := copyMessage (dstId fr) (srcId fr) (mid fr).

(** After the loop: the summary. *)
Definition summary (σ : store) (c : Z) (n_ok n_fail : jsnum) : result :=
  await σ [] (sendMessage c (MsgDone n_ok n_fail)) (K_summary c).

(** The test of the [for] and, inside, the first [copyMessage]. *)
Definition loop_test (σ : store) (fr : frame) : result :=
  if loop_condition σ fr
  then await σ [] (copy_of fr) (K_copying fr)
  else summary σ (chatId fr) (ok fr) (fail fr).

(** [let ok = 0; let fail = 0; for (let mid = s.startId; ...)] *)
Definition loop_enter (σ : store) (c : Z) (l : loc) (src dst : jsnum) : result :=
  match startId (obj σ l) with
  | Some a =>
      loop_test σ {| chatId := c; s := l; srcId := src; dstId := dst;
                     mid := a; ok := Finite 0; fail := Finite 0 |}
  | None => summary σ c (Finite 0) (Finite 0)
  end.

(** *** Resuming a handler when its promise settles *)

Definition resume (σ : store) (k : kont) (r : response) : result :=
  match k, r with
  (* a rejection outside every [try] ends the handler *)
  | K_end, _ => finish σ []

  (* /test:  const s = getSession(msg.chat.id);
             if (s.running) return;
             s.step = "TEST_USERNAME"; *)
  | K_test_prompted c, Fulfilled _ =>
      let (σ1, l) := getSession σ c in
      if running (obj σ1 l) then finish σ1 []
      else finish (update l (set_step (Some TEST_USERNAME)) σ1) []
  | K_test_prompted _, Rejected _ => finish σ []

  (* TEST flow:  try { id = await resolveChatId; await sendMessage; reset }
                 catch (e) { await sendMessage; reset } *)
  | K_test_resolving c ref, Fulfilled id =>
      await σ [] (sendMessage c (MsgTestResolved ref id)) (K_test_reported c ref true)
  | K_test_resolving c ref, Rejected e =>
      await σ [] (sendMessage c (MsgCouldNotResolve ref e)) (K_test_reported c ref false)
  | K_test_reported c _ _, Fulfilled _ => finish (resetSession σ c) []
  | K_test_reported c ref true, Rejected e =>
      await σ [] (sendMessage c (MsgCouldNotResolve ref e)) (K_test_reported c ref false)
  | K_test_reported _ _ false, Rejected _ => finish σ []

  (* DST step:  srcId = await resolveChatId(bot, s.srcRef)  *)
  | K_src_resolving c l, Fulfilled src =>
      await σ [] (resolveChatId (dstRef (obj σ l))) (K_dst_resolving c l src)
  | K_src_resolving c l, Rejected e =>
      await (resetSession σ c) []
        (sendMessage c (MsgSourceFailed (srcRef (obj σ l)) e)) K_end

  (* dstId = await resolveChatId(bot, s.dstRef);  s.running = true; *)
  | K_dst_resolving c l src, Fulfilled dst =>
      let σ1 := update l (set_running true) σ in
      await σ1 []
        (sendMessage c (MsgStarting src dst (startId (obj σ1 l)) (endId (obj σ1 l))))
        (K_starting c l src dst)
  | K_dst_resolving c l _, Rejected e =>
      await (resetSession σ c) []
        (sendMessage c (MsgTargetFailed (dstRef (obj σ l)) e)) K_end

  | K_starting c l src dst, Fulfilled _ => loop_enter σ c l src dst
  | K_starting _ _ _ _, Rejected _ => finish σ []

  (* try { await bot.copyMessage(dstId, srcId, mid); ok++; await sleep(BASE) } *)
  | K_copying fr, Fulfilled _ => await σ [] (sleep BASE_DELAY) (K_pacing (ok_incr fr))
  (* catch (e) { ... } *)
  | K_copying fr, Rejected e =>
      match flood_control e with
      | Some hint =>
          let waitSec := succ hint in
          await σ [LogFlood (mid fr) waitSec] (sleep (Seconds waitSec)) (K_flood_wait fr)
      | None =>
          await σ [LogFail (mid fr) e] (sleep FAIL_DELAY) (K_pacing (fail_incr fr))
      end

  (* retry once *)
  | K_flood_wait fr, _ =>
      await σ [] (copy_of fr) (K_retrying fr)
  | K_retrying fr, Fulfilled _ => await σ [] (sleep BASE_DELAY) (K_pacing (ok_incr fr))
  | K_retrying fr, Rejected e2 =>
      await σ [LogRetryFailed (mid fr) e2] (sleep FAIL_DELAY) (K_pacing (fail_incr fr))

  (* mid++ and the test of the [for] *)
  | K_pacing fr, _ => loop_test σ (at_mid (succ (mid fr)) fr)

  (* await bot.sendMessage(chatId, "Done. ..."); resetSession(chatId); *)
  | K_summary c, Fulfilled _ => finish (resetSession σ c) []
  | K_summary _, Rejected _ => finish σ []
  end.

(** *** The handlers, up to their first [await] *)

(** [(?:@\w+)?] *)
Definition re_mention : regex := Opt (Cat (Chr ch_at) (Plus (Cls is_word))).

(** [/^\/name(?:@\w+)?$/] *)
Definition re_command (name : String.string) : regex :=
  Cat (Chr ch_slash) (Cat (Str (lit name)) re_mention).

Definition on_start (σ : store) (c : Z) : result :=
  await σ [] (sendMessage c MsgHelp) K_end.

Definition on_cancel (σ : store) (c : Z) : result :=
  await (resetSession σ c) [] (sendMessage c MsgCancelled) K_end.

Definition on_chatid (σ : store) (c : Z) : result :=
  await σ [] (sendMessage c (MsgChatId c)) K_end.

Definition on_test (σ : store) (c : Z) : result :=
  await σ [] (sendMessage c MsgTestPrompt) (K_test_prompted c).

(** /forward, with the two groups of its pattern. *)
Definition on_forward (σ : store) (c : Z) (match1 match2 : jsstring) : result :=
  let (σ1, l) := getSession σ c in
  if running (obj σ1 l) then await σ1 [] (sendMessage c MsgAlreadyRunning) K_end
  else
    let startId := Number match1 in
    let endId := Number match2 in
    if negb (isInteger startId) || negb (isInteger endId)
    then await σ1 [] (sendMessage c MsgNotIntegers) K_end
    else
      let (startId, endId) :=
        if lt endId startId then (endId, startId) else (startId, endId) in
      let σ2 :=
        update l (fun o => set_step (Some SRC)
                             (set_dstRef None (set_srcRef None
                                (set_range startId endId o)))) σ1 in
      await σ2 [] (sendMessage c (MsgRangeSet startId endId)) K_end.

(** The step handler, [bot.on("message", ...)]. *)
Definition on_message (σ : store) (c : Z) (msg_text : option jsstring) : result :=
  let text := trim (default [] msg_text) in
  match text with
  | [] => finish σ []
  | _ =>
  if startsWith ch_slash text then finish σ []
  else
    match sessions σ !! c with
    | None => finish σ []
    | Some l =>
        match step (obj σ l) with
        | None => finish σ []
        | Some TEST_USERNAME =>
            match normalizeChatRef text with
            | Some (RefName u) =>
                await σ [] (resolveChatId (Some (RefName u)))
                  (K_test_resolving c (RefName u))
            | _ => await σ [] (sendMessage c MsgTestNotUsername) K_end
            end
        | Some SRC =>
            let ref := normalizeChatRef text in
            if negb (ref_truthy ref)
            then await σ [] (sendMessage c MsgInvalidInput) K_end
            else
              let σ1 := update l (fun o => set_step (Some DST) (set_srcRef ref o)) σ in
              await σ1 [] (sendMessage c MsgSourceReceived) K_end
        | Some DST =>
            let ref := normalizeChatRef text in
            if negb (ref_truthy ref)
            then await σ [] (sendMessage c MsgInvalidInput) K_end
            else
              let σ1 := update l (fun o => set_step None (set_dstRef ref o)) σ in
              await σ1 [] (resolveChatId (srcRef (obj σ1 l))) (K_src_resolving c l)
        end
    end
  end.

(** *** The pattern of /forward

    [/^\/forward(?:@\w+)?\s+(-?\d+)\s+(-?\d+)\s*$/]: as a pattern, and as the
    scanner that yields its two groups. *)

Definition re_spaces1 : regex := Plus (Cls is_space).

Definition re_forward : regex :=
  Cat (Str (lit "/forward"))
    (Cat re_mention
      (Cat re_spaces1 (Cat re_numeric (Cat re_spaces1 (Cat re_numeric (Star (Cls is_space))))))).

Fixpoint span (p : jschar -> bool) (t : jsstring) : jsstring * jsstring :=
  match t with
  | c :: t' => if p c then let (a, b) := span p t' in (c :: a, b) else ([], t)
  | [] => ([], [])
  end.

(** A text at whose start [span p] takes nothing. *)
Definition stops (p : jschar -> bool) (t : jsstring) : Prop :=
  match t with
  | [] => True
  | c :: _ => p c = false
  end.

Fixpoint strip_prefix (p t : jsstring) : option jsstring :=
  match p, t with
  | [], _ => Some t
  | a :: p', b :: t' => if (a =? b)%N then strip_prefix p' t' else None
  | _ :: _, [] => None
  end.

(** [(?:@\w+)?], followed by something that is not "@". *)
Definition skip_mention (t : jsstring) : option jsstring :=
  if startsWith ch_at t
  then match span is_word (slice1 t) with
       | ([], _) => None
       | (_, rest) => Some rest
       end
  else Some t.

(** [\s+] *)
Definition skip_spaces1 (t : jsstring) : option jsstring :=
  match span is_space t with
  | ([], _) => None
  | (_, rest) => Some rest
  end.

(** [(-?\d+)]: the group and what follows it. *)
Definition take_int (t : jsstring) : option (jsstring * jsstring) :=
  let (sign, t1) := if startsWith ch_minus t then ([ch_minus], slice1 t) else ([], t) in
  match span is_digit t1 with
  | ([], _) => None
  | (ds, rest) => Some (sign ++ ds, rest)
  end.

(** [regexp.exec(text)] for the pattern of /forward: [match[1]], [match[2]]. *)
Definition exec_forward (text : jsstring) : option (jsstring * jsstring) :=
  t0 ← strip_prefix (lit "/forward") text;
  t1 ← skip_mention t0;
  t2 ← skip_spaces1 t1;
  '(match1, t3) ← take_int t2;
  t4 ← skip_spaces1 t3;
  '(match2, t5) ← take_int t4;
  match span is_space t5 with
  | (_, []) => Some (match1, match2)
  | _ => None
  end.

(** A text of the form the pattern of /forward describes, with what its two
    groups hold. *)
Definition forward_shape (text match1 match2 : jsstring) : Prop :=
  exists mention w1 w2 w3,
    text = lit "/forward" ++ mention ++ w1 ++ match1 ++ w2 ++ match2 ++ w3
    /\ Matches re_mention mention
    /\ Matches re_spaces1 w1
    /\ Matches re_numeric match1
    /\ Matches re_spaces1 w2
    /\ Matches re_numeric match2
    /\ Matches (Star (Cls is_space)) w3.

(** *** Dispatch of an incoming message

    The SDK emits "message" to the step handler first and then calls every
    [onText] callback whose pattern matches [msg.text], in the order of
    registration; each handler runs until its first [await]. *)

Definition onText (re : regex) (h : store -> Z -> result) (c : Z) (text : jsstring)
  : store -> option result :=
  fun σ => if test re text then Some (h σ c) else None.

Definition callbacks (c : Z) (msg_text : option jsstring) : list (store -> option result) :=
  (fun σ => Some (on_message σ c msg_text)) ::
  match msg_text with
  | Some ((_ :: _) as text) =>
      [ onText (re_command "start") on_start c text;
        onText (re_command "cancel") on_cancel c text;
        onText (re_command "chatid") on_chatid c text;
        onText (re_command "test") on_test c text;
        fun σ => (fun m => on_forward σ c m.1 m.2) <$> exec_forward text ]
  | _ => []
  end.

Definition invoke (acc : store * list effect * list task) (h : store -> option result)
  : store * list effect * list task :=
  let '(σ, effs, ts) := acc in
  match h σ with
  | Some r => (st r, effs ++ out r, ts ++ option_list (next r))
  | None => acc
  end.

Definition deliver (σ : store) (c : Z) (msg_text : option jsstring)
  : store * list effect * list task :=
  foldl invoke (σ, [], []) (callbacks c msg_text).

(** What a single handler contributes. *)
Definition spawn (r : result) : store * list effect * list task :=
  (st r, out r, option_list (next r)).

(** *** The event loop

    Handlers of one chat and of different chats interleave at their
    [await]s: between two steps of a handler, messages may come in and other
    handlers may go on. *)

Record system := System {
  mem : store;
  trace : list effect;
  pool : list (option task);     (* the suspended handlers *)
}.

Definition boot : system := {| mem := Store.empty; trace := []; pool := [] |}.

Inductive event :=
| Incoming (chatId : Z) (msg_text : option jsstring)
| Settle (i : nat) (r : response).

Definition jsnum_eqb (x y : jsnum) : bool :=
  match x, y with
  | Finite a, Finite b => a =? b
  | Infinite a, Infinite b => Bool.eqb a b
  | _, _ => false
  end.

(** What the outside may answer: timers do not reject, and an async function
    that has returned is fulfilled with what it returned. *)
Definition admissible (c : call) (r : response) : bool :=
  match c, r with
  | sleep _, Rejected _ => false
  | settled _, Rejected _ => false
  | settled v, Fulfilled v' => jsnum_eqb v v'
  | _, _ => true
  end.

Definition sys_step (Σ : system) (ev : event) : option system :=
  match ev with
  | Incoming c msg_text =>
      let '(σ, effs, ts) := deliver (mem Σ) c msg_text in
      Some {| mem := σ; trace := trace Σ ++ effs; pool := pool Σ ++ map Some ts |}
  | Settle i r =>
      match pool Σ !! i with
      | Some (Some t) =>
          if admissible (awaiting t) r then
            let res := resume (mem Σ) (cont t) r in
            Some {| mem := st res; trace := trace Σ ++ out res;
                    pool := <[i := next res]> (pool Σ) |}
          else None
      | _ => None
      end
  end.

Fixpoint sys_run (Σ : system) (evs : list event) : option system :=
  match evs with
  | [] => Some Σ
  | ev :: evs' =>
      match sys_step Σ ev with
      | Some Σ' => sys_run Σ' evs'
      | None => None
      end
  end.

(** *** One handler on its own

    [run_from fuel env n r] lets a handler that has come as far as [r] go on
    until it returns, nothing else happening in between; [env n c] is how
    the [n]-th promise it awaits, the call [c], settles.  The result is the
    store at the end and everything the handler did, [out r] included. *)

Definition environment := nat -> call -> response.

Definition and_then (effs : list effect) (rest : option (store * list effect))
  : option (store * list effect) :=
  match rest with
  | Some (σ, effs') => Some (σ, effs ++ effs')
  | None => None
  end.

Fixpoint run_from (fuel : nat) (env : environment) (n : nat) (r : result)
  : option (store * list effect) :=
  match next r with
  | None => Some (st r, out r)
  | Some t =>
      match fuel with
      | O => None
      | S fuel' =>
          and_then (out r)
            (run_from fuel' env (S n) (resume (st r) (cont t) (env n (awaiting t))))
      end
  end.

(** A suspended handler going on from the store [σ]. *)
Definition run (fuel : nat) (env : environment) (σ : store) (t : task)
  : option (store * list effect) :=
  run_from fuel env O {| st := σ; out := []; next := Some t |}.


(** [sendMessage] is taken to be reliable. *)
Definition reliable (env : environment) : Prop :=
  forall n c m, exists v, env n (sendMessage c m) = Fulfilled v.

(** The message indices of the [copyMessage] calls, in order. *)
Definition attempts (effs : list effect) : list jsnum :=
  omap (fun e => match e with Call (copyMessage _ _ m) => Some m | _ => None end) effs.

(** The messages sent to a chat, in order. *)
Definition sent (c : Z) (effs : list effect) : list outmsg :=
  omap (fun e => match e with
                 | Call (sendMessage c' m) => if c' =? c then Some m else None
                 | _ => None
                 end) effs.

End Bot.

(* ===================================================================== *)
(** ** The specification's wording *)
(* ===================================================================== *)

Module Spec.
Import Js Refs Store Bot.

(** The normalizer as the specification describes it: on the trimmed text,
    a numeric form gives the parsed signed integer, a handle gives "@" and
    the handle, anything else gives null. *)
Inductive normalize (input : jsstring) : option chatref -> Prop :=
| normalize_numeric :
    Matches re_numeric (trim input) ->
    normalize input (Some (RefNum (Finite (signed_decimal (trim input)))))
| normalize_handle :
    ~ Matches re_numeric (trim input) ->
    Matches re_username (strip_at (trim input)) ->
    normalize input (Some (RefName (ch_at :: strip_at (trim input))))
| normalize_null :
    ~ Matches re_numeric (trim input) ->
    ~ Matches re_username (strip_at (trim input)) ->
    normalize input None.

(** Message indices visited from [a] upwards without a gap, each one once
    or, where the flag says so, twice. *)
Fixpoint visits (a : Z) (twice : list bool) : list jsnum :=
  match twice with
  | [] => []
  | again :: twice' =>
      (if again then [Finite a; Finite a] else [Finite a]) ++ visits (a + 1) twice'
  end.

(** Running excludes collecting: a session object that is running has no
    step. *)
Definition exclusive (σ : store) : Prop :=
  forall l, running (obj σ l) = true -> step (obj σ l) = None.

(** What a runner relies on in its session object [l] while other handlers
    take the store from [σ] to [σ']: the object is still running and its
    range is the same. *)
Definition frozen (σ σ' : store) (l : loc) : Prop :=
  (next_loc σ <= next_loc σ')%nat
  /\ running (obj σ' l) = true
  /\ startId (obj σ' l) = startId (obj σ l)
  /\ endId (obj σ' l) = endId (obj σ l).

End Spec.

(* ===================================================================== *)
(** ** Scenarios *)
(* ===================================================================== *)

Module Scenario.
Import Js Refs Store Bot.

(** Chat 1 sets up a job over messages 5 to 7 with numeric references; both
    resolve at once, the start message is sent and the runner is suspended
    in its first [copyMessage]. *)
Definition job_started : list event :=
  [ Incoming 1 (Some (lit "/forward 5 7"));
    Incoming 1 (Some (lit "-1001"));
    Incoming 1 (Some (lit "-1002"));
    Settle 2 (Fulfilled (Finite (-1001)));
    Settle 2 (Fulfilled (Finite (-1002)));
    Settle 2 (Fulfilled (Finite 0)) ].

Definition while_running : system :=
  Eval vm_compute in default boot (sys_run boot job_started).

(** The locals of that runner. *)
Definition runner : frame :=
  {| chatId := 1; s := 0%nat; srcId := Finite (-1001); dstId := Finite (-1002);
     mid := Finite 5; ok := Finite 0; fail := Finite 0 |}.

Definition after_cancel : system :=
  Eval vm_compute in
    default boot (sys_step while_running (Incoming 1 (Some (lit "/cancel")))).

(** A decimal numeral beyond the range of doubles: 1 and 309 zeros. *)
Definition huge : jsstring := lit "1" ++ repeat 48%N 309.

Definition forward_huge : jsstring := lit "/forward " ++ huge ++ lit " 2".

(** The same job, its start message sent but not yet out. *)
Definition job_ready : system :=
  Eval vm_compute in default boot (sys_run boot (take 5 job_started)).

(** The handler of such a job while its start message goes out. *)
Definition starting (a b : Z) : task :=
  {| awaiting := sendMessage 1 (MsgStarting (Finite (-1001)) (Finite (-1002))
                                  (Some (Finite a)) (Some (Finite b)));
     cont := K_starting 1 0%nat (Finite (-1001)) (Finite (-1002)) |}.

(** A job whose range is the single index [2^53]. *)
Definition far_job : list event :=
  [ Incoming 1 (Some (lit "/forward 9007199254740992 9007199254740992"));
    Incoming 1 (Some (lit "-1001"));
    Incoming 1 (Some (lit "-1002"));
    Settle 2 (Fulfilled (Finite (-1001)));
    Settle 2 (Fulfilled (Finite (-1002))) ].

Definition far_ready : system :=
  Eval vm_compute in default boot (sys_run boot far_job).

(** An outside where every call succeeds. *)
Definition calm : environment := fun _ _ => Fulfilled (Finite 0).

(** An error with status 429 and the hint 3, and an outside that answers
    the first call with it. *)
Definition too_many_requests : error :=
  {| message := lit "Too Many Requests"; statusCode := Some 429; status := None;
     body_retry_after := Some (Finite 3); data_retry_after := None |}.



(** Chat 1 has given a range and the source "srcchan" and is asked for the
    destination. *)
Definition awaiting_destination : system :=
  Eval vm_compute in
    default boot
      (sys_run boot [ Incoming 1 (Some (lit "/forward 5 7"));
                      Incoming 1 (Some (lit "srcchan")) ]).

(** An error of [getChat]. *)
Definition chat_not_found : error :=
  {| message := lit "chat not found"; statusCode := Some 400; status := None;
     body_retry_after := None; data_retry_after := None |}.

(** An outside in which the source is found and the destination is not. *)
Definition target_missing : environment :=
  fun n _ => match n with
             | 1%nat => Rejected chat_not_found
             | _ => Fulfilled (Finite (-1001))
             end.

(** While the handler of the destination step awaits [getChat] for the
    destination, another /forward of the same chat comes in. *)
Definition race : list event :=
  [ Incoming 1 (Some (lit "/forward 5 7"));
    Incoming 1 (Some (lit "srcchan"));
    Incoming 1 (Some (lit "dstchan"));
    Settle 2 (Fulfilled (Finite (-1001)));
    Incoming 1 (Some (lit "/forward 1 2"));
    Settle 2 (Fulfilled (Finite (-1002))) ].

Definition raced : system :=
  Eval vm_compute in default boot (sys_run boot race).

(** The walk-through of the specification: /forward 5 7, "srcchan",
    "dstchan", both found, all three copies succeed. *)
Definition walkthrough : list event :=
  [ Incoming 1 (Some (lit "/forward 5 7"));
    Incoming 1 (Some (lit "srcchan"));
    Incoming 1 (Some (lit "dstchan"));
    Settle 2 (Fulfilled (Finite (-1001)));      (* getChat("@srcchan") *)
    Settle 2 (Fulfilled (Finite (-1002)));      (* getChat("@dstchan") *)
    Settle 2 (Fulfilled (Finite 0));            (* the start message *)
    Settle 2 (Fulfilled (Finite 0)); Settle 2 (Fulfilled (Finite 0));   (* 5 *)
    Settle 2 (Fulfilled (Finite 0)); Settle 2 (Fulfilled (Finite 0));   (* 6 *)
    Settle 2 (Fulfilled (Finite 0)); Settle 2 (Fulfilled (Finite 0));   (* 7 *)
    Settle 2 (Fulfilled (Finite 0)) ].          (* the summary *)

Definition walked : system :=
  Eval vm_compute in default boot (sys_run boot walkthrough).

(* end of scenarios *)
End Scenario.

(* ===================================================================== *)
(** ** More scenarios *)
(* ===================================================================== *)

Module Cases.
Import Js Refs Store Bot.

(** Chat 1 has sent /test and its prompt is out: the step is
    TEST_USERNAME. *)
Definition testing : system :=
  Eval vm_compute in
    default boot
      (sys_run boot [ Incoming 1 (Some (lit "/test"));
                      Settle 0 (Fulfilled (Finite 0)) ]).

(** Chat 1 has given a range and is asked for the source. *)
Definition awaiting_source : system :=
  Eval vm_compute in
    default boot (sys_run boot [ Incoming 1 (Some (lit "/forward 5 7")) ]).

(** An outside in which [getChat] fails and everything else succeeds. *)
Definition nothing_found : environment :=
  fun _ c => match c with
             | getChat _ => Rejected Scenario.chat_not_found
             | _ => Fulfilled (Finite 0)
             end.

(** While the job of chat 1 runs, the chat cancels, names another range and
    a source; then the first copy of the job goes through. *)
Definition meddling : list event :=
  [ Incoming 1 (Some (lit "/cancel"));
    Incoming 1 (Some (lit "/forward 1 2"));
    Incoming 1 (Some (lit "srcchan"));
    Settle 2 (Fulfilled (Finite 0)) ].

(** An outside in which every copy of message 6 is answered with the rate
    limit, and everything else succeeds. *)
Definition six_is_limited : environment :=
  fun _ c => match c with
             | copyMessage _ _ (Finite 6) => Rejected Scenario.too_many_requests
             | _ => Fulfilled (Finite 0)
             end.

(** Chat 1 has given range, source "srcchan" and destination "dstchan"; the
    source is found and [getChat] for the destination is pending. *)
Definition resolving : system :=
  Eval vm_compute in default boot (sys_run boot (take 4 Scenario.walkthrough)).


(** While the job of chat 1 runs, the chat sends /test and then /cancel;
    after that the prompt of /test is out. *)
Definition test_then_cancel : list event :=
  [ Incoming 1 (Some (lit "/test"));
    Incoming 1 (Some (lit "/cancel"));
    Settle 3 (Fulfilled (Finite 0)) ].

Definition test_entered : system :=
  Eval vm_compute in default boot (sys_run Scenario.while_running test_then_cancel).

(** While the job of chat 1 runs, the chat sends /test; before its prompt is
    out, chat 2 names a range and the first copy of the job goes through. *)
Definition test_arrived : system :=
  Eval vm_compute in
    default boot (sys_step Scenario.while_running (Incoming 1 (Some (lit "/test")))).

Definition busy : list event :=
  [ Incoming 2 (Some (lit "/forward 8 9"));
    Settle 2 (Fulfilled (Finite 0)) ].

Definition still_running : system :=
  Eval vm_compute in default boot (sys_run test_arrived busy).

(** An outside in which the summary cannot be sent. *)
Definition summary_lost : environment :=
  fun _ c => match c with
             | sendMessage _ (MsgDone _ _) => Rejected Scenario.chat_not_found
             | _ => Fulfilled (Finite 0)
             end.

(* end of cases *)
End Cases.

(* ===================================================================== *)
(** ** What is said of runs of the bot *)
(* ===================================================================== *)

Module Props.
Import Js Refs Store Bot.

(** *** The journal of a forwarding run *)

(** What became of one index. *)
Inductive outcome :=
| Copied
| Failed (e : error)
| RetriedOk (hint : jsnum)
| RetriedFail (hint : jsnum) (e2 : error).

(** What the loop does for the index [m] with that outcome. *)
Definition block (src dst m : jsnum) (o : outcome) : list effect :=
  match o with
  | Copied =>
      [ Call (copyMessage dst src m); Call (sleep BASE_DELAY) ]
  | Failed e =>
      [ Call (copyMessage dst src m); Log (LogFail m e); Call (sleep FAIL_DELAY) ]
  | RetriedOk hint =>
      [ Call (copyMessage dst src m);
        Log (LogFlood m (succ hint)); Call (sleep (Seconds (succ hint)));
        Call (copyMessage dst src m); Call (sleep BASE_DELAY) ]
  | RetriedFail hint e2 =>
      [ Call (copyMessage dst src m);
        Log (LogFlood m (succ hint)); Call (sleep (Seconds (succ hint)));
        Call (copyMessage dst src m);
        Log (LogRetryFailed m e2); Call (sleep FAIL_DELAY) ]
  end.

Fixpoint journal (src dst : jsnum) (m : Z) (os : list outcome) : list effect :=
  match os with
  | [] => []
  | o :: os' => block src dst (Finite m) o ++ journal src dst (m + 1) os'
  end.

Definition succeeded (o : outcome) : bool :=
  match o with
  | Copied | RetriedOk _ => true
  | Failed _ | RetriedFail _ _ => false
  end.

Fixpoint tally (p : outcome -> bool) (os : list outcome) : Z :=
  match os with
  | [] => 0
  | o :: os' => (if p o then 1 else 0) + tally p os'
  end.

(** The next call is a [sleep]. *)
Fixpoint rests (effs : list effect) : bool :=
  match effs with
  | Log _ :: rest => rests rest
  | Call (sleep _) :: _ => true
  | _ => false
  end.

(** After every [copyMessage] the next call is a [sleep]. *)
Fixpoint paced (effs : list effect) : bool :=
  match effs with
  | [] => true
  | Call (copyMessage _ _ _) :: rest => rests rest && paced rest
  | _ :: rest => paced rest
  end.

(** The lines "Fail" and "Retry failed" of the log. *)
Definition failures (effs : list effect) : Z :=
  Z.of_nat (length (omap (fun e => match e with
                                   | Log (LogFail _ _) | Log (LogRetryFailed _ _) => Some e
                                   | _ => None
                                   end) effs)).

(** *** Runs of the event loop *)

(** No destination is found for a session object that has been given a
    step in the meantime: whenever [getChat] for a destination is fulfilled,
    the step of the handler's object is still null. *)
Definition settles_cleanly_at (Σ : system) (ev : event) : bool :=
  match ev with
  | Settle i (Fulfilled _) =>
      match pool Σ !! i with
      | Some (Some {| cont := K_dst_resolving _ l _ |}) =>
          match step (obj (mem Σ) l) with
          | None => true
          | Some _ => false
          end
      | _ => true
      end
  | _ => true
  end.

Fixpoint settles_cleanly (Σ : system) (evs : list event) : bool :=
  match evs with
  | [] => true
  | ev :: evs' =>
      settles_cleanly_at Σ ev
      && match sys_step Σ ev with
         | Some Σ' => settles_cleanly Σ' evs'
         | None => true
         end
  end.

(** *** Whose handler, whose object *)

(** The chat a suspended handler belongs to; a handler that has nothing
    left to do belongs to none. *)
Definition kont_chat (k : kont) : option Z :=
  match k with
  | K_end => None
  | K_test_prompted c | K_test_resolving c _ | K_test_reported c _ _
  | K_src_resolving c _ | K_dst_resolving c _ _ | K_starting c _ _ _
  | K_summary c => Some c
  | K_copying fr | K_pacing fr | K_flood_wait fr | K_retrying fr => Some (chatId fr)
  end.

(** The session object it holds on to. *)
Definition kont_obj (k : kont) : option loc :=
  match k with
  | K_src_resolving _ l | K_dst_resolving _ l _ | K_starting _ l _ _ => Some l
  | K_copying fr | K_pacing fr | K_flood_wait fr | K_retrying fr => Some (s fr)
  | _ => None
  end.

(** The chat an event belongs to. *)
Definition event_chat (Σ : system) (ev : event) : option Z :=
  match ev with
  | Incoming c _ => Some c
  | Settle i _ =>
      match pool Σ !! i with
      | Some (Some t) => kont_chat (cont t)
      | _ => None
      end
  end.

(** Every session object has been created for one chat, [owner l]; the Map
    and the suspended handlers only refer to objects of their own chat. *)
Definition store_wf (owner : loc -> Z) (σ : store) : Prop :=
  forall c l, sessions σ !! c = Some l -> (l < next_loc σ)%nat /\ owner l = c.

Definition kont_wf (owner : loc -> Z) (σ : store) (k : kont) : Prop :=
  forall c l, kont_chat k = Some c -> kont_obj k = Some l ->
              (l < next_loc σ)%nat /\ owner l = c.

Definition sys_wf (owner : loc -> Z) (Σ : system) : Prop :=
  store_wf owner (mem Σ)
  /\ forall i t, pool Σ !! i = Some (Some t) -> kont_wf owner (mem Σ) (cont t).

(** The objects created from [σ] on are owned by [c]. *)
Definition claim (c : Z) (σ : store) (owner : loc -> Z) : loc -> Z :=
  fun l => if (l <? next_loc σ)%nat then owner l else c.

(** A handler of the chat [c] takes the store from [σ] to [σ']: it creates
    objects for [c] and leaves alone the Map entries and the objects of the
    other chats. *)
Definition confined (owner : loc -> Z) (c : Z) (σ σ' : store) : Prop :=
  (next_loc σ <= next_loc σ')%nat
  /\ (forall c', c' <> c -> sessions σ' !! c' = sessions σ !! c')
  /\ (forall l, owner l <> c -> obj σ' l = obj σ l)
  /\ store_wf owner σ'.

(** A handler of [c] that has come as far as [r]. *)
Definition result_ok (owner : loc -> Z) (c : Z) (σ : store) (r : result) : Prop :=
  confined owner c σ (st r)
  /\ forall t, next r = Some t -> kont_wf owner (st r) (cont t).

(** *** Ranges *)

(** A session with a range: two integers in order. *)
Definition has_range (o : session) : Prop :=
  exists a b, startId o = Some (Finite a) /\ endId o = Some (Finite b) /\ a <= b.

(** A session that waits for its source or its destination. *)
Definition collecting (o : session) : Prop :=
  step o = Some SRC \/ step o = Some DST.

Definition ranged_store (σ : store) : Prop :=
  (forall l, collecting (obj σ l) -> has_range (obj σ l))
  /\ (forall c l, sessions σ !! c = Some l -> (l < next_loc σ)%nat).

(** The object a suspended handler holds on to exists and has a range. *)
Definition kont_ranged (σ : store) (k : kont) : Prop :=
  forall l, kont_obj k = Some l -> (l < next_loc σ)%nat /\ has_range (obj σ l).

Definition sys_ranged (Σ : system) : Prop :=
  ranged_store (mem Σ)
  /\ forall i t, pool Σ !! i = Some (Some t) -> kont_ranged (mem Σ) (cont t).

(** From [σ] to [σ'] no object loses its range. *)
Definition grows (σ σ' : store) : Prop :=
  (next_loc σ <= next_loc σ')%nat
  /\ ranged_store σ'
  /\ forall l, (l < next_loc σ)%nat -> has_range (obj σ l) -> has_range (obj σ' l).

Definition result_ranged (σ : store) (r : result) : Prop :=
  grows σ (st r) /\ forall t, next r = Some t -> kont_ranged (st r) (cont t).

End Props.

Import Js Refs Store Bot.

(* ===================================================================== *)
(** ** The matcher decides the language of a pattern *)
(* ===================================================================== *)

Section Matcher.

Lemma app_nil_both (s1 s2 : jsstring) : s1 ++ s2 = [] -> s1 = [] /\ s2 = [].
Proof. destruct s1; simpl; [tauto | discriminate]. Qed.

Lemma eps_inv s : Matches Eps s -> s = [].
Proof. now inversion 1. Qed.

Lemma cls_inv p s : Matches (Cls p) s -> exists c, s = [c] /\ p c = true.
Proof. inversion 1; subst; eauto. Qed.

Lemma cat_inv r1 r2 s :
  Matches (Cat r1 r2) s ->
  exists s1 s2, s = s1 ++ s2 /\ Matches r1 s1 /\ Matches r2 s2.
Proof. inversion 1; subst; eauto. Qed.

Lemma alt_inv r1 r2 s : Matches (Alt r1 r2) s -> Matches r1 s \/ Matches r2 s.
Proof. inversion 1; subst; auto. Qed.

Lemma void_inv s : ~ Matches Void s.
Proof. inversion 1. Qed.

Lemma nullable_spec r : nullable r = true <-> Matches r [].
Proof.
  induction r as [ | | p | r1 IH1 r2 IH2 | r1 IH1 r2 IH2 | r IH]; simpl.
  - split; [discriminate | intros H; destruct (void_inv _ H)].
  - split; [constructor | reflexivity].
  - split; [discriminate | ].
    intros H. apply cls_inv in H as (c & Hc & _). discriminate.
  - rewrite andb_true_iff, IH1, IH2. split.
    + intros [H1 H2]. exact (M_cat _ _ [] [] H1 H2).
    + intros H. apply cat_inv in H as (s1 & s2 & Heq & H1 & H2).
      symmetry in Heq. apply app_nil_both in Heq as [-> ->]. now split.
  - rewrite orb_true_iff, IH1, IH2. split.
    + intros [H | H]; [now apply M_alt_l | now apply M_alt_r].
    + apply alt_inv.
  - split; [constructor | reflexivity].
Qed.

(** A non-empty match of [r*] starts with a non-empty match of [r]. *)
Lemma star_cons_inv r c s :
  Matches (Star r) (c :: s) ->
  exists s1 s2, s = s1 ++ s2 /\ Matches r (c :: s1) /\ Matches (Star r) s2.
Proof.
  intros H. remember (Star r) as r' eqn:Hr. remember (c :: s) as t eqn:Ht.
  revert c s Ht.
  induction H as [ | | | | | | r0 s1 s2 H1 _ H2 IH2]; intros a u Ht;
    try discriminate.
  injection Hr as ->.
  destruct s1 as [ | c1 s1]; simpl in Ht.
  - now apply IH2.
  - injection Ht as -> <-. now exists s1, s2.
Qed.

Lemma cat_cons_inv r1 r2 c s :
  Matches (Cat r1 r2) (c :: s) ->
  (exists s1 s2, s = s1 ++ s2 /\ Matches r1 (c :: s1) /\ Matches r2 s2)
  \/ (Matches r1 [] /\ Matches r2 (c :: s)).
Proof.
  intros H. apply cat_inv in H as (s1 & s2 & Heq & H1 & H2).
  destruct s1 as [ | c1 s1]; simpl in Heq.
  - right. subst. now split.
  - injection Heq as <- ->. left. now exists s1, s2.
Qed.

Lemma deriv_spec c r : forall s, Matches (deriv c r) s <-> Matches r (c :: s).
Proof.
  induction r as [ | | p | r1 IH1 r2 IH2 | r1 IH1 r2 IH2 | r IH]; intros s; simpl.
  - split; intros H; destruct (void_inv _ H).
  - split; intros H; [destruct (void_inv _ H) | apply eps_inv in H; discriminate].
  - destruct (p c) eqn:Hp; split; intros H.
    + apply eps_inv in H as ->. now constructor.
    + apply cls_inv in H as (c' & Heq & _). injection Heq as _ ->. constructor.
    + destruct (void_inv _ H).
    + apply cls_inv in H as (c' & Heq & Hc). injection Heq as <- _. congruence.
  - assert (Hcat : forall t, Matches (Cat (deriv c r1) r2) t -> Matches (Cat r1 r2) (c :: t)).
    { intros t H. apply cat_inv in H as (s1 & s2 & -> & H1 & H2).
      apply IH1 in H1. exact (M_cat _ _ (c :: s1) s2 H1 H2). }
    assert (Hder : forall s1 s2, Matches r1 (c :: s1) -> Matches r2 s2 ->
                                 Matches (Cat (deriv c r1) r2) (s1 ++ s2)).
    { intros s1 s2 H1 H2. constructor; [now apply IH1 | assumption]. }
    destruct (nullable r1) eqn:Hn; split; intros H.
    + apply alt_inv in H as [H | H]; [now apply Hcat | ].
      apply nullable_spec in Hn. apply IH2 in H.
      exact (M_cat _ _ [] (c :: s) Hn H).
    + apply cat_cons_inv in H as [(s1 & s2 & -> & H1 & H2) | [_ H]].
      * apply M_alt_l. now apply Hder.
      * apply M_alt_r. now apply IH2.
    + now apply Hcat.
    + apply cat_cons_inv in H as [(s1 & s2 & -> & H1 & H2) | [H _]].
      * now apply Hder.
      * apply nullable_spec in H. congruence.
  - split; intros H.
    + apply alt_inv in H as [H | H];
        [apply M_alt_l; now apply IH1 | apply M_alt_r; now apply IH2].
    + apply alt_inv in H as [H | H];
        [apply M_alt_l; now apply IH1 | apply M_alt_r; now apply IH2].
  - split; intros H.
    + apply cat_inv in H as (s1 & s2 & -> & H1 & H2).
      apply IH in H1. exact (M_star_cons _ (c :: s1) s2 H1 H2).
    + apply star_cons_inv in H as (s1 & s2 & -> & H1 & H2).
      constructor; [now apply IH | assumption].
Qed.

(** [re.test(s)] is true exactly when [s] is in the language of [re]. *)
Lemma test_spec r (t : jsstring) : test r t = true <-> Matches r t.
Proof.
  revert r. induction t as [ | c t IH]; intros r; simpl.
  - apply nullable_spec.
  - rewrite IH. apply deriv_spec.
Qed.

Lemma test_false r (t : jsstring) : test r t = false <-> ~ Matches r t.
Proof.
  rewrite <- test_spec. destruct (test r t); split; congruence.
Qed.

End Matcher.

(* ===================================================================== *)
(** ** Numbers: integers a double holds exactly *)
(* ===================================================================== *)

Section Doubles.

Lemma round53_exact m : 0 <= m <= 2 ^ 53 -> round53 m = m.
Proof.
  intros [Hlo Hhi]. unfold round53.
  destruct (Z.eq_dec m (2 ^ 53)) as [-> | Hne]; [reflexivity | ].
  assert (Hbits : Z.log2 m + 1 <= 53).
  { destruct (Z.eq_dec m 0) as [-> | Hpos]; [simpl; lia | ].
    assert (Z.log2 m < 53) by (apply Z.log2_lt_pow2; lia). lia. }
  apply Z.leb_le in Hbits. now rewrite Hbits.
Qed.

(** Every integer of magnitude at most [2^53] is a double. *)
Lemma to_double_exact z : Z.abs z <= max_exact -> to_double z = Finite z.
Proof.
  unfold max_exact, to_double. intros Hz.
  rewrite round53_exact by lia.
  assert (Hlim : 2 ^ 53 < 2 ^ 1024) by reflexivity.
  assert (Hov : (2 ^ 1024 <=? Z.abs z) = false) by (apply Z.leb_gt; lia).
  rewrite Hov. f_equal. lia.
Qed.

(** [x + 1] is exact up to [2^53]. *)
Lemma succ_exact z : - max_exact <= z < max_exact -> succ (Finite z) = Finite (z + 1).
Proof.
  intros Hz. simpl. apply to_double_exact. unfold max_exact in *. lia.
Qed.

(** At [2^53] the successor is not representable and [x + 1] is [x]. *)
Lemma succ_stuck : succ (Finite max_exact) = Finite max_exact.
Proof. reflexivity. Qed.

End Doubles.

(* ===================================================================== *)
(** ** The normalizer *)
(* ===================================================================== *)

Section Normalizer.

Lemma drop_space_all (t : jsstring) : forallb is_space t = true -> drop_space t = [].
Proof.
  induction t as [ | c t IH]; simpl; [reflexivity | ].
  intros H. apply andb_true_iff in H as [Hc Ht]. rewrite Hc. now apply IH.
Qed.

(** Empty and whitespace-only text trims to the empty string. *)
Lemma trim_blank (t : jsstring) : forallb is_space t = true -> trim t = [].
Proof.
  intros H. unfold trim. now rewrite (drop_space_all t H).
Qed.

Lemma normalizeChatRef_numeric input :
  Matches re_numeric (trim input) ->
  normalizeChatRef input = Some (RefNum (Number (trim input))).
Proof.
  intros H. unfold normalizeChatRef.
  destruct (trim input) as [ | c raw] eqn:Hraw.
  - apply test_spec in H. discriminate.
  - apply test_spec in H. now rewrite H.
Qed.

Lemma normalizeChatRef_handle input :
  ~ Matches re_numeric (trim input) ->
  Matches re_username (strip_at (trim input)) ->
  normalizeChatRef input = Some (RefName (ch_at :: strip_at (trim input))).
Proof.
  intros Hn Hu. unfold normalizeChatRef.
  destruct (trim input) as [ | c raw] eqn:Hraw.
  - apply test_spec in Hu. discriminate.
  - apply test_false in Hn. apply test_spec in Hu. now rewrite Hn, Hu.
Qed.

Lemma normalizeChatRef_null input :
  ~ Matches re_numeric (trim input) ->
  ~ Matches re_username (strip_at (trim input)) ->
  normalizeChatRef input = None.
Proof.
  intros Hn Hu. unfold normalizeChatRef.
  destruct (trim input) as [ | c raw] eqn:Hraw; [reflexivity | ].
  apply test_false in Hn. apply test_false in Hu. now rewrite Hn, Hu.
Qed.

(** C3, as stated, fails: the Number returned for a numeric text is a
    double, and beyond [2^53] not every integer is one.  For
    "9007199254740993" the normalizer returns 9007199254740992, not the
    parsed integer. *)
Lemma normalize_big_integer_inexact :
  ~ Spec.normalize (lit "9007199254740993")
      (normalizeChatRef (lit "9007199254740993")).
Proof.
  assert (Hcode : normalizeChatRef (lit "9007199254740993")
                  = Some (RefNum (Finite 9007199254740992))) by reflexivity.
  rewrite Hcode. intros H.
  inversion H as [Hm Heq | _ _ Heq | _ _ Heq]; discriminate Heq.
Qed.

(** C3 (amended): the normalizer is a total function of the text.  When the
    trimmed text matches [^-?\d+$] it returns the Number nearest to the
    parsed signed integer, which is that integer whenever its magnitude is
    at most [2^53]; otherwise, when the trimmed text without one leading "@"
    matches [^[A-Za-z0-9_]{5,}$], it returns "@" and that remainder; in every
    other case, empty and whitespace-only text included, it returns null. *)
Theorem normalizeChatRef_total_cases (input : jsstring) :
  let raw := trim input in
  (Matches re_numeric raw ->
     normalizeChatRef input = Some (RefNum (to_double (signed_decimal raw)))
     /\ (Z.abs (signed_decimal raw) <= 2 ^ 53 ->
         normalizeChatRef input = Some (RefNum (Finite (signed_decimal raw)))))
  /\ (~ Matches re_numeric raw ->
      Matches re_username (strip_at raw) ->
      normalizeChatRef input = Some (RefName (ch_at :: strip_at raw)))
  /\ (~ Matches re_numeric raw ->
      ~ Matches re_username (strip_at raw) ->
      normalizeChatRef input = None)
  /\ (forallb is_space input = true -> normalizeChatRef input = None).
Proof.
  intros raw. subst raw. repeat split.
  - now apply normalizeChatRef_numeric.
  - intros Hsmall. rewrite (normalizeChatRef_numeric _ H).
    unfold Number. now rewrite to_double_exact.
  - apply normalizeChatRef_handle.
  - apply normalizeChatRef_null.
  - intros Hblank. unfold normalizeChatRef. now rewrite trim_blank.
Qed.

End Normalizer.

(* ===================================================================== *)
(** ** Dispatch: which handler a text reaches *)
(* ===================================================================== *)

Section Dispatch.

Lemma str_prefix_inv (p : jsstring) r (t : jsstring) :
  Matches (Cat (Str p) r) t -> exists u, t = p ++ u /\ Matches r u.
Proof.
  revert t. induction p as [ | a p IH]; intros t H; simpl in H.
  - apply cat_inv in H as (s1 & s2 & -> & H1 & H2).
    apply eps_inv in H1 as ->. now exists s2.
  - apply cat_inv in H as (s1 & s2 & -> & H1 & H2).
    apply cat_inv in H1 as (s3 & s4 & -> & H3 & H4).
    apply cls_inv in H3 as (a' & -> & Ha). apply N.eqb_eq in Ha as <-.
    destruct (IH (s4 ++ s2)) as (u & Hu & Hr).
    { now constructor. }
    exists u. simpl. now rewrite Hu.
Qed.

(** A text that matches a command pattern is "/" and the command's name,
    possibly followed by a mention. *)
Lemma command_inv name (t : jsstring) :
  Matches (re_command name) t ->
  exists u, t = ch_slash :: lit name ++ u /\ Matches re_mention u.
Proof.
  intros H. apply cat_inv in H as (s1 & s2 & -> & H1 & H2).
  apply cls_inv in H1 as (a & -> & Ha). apply N.eqb_eq in Ha as <-.
  apply str_prefix_inv in H2 as (u & -> & Hu). now exists u.
Qed.

Lemma strip_prefix_inv (p t r : jsstring) :
  strip_prefix p t = Some r -> t = p ++ r.
Proof.
  revert t. induction p as [ | a p IH]; intros t H; simpl in H.
  - now injection H as ->.
  - destruct t as [ | b t]; [discriminate | ].
    destruct (N.eqb_spec a b) as [-> | _]; [ | discriminate].
    simpl. f_equal. now apply IH.
Qed.

Lemma exec_forward_prefix (text m1 m2 : jsstring) :
  exec_forward text = Some (m1, m2) -> exists u, text = lit "/forward" ++ u.
Proof.
  unfold exec_forward. intros H.
  destruct (strip_prefix (lit "/forward") text) as [t0 | ] eqn:H0; [ | discriminate].
  apply strip_prefix_inv in H0. now exists t0.
Qed.

(** No text matches the patterns of two different commands. *)
Ltac other_command H :=
  let u := fresh "u" in
  let E := fresh "E" in
  apply test_false; intros H';
  apply command_inv in H' as (u & E & _);
  rewrite E in H; simpl in H; discriminate H.

Lemma drop_space_snoc (u : jsstring) c :
  is_space c = false -> exists u', drop_space (u ++ [c]) = u' ++ [c].
Proof.
  intros Hc. induction u as [ | a u IH]; simpl.
  - rewrite Hc. now exists [].
  - destruct (is_space a); [exact IH | now exists (a :: u)].
Qed.

(** Trimming keeps a first character that is not white space. *)
Lemma trim_head c (t : jsstring) :
  is_space c = false -> exists t', trim (c :: t) = c :: t'.
Proof.
  intros Hc. unfold trim. simpl drop_space at 2. rewrite Hc. simpl rev at 2.
  destruct (drop_space_snoc (rev t) c Hc) as (u' & ->).
  rewrite rev_app_distr. simpl. now exists (rev u').
Qed.

(** The step handler ignores commands. *)
Lemma on_message_command σ c (t : jsstring) :
  on_message σ c (Some (ch_slash :: t)) = finish σ [].
Proof.
  unfold on_message. simpl default.
  destruct (trim_head ch_slash t eq_refl) as (t' & ->). reflexivity.
Qed.

Lemma exec_forward_other name (u : jsstring) :
  strip_prefix (lit "/forward") (ch_slash :: lit name ++ u) = None ->
  exec_forward (ch_slash :: lit name ++ u) = None.
Proof. unfold exec_forward. now intros ->. Qed.

Lemma invoke_on_message_command σ c (t : jsstring) :
  invoke (σ, [], []) (fun σ' => Some (on_message σ' c (Some (ch_slash :: t))))
  = (σ, [], []).
Proof. unfold invoke. now rewrite on_message_command. Qed.

Lemma invoke_onText_miss re h c (text : jsstring) acc :
  test re text = false -> invoke acc (onText re h c text) = acc.
Proof. intros H. destruct acc as [[σ effs] ts]. unfold invoke, onText. now rewrite H. Qed.

Lemma invoke_onText_hit re h c (text : jsstring) σ :
  test re text = true ->
  invoke (σ, [], []) (onText re h c text) = spawn (h σ c).
Proof. intros H. unfold invoke, onText. now rewrite H. Qed.

Lemma invoke_forward_miss c (text : jsstring) acc :
  exec_forward text = None ->
  invoke acc (fun σ => (fun m => on_forward σ c m.1 m.2) <$> exec_forward text) = acc.
Proof. intros H. destruct acc as [[σ effs] ts]. unfold invoke. now rewrite H. Qed.

Lemma invoke_forward_hit c (text m1 m2 : jsstring) σ :
  exec_forward text = Some (m1, m2) ->
  invoke (σ, [], []) (fun σ => (fun m => on_forward σ c m.1 m.2) <$> exec_forward text)
  = spawn (on_forward σ c m1 m2).
Proof. intros H. unfold invoke. now rewrite H. Qed.

Lemma invoke_spawn_miss re h c (text : jsstring) r :
  test re text = false -> invoke (spawn r) (onText re h c text) = spawn r.
Proof. apply invoke_onText_miss. Qed.

Ltac dispatch :=
  unfold deliver, callbacks; cbn [foldl]; rewrite invoke_on_message_command.

(** A text that matches the pattern of /cancel reaches [on_cancel] and
    nothing else. *)
Lemma deliver_cancel σ c (text : jsstring) :
  Matches (re_command "cancel") text ->
  deliver σ c (Some text) = spawn (on_cancel σ c).
Proof.
  intros H. pose proof H as Hc. apply test_spec in Hc.
  apply command_inv in H as (u & E & _).
  assert (H1 : test (re_command "start") text = false) by other_command E.
  assert (H2 : test (re_command "chatid") text = false) by other_command E.
  assert (H3 : test (re_command "test") text = false) by other_command E.
  assert (H4 : exec_forward text = None) by (rewrite E; now apply exec_forward_other).
  destruct text as [ | x t]; [discriminate E | ].
  injection E as -> _. dispatch.
  rewrite (invoke_onText_miss _ _ _ _ _ H1), (invoke_onText_hit _ _ _ _ _ Hc).
  rewrite (invoke_onText_miss _ _ _ _ _ H2), (invoke_onText_miss _ _ _ _ _ H3).
  now rewrite (invoke_forward_miss _ _ _ H4).
Qed.

(** A text that matches the pattern of /test reaches [on_test]. *)
Lemma deliver_test σ c (text : jsstring) :
  Matches (re_command "test") text ->
  deliver σ c (Some text) = spawn (on_test σ c).
Proof.
  intros H. pose proof H as Hc. apply test_spec in Hc.
  apply command_inv in H as (u & E & _).
  assert (H1 : test (re_command "start") text = false) by other_command E.
  assert (H2 : test (re_command "chatid") text = false) by other_command E.
  assert (H3 : test (re_command "cancel") text = false) by other_command E.
  assert (H4 : exec_forward text = None) by (rewrite E; now apply exec_forward_other).
  destruct text as [ | x t]; [discriminate E | ].
  injection E as -> _. dispatch.
  rewrite (invoke_onText_miss _ _ _ _ _ H1), (invoke_onText_miss _ _ _ _ _ H3).
  rewrite (invoke_onText_miss _ _ _ _ _ H2), (invoke_onText_hit _ _ _ _ _ Hc).
  now rewrite (invoke_forward_miss _ _ _ H4).
Qed.

(** A text that matches the pattern of /forward reaches [on_forward] with
    the two groups. *)
Lemma deliver_forward σ c (text m1 m2 : jsstring) :
  exec_forward text = Some (m1, m2) ->
  deliver σ c (Some text) = spawn (on_forward σ c m1 m2).
Proof.
  intros H. destruct (exec_forward_prefix _ _ _ H) as (u & E).
  change (lit "/forward" ++ u) with (ch_slash :: lit "forward" ++ u) in E.
  assert (H1 : test (re_command "start") text = false) by other_command E.
  assert (H2 : test (re_command "chatid") text = false) by other_command E.
  assert (H3 : test (re_command "cancel") text = false) by other_command E.
  assert (H4 : test (re_command "test") text = false) by other_command E.
  destruct text as [ | x t]; [discriminate E | ].
  injection E as -> _. dispatch.
  rewrite (invoke_onText_miss _ _ _ _ _ H1), (invoke_onText_miss _ _ _ _ _ H3).
  rewrite (invoke_onText_miss _ _ _ _ _ H2), (invoke_onText_miss _ _ _ _ _ H4).
  now rewrite (invoke_forward_hit _ _ _ _ _ H).
Qed.

End Dispatch.

(* ===================================================================== *)
(** ** The session store *)
(* ===================================================================== *)

Section StoreFacts.

Lemma obj_update_eq l f σ : obj (update l f σ) l = f (obj σ l).
Proof. unfold obj at 1, update. simpl. now rewrite lookup_insert_eq. Qed.

Lemma obj_update_ne l l' f σ : l ≠ l' -> obj (update l f σ) l' = obj σ l'.
Proof. intros H. unfold obj, update. simpl. now rewrite lookup_insert_ne. Qed.

Lemma view_update σ c l f :
  sessions σ !! c = Some l -> view (update l f σ) c = f (obj σ l).
Proof.
  intros H. unfold view. simpl. rewrite H. apply obj_update_eq.
Qed.

(** Resetting is idempotent on what a handler sees: the chat has a default
    session afterwards. *)
Lemma view_resetSession σ c : view (resetSession σ c) c = fresh.
Proof.
  unfold view, resetSession, obj. simpl. now rewrite !lookup_insert_eq.
Qed.

(** Resetting creates a new object and leaves the objects there are alone. *)
Lemma obj_resetSession σ c l : (l < next_loc σ)%nat -> obj (resetSession σ c) l = obj σ l.
Proof.
  intros H. unfold obj, resetSession. simpl. rewrite lookup_insert_ne; [reflexivity | lia].
Qed.

Lemma sessions_resetSession_ne σ c c' :
  c ≠ c' -> sessions (resetSession σ c) !! c' = sessions σ !! c'.
Proof. intros H. unfold resetSession. simpl. now rewrite lookup_insert_ne. Qed.

Lemma getSession_lookup σ c :
  sessions (getSession σ c).1 !! c = Some (getSession σ c).2.
Proof.
  unfold getSession. destruct (sessions σ !! c) as [l | ] eqn:H; simpl.
  - exact H.
  - apply lookup_insert_eq.
Qed.

(** [getSession] returns the session the chat has, a default one when it
    had none. *)
Lemma getSession_obj σ c : obj (getSession σ c).1 (getSession σ c).2 = view σ c.
Proof.
  unfold getSession, view. destruct (sessions σ !! c) as [l | ] eqn:H; simpl.
  - reflexivity.
  - unfold obj, resetSession. simpl. now rewrite lookup_insert_eq.
Qed.

Lemma getSession_view σ c : view (getSession σ c).1 c = view σ c.
Proof.
  unfold view at 1. rewrite getSession_lookup. apply getSession_obj.
Qed.

(** A chat that has a session keeps the store as it is. *)
Lemma getSession_existing σ c l :
  sessions σ !! c = Some l -> getSession σ c = (σ, l).
Proof. intros H. unfold getSession. now rewrite H. Qed.

Lemma running_has_session σ c :
  running (view σ c) = true ->
  exists l, sessions σ !! c = Some l /\ running (obj σ l) = true.
Proof.
  unfold view. destruct (sessions σ !! c) as [l | ]; [eauto | discriminate].
Qed.

End StoreFacts.

(* ===================================================================== *)
(** ** Commands *)
(* ===================================================================== *)

Section Commands.

(** C5, as stated, fails.  With a runner of chat 1 suspended in its loop,
    the cancel command leaves the chat with a session whose [running] is
    false; the runner is still there, with the object it started with.
    A /forward that was refused before the cancel is accepted after it. *)
Lemma cancel_clears_running_flag :
  sys_run boot Scenario.job_started = Some Scenario.while_running
  /\ running (view (mem Scenario.while_running) 1) = true
  /\ pool Scenario.while_running !! 2%nat
     = Some (Some {| awaiting := copyMessage (Finite (-1002)) (Finite (-1001)) (Finite 5);
                     cont := K_copying Scenario.runner |})
  /\ sys_step Scenario.while_running (Incoming 1 (Some (lit "/cancel")))
     = Some Scenario.after_cancel
  /\ running (view (mem Scenario.after_cancel) 1) = false
  /\ pool Scenario.after_cancel !! 2%nat = pool Scenario.while_running !! 2%nat
  /\ running (obj (mem Scenario.after_cancel) (s Scenario.runner)) = true
  /\ sent 1 (deliver (mem Scenario.while_running) 1 (Some (lit "/forward 1 9"))).1.2
     = [MsgAlreadyRunning]
  /\ sent 1 (deliver (mem Scenario.after_cancel) 1 (Some (lit "/forward 1 9"))).1.2
     = [MsgRangeSet (Finite 1) (Finite 9)].
Proof. repeat split; vm_compute; reflexivity. Qed.

(** C5 (amended): at any step, the cancel command at once replaces the
    session of the chat by a default one: step NONE, no range, no
    references, and [running] false, also while a runner of the chat is
    executing.  The objects created before, among them the one such a runner
    holds, are left as they are, and so are the sessions of other chats;
    the acknowledgement is sent. *)
Theorem cancel_replaces_session σ c (text : jsstring) :
  test (re_command "cancel") text = true ->
  exists σ',
    deliver σ c (Some text)
    = (σ', [Call (sendMessage c MsgCancelled)],
       [{| awaiting := sendMessage c MsgCancelled; cont := K_end |}])
    /\ view σ' c = fresh
    /\ (forall l, (l < next_loc σ)%nat -> obj σ' l = obj σ l)
    /\ (forall c', c ≠ c' -> sessions σ' !! c' = sessions σ !! c').
Proof.
  intros H. apply test_spec in H. exists (resetSession σ c).
  rewrite (deliver_cancel _ _ _ H). repeat split.
  - apply view_resetSession.
  - intros l Hl. now apply obj_resetSession.
  - intros c' Hc. now apply sessions_resetSession_ne.
Qed.

Lemma cancel_replaces_session_witness :
  test (re_command "cancel") (lit "/cancel") = true
  /\ exists σ',
       deliver (mem Scenario.while_running) 1 (Some (lit "/cancel"))
       = (σ', [Call (sendMessage 1 MsgCancelled)],
          [{| awaiting := sendMessage 1 MsgCancelled; cont := K_end |}])
       /\ view σ' 1 = fresh
       /\ (forall l, (l < next_loc (mem Scenario.while_running))%nat ->
                     obj σ' l = obj (mem Scenario.while_running) l)
       /\ (forall c', 1 ≠ c' ->
                      sessions σ' !! c' = sessions (mem Scenario.while_running) !! c').
Proof.
  split; [reflexivity | ].
  apply (cancel_replaces_session (mem Scenario.while_running) 1 (lit "/cancel")).
  reflexivity.
Defined.

(** C6: while the session of a chat is running, the /forward command is
    answered with the warning and the store stays exactly as it is: range,
    references, step and [running] of the session, and everything else. *)
Theorem forward_rejected_while_running σ c (text m1 m2 : jsstring) :
  exec_forward text = Some (m1, m2) ->
  running (view σ c) = true ->
  deliver σ c (Some text)
  = (σ, [Call (sendMessage c MsgAlreadyRunning)],
     [{| awaiting := sendMessage c MsgAlreadyRunning; cont := K_end |}]).
Proof.
  intros Hm Hrun. rewrite (deliver_forward _ _ _ _ _ Hm).
  apply running_has_session in Hrun as (l & Hl & Hrun).
  unfold on_forward. rewrite (getSession_existing _ _ _ Hl), Hrun. reflexivity.
Qed.

Lemma forward_rejected_while_running_witness :
  exec_forward (lit "/forward 1 9") = Some (lit "1", lit "9")
  /\ running (view (mem Scenario.while_running) 1) = true
  /\ deliver (mem Scenario.while_running) 1 (Some (lit "/forward 1 9"))
     = (mem Scenario.while_running, [Call (sendMessage 1 MsgAlreadyRunning)],
        [{| awaiting := sendMessage 1 MsgAlreadyRunning; cont := K_end |}]).
Proof.
  split; [reflexivity | split; [reflexivity | ] ].
  apply (forward_rejected_while_running _ 1 (lit "/forward 1 9") (lit "1") (lit "9"));
    reflexivity.
Defined.

(** C7: an accepted /forward (the chat is not running, both groups convert
    to integers [a] and [b]) stores the smaller value as [startId] and the
    larger as [endId], so that [startId <= endId]; it clears the references,
    sets the step to SRC and sends the prompt for the source. *)
Theorem forward_stores_ordered_range σ c (text m1 m2 : jsstring) a b :
  exec_forward text = Some (m1, m2) ->
  running (view σ c) = false ->
  Number m1 = Finite a ->
  Number m2 = Finite b ->
  exists σ',
    deliver σ c (Some text)
    = (σ', [Call (sendMessage c (MsgRangeSet (Finite (Z.min a b)) (Finite (Z.max a b))))],
       [{| awaiting := sendMessage c (MsgRangeSet (Finite (Z.min a b)) (Finite (Z.max a b)));
           cont := K_end |}])
    /\ view σ' c
       = {| step := Some SRC; running := false;
            startId := Some (Finite (Z.min a b)); endId := Some (Finite (Z.max a b));
            srcRef := None; dstRef := None |}
    /\ Z.min a b <= Z.max a b.
Proof.
  intros Hm Hrun Ha Hb. rewrite (deliver_forward _ _ _ _ _ Hm).
  unfold on_forward.
  pose proof (getSession_lookup σ c) as Hl. pose proof (getSession_obj σ c) as Ho.
  destruct (getSession σ c) as [σ1 l]. simpl in Hl, Ho.
  rewrite Ho, Hrun, Ha, Hb. cbn [isInteger negb orb lt].
  destruct (Z.ltb_spec b a) as [Hlt | Hge];
    unfold spawn, await; cbn [st out next option_list map app].
  - rewrite (Z.min_r a b), (Z.max_l a b) by lia.
    eexists. split; [reflexivity | split; [ | lia] ].
    rewrite (view_update _ _ _ _ Hl), Ho. unfold set_step. simpl. now rewrite Hrun.
  - rewrite (Z.min_l a b), (Z.max_r a b) by lia.
    eexists. split; [reflexivity | split; [ | lia] ].
    rewrite (view_update _ _ _ _ Hl), Ho. unfold set_step. simpl. now rewrite Hrun.
Qed.

(** /forward 30 2 stores the range 2 to 30. *)
Lemma forward_30_2 :
  exec_forward (lit "/forward 30 2") = Some (lit "30", lit "2")
  /\ running (view Store.empty 1) = false
  /\ Number (lit "30") = Finite 30
  /\ Number (lit "2") = Finite 2
  /\ exists σ',
       deliver Store.empty 1 (Some (lit "/forward 30 2"))
       = (σ', [Call (sendMessage 1 (MsgRangeSet (Finite 2) (Finite 30)))],
          [{| awaiting := sendMessage 1 (MsgRangeSet (Finite 2) (Finite 30));
              cont := K_end |}])
       /\ view σ' 1
          = {| step := Some SRC; running := false;
               startId := Some (Finite 2); endId := Some (Finite 30);
               srcRef := None; dstRef := None |}
       /\ 2 <= 30.
Proof.
  repeat (split; [reflexivity | ]).
  apply (forward_stores_ordered_range Store.empty 1 (lit "/forward 30 2")
           (lit "30") (lit "2") 30 2); reflexivity.
Defined.

(** C8, as stated, fails: a /forward whose values are not numerals does not
    match the pattern of the command, no handler acts on it, and nothing is
    reported. *)
Lemma forward_non_numeric_is_ignored :
  deliver Store.empty 1 (Some (lit "/forward a b")) = (Store.empty, [], []).
Proof. vm_compute. reflexivity. Qed.

(** C8 (amended): for a /forward that matches the pattern of the command
    (two numerals with an optional minus sign) in a chat that is not
    running, when the two values do not both convert to integers the format
    error is sent and no session changes: the chat sees the session it saw
    before, a store in which the chat had a session is left exactly as it
    was, and neither the sessions of other chats nor the objects there were
    are touched. *)
Theorem forward_format_error σ c (text m1 m2 : jsstring) :
  exec_forward text = Some (m1, m2) ->
  running (view σ c) = false ->
  isInteger (Number m1) && isInteger (Number m2) = false ->
  exists σ',
    deliver σ c (Some text)
    = (σ', [Call (sendMessage c MsgNotIntegers)],
       [{| awaiting := sendMessage c MsgNotIntegers; cont := K_end |}])
    /\ view σ' c = view σ c
    /\ (is_Some (sessions σ !! c) -> σ' = σ)
    /\ (forall c', c ≠ c' -> sessions σ' !! c' = sessions σ !! c')
    /\ (forall l, (l < next_loc σ)%nat -> obj σ' l = obj σ l).
Proof.
  intros Hm Hrun Hint. rewrite (deliver_forward _ _ _ _ _ Hm).
  unfold on_forward.
  pose proof (getSession_obj σ c) as Ho. pose proof (getSession_view σ c) as Hv.
  assert (Hsame : is_Some (sessions σ !! c) -> (getSession σ c).1 = σ).
  { intros [l Hl]. now rewrite (getSession_existing _ _ _ Hl). }
  assert (Hothers : forall c', c ≠ c' ->
            sessions (getSession σ c).1 !! c' = sessions σ !! c').
  { intros c' Hc. unfold getSession. destruct (sessions σ !! c); simpl;
      [reflexivity | now apply sessions_resetSession_ne]. }
  assert (Hobjs : forall l, (l < next_loc σ)%nat -> obj (getSession σ c).1 l = obj σ l).
  { intros l Hl. unfold getSession. destruct (sessions σ !! c); simpl;
      [reflexivity | now apply obj_resetSession]. }
  destruct (getSession σ c) as [σ1 l]. simpl in *.
  rewrite Ho, Hrun.
  assert (Hbad : negb (isInteger (Number m1)) || negb (isInteger (Number m2)) = true).
  { destruct (isInteger (Number m1)), (isInteger (Number m2)); simpl in *; congruence. }
  rewrite Hbad. exists σ1. repeat split; assumption.
Qed.

Lemma forward_format_error_witness :
  exec_forward Scenario.forward_huge = Some (Scenario.huge, lit "2")
  /\ running (view Store.empty 1) = false
  /\ isInteger (Number Scenario.huge) && isInteger (Number (lit "2")) = false
  /\ exists σ',
       deliver Store.empty 1 (Some Scenario.forward_huge)
       = (σ', [Call (sendMessage 1 MsgNotIntegers)],
          [{| awaiting := sendMessage 1 MsgNotIntegers; cont := K_end |}])
       /\ view σ' 1 = view Store.empty 1
       /\ (is_Some (sessions Store.empty !! 1) -> σ' = Store.empty)
       /\ (forall c', 1 ≠ c' -> sessions σ' !! c' = sessions Store.empty !! c')
       /\ (forall l, (l < next_loc Store.empty)%nat -> obj σ' l = obj Store.empty l).
Proof.
  split; [vm_compute; reflexivity | ].
  split; [reflexivity | ].
  split; [vm_compute; reflexivity | ].
  apply (forward_format_error Store.empty 1 Scenario.forward_huge Scenario.huge (lit "2")).
  - vm_compute. reflexivity.
  - reflexivity.
  - vm_compute. reflexivity.
Defined.

End Commands.

(* ===================================================================== *)
(** ** The forwarding loop *)
(* ===================================================================== *)

Section Runner.

Lemma and_then_assoc a b rest : and_then a (and_then b rest) = and_then (a ++ b) rest.
Proof. destruct rest as [[σ effs] | ]; simpl; [now rewrite app_assoc | reflexivity]. Qed.

Lemma run_from_await fuel env n σ logs c k :
  run_from (S fuel) env n (await σ logs c k)
  = and_then (map Log logs ++ [Call c]) (run_from fuel env (S n) (resume σ k (env n c))).
Proof. reflexivity. Qed.

Lemma run_from_finish fuel env n σ logs :
  run_from fuel env n (finish σ logs) = Some (σ, map Log logs).
Proof. destruct fuel; reflexivity. Qed.

Lemma attempts_app a b : attempts (a ++ b) = attempts a ++ attempts b.
Proof. apply omap_app. Qed.

Lemma sent_app c a b : sent c (a ++ b) = sent c a ++ sent c b.
Proof. apply omap_app. Qed.

Lemma iteration_ok σ fr env n fuel v :
  env n (copy_of fr) = Fulfilled v ->
  run_from (2 + fuel) env n (await σ [] (copy_of fr) (K_copying fr))
  = and_then [Call (copy_of fr); Call (sleep BASE_DELAY)]
      (run_from fuel env (2 + n) (loop_test σ (at_mid (succ (mid fr)) (ok_incr fr)))).
Proof.
  intros H. change (2 + fuel)%nat with (S (S fuel)).
  rewrite run_from_await, H. cbn [resume].
  rewrite run_from_await. cbn [resume map app]. now rewrite and_then_assoc.
Qed.

Lemma iteration_fail σ fr env n fuel e :
  env n (copy_of fr) = Rejected e ->
  flood_control e = None ->
  run_from (2 + fuel) env n (await σ [] (copy_of fr) (K_copying fr))
  = and_then [Call (copy_of fr); Log (LogFail (mid fr) e); Call (sleep FAIL_DELAY)]
      (run_from fuel env (2 + n) (loop_test σ (at_mid (succ (mid fr)) (fail_incr fr)))).
Proof.
  intros H Hf. change (2 + fuel)%nat with (S (S fuel)).
  rewrite run_from_await, H. cbn [resume]. rewrite Hf.
  rewrite run_from_await. cbn [resume map app]. now rewrite and_then_assoc.
Qed.

Lemma iteration_retry_ok σ fr env n fuel e hint v :
  env n (copy_of fr) = Rejected e ->
  flood_control e = Some hint ->
  env (2 + n)%nat (copy_of fr) = Fulfilled v ->
  run_from (4 + fuel) env n (await σ [] (copy_of fr) (K_copying fr))
  = and_then [Call (copy_of fr);
              Log (LogFlood (mid fr) (succ hint)); Call (sleep (Seconds (succ hint)));
              Call (copy_of fr); Call (sleep BASE_DELAY)]
      (run_from fuel env (4 + n) (loop_test σ (at_mid (succ (mid fr)) (ok_incr fr)))).
Proof.
  intros H Hf H2. change (4 + fuel)%nat with (S (S (S (S fuel)))).
  change (2 + n)%nat with (S (S n)) in H2.
  rewrite run_from_await, H. cbn [resume]. rewrite Hf.
  rewrite run_from_await. cbn [resume].
  rewrite run_from_await, H2. cbn [resume].
  rewrite run_from_await. cbn [resume map app]. now rewrite !and_then_assoc.
Qed.

Lemma iteration_retry_fail σ fr env n fuel e hint e2 :
  env n (copy_of fr) = Rejected e ->
  flood_control e = Some hint ->
  env (2 + n)%nat (copy_of fr) = Rejected e2 ->
  run_from (4 + fuel) env n (await σ [] (copy_of fr) (K_copying fr))
  = and_then [Call (copy_of fr);
              Log (LogFlood (mid fr) (succ hint)); Call (sleep (Seconds (succ hint)));
              Call (copy_of fr);
              Log (LogRetryFailed (mid fr) e2); Call (sleep FAIL_DELAY)]
      (run_from fuel env (4 + n) (loop_test σ (at_mid (succ (mid fr)) (fail_incr fr)))).
Proof.
  intros H Hf H2. change (4 + fuel)%nat with (S (S (S (S fuel)))).
  change (2 + n)%nat with (S (S n)) in H2.
  rewrite run_from_await, H. cbn [resume]. rewrite Hf.
  rewrite run_from_await. cbn [resume].
  rewrite run_from_await, H2. cbn [resume].
  rewrite run_from_await. cbn [resume map app]. now rewrite !and_then_assoc.
Qed.



Lemma loop_test_inside σ fr b m :
  endId (obj σ (s fr)) = Some (Finite b) -> mid fr = Finite m -> m <= b ->
  loop_test σ fr = await σ [] (copy_of fr) (K_copying fr).
Proof.
  intros He Hm Hle. unfold loop_test, loop_condition. rewrite He, Hm. cbn [le].
  apply Z.leb_le in Hle. now rewrite Hle.
Qed.

Lemma loop_test_outside σ fr b m :
  endId (obj σ (s fr)) = Some (Finite b) -> mid fr = Finite m -> b < m ->
  loop_test σ fr = summary σ (chatId fr) (ok fr) (fail fr).
Proof.
  intros He Hm Hlt. unfold loop_test, loop_condition. rewrite He, Hm. cbn [le].
  apply Z.leb_gt in Hlt. now rewrite Hlt.
Qed.

(** The loop from any index on: it runs through the indices that are left
    and ends with the summary and the reset.  The counters stay exact as
    long as they stay below [2^53]. *)
Lemma loop_completes env σ c l src dst b :
  endId (obj σ l) = Some (Finite b) ->
  b < max_exact ->
  reliable env ->
  forall k m n n_ok n_fail,
    Z.of_nat k = b - m + 1 ->
    - max_exact <= m ->
    0 <= n_ok -> 0 <= n_fail ->
    n_ok + n_fail + Z.of_nat k <= max_exact ->
    exists fuel twice ok' fail' body,
      run_from fuel env n
        (loop_test σ {| chatId := c; s := l; srcId := src; dstId := dst;
                        mid := Finite m; ok := Finite n_ok; fail := Finite n_fail |})
      = Some (resetSession σ c,
              body ++ [Call (sendMessage c (MsgDone (Finite ok') (Finite fail')))])
      /\ attempts body = Spec.visits m twice
      /\ length twice = k
      /\ sent c body = []
      /\ n_ok <= ok' /\ n_fail <= fail'
      /\ ok' + fail' = n_ok + n_fail + Z.of_nat k.
Proof.
  intros Hend Hb Hrel.
  induction k as [ | k IH]; intros m n n_ok n_fail Hk Hm Hok0 Hfail0 Hroom.
  - exists 1%nat, [], n_ok, n_fail, [].
    rewrite (loop_test_outside _ _ b m) by (simpl; auto; lia).
    unfold summary. cbn [chatId ok fail]. rewrite run_from_await.
    destruct (Hrel n c (MsgDone (Finite n_ok) (Finite n_fail))) as [v ->]. cbn [resume].
    rewrite run_from_finish. simpl. repeat split; lia.
  - set (fr := {| chatId := c; s := l; srcId := src; dstId := dst;
                  mid := Finite m; ok := Finite n_ok; fail := Finite n_fail |}).
    assert (Hsucc : succ (Finite m) = Finite (m + 1)) by (apply succ_exact; lia).
    assert (Hsucc_ok : succ (Finite n_ok) = Finite (n_ok + 1)) by (apply succ_exact; lia).
    assert (Hsucc_fail : succ (Finite n_fail) = Finite (n_fail + 1))
      by (apply succ_exact; lia).
    rewrite (loop_test_inside _ _ b m) by (simpl; auto; lia).
    assert (Hok : at_mid (succ (mid fr)) (ok_incr fr)
                  = {| chatId := c; s := l; srcId := src; dstId := dst;
                       mid := Finite (m + 1); ok := Finite (n_ok + 1);
                       fail := Finite n_fail |}).
    { unfold at_mid, ok_incr, fr. cbn [chatId s srcId dstId mid ok fail].
      now rewrite Hsucc, Hsucc_ok. }
    assert (Hfail : at_mid (succ (mid fr)) (fail_incr fr)
                  = {| chatId := c; s := l; srcId := src; dstId := dst;
                       mid := Finite (m + 1); ok := Finite n_ok;
                       fail := Finite (n_fail + 1) |}).
    { unfold at_mid, fail_incr, fr. cbn [chatId s srcId dstId mid ok fail].
      now rewrite Hsucc, Hsucc_fail. }
    destruct (env n (copy_of fr)) as [v | e] eqn:E1.
    + destruct (IH (m + 1) (2 + n)%nat (n_ok + 1) n_fail) as
        (fuel & twice & ok' & fail' & body & Hrun & Hatt & Hlen & Hsent & Ho & Hf & Hsum);
        [lia | lia | lia | lia | lia | ].
      exists (2 + fuel)%nat, (false :: twice), ok', fail',
        ([Call (copy_of fr); Call (sleep BASE_DELAY)] ++ body).
      rewrite (iteration_ok _ _ _ _ _ _ E1), Hok, Hrun. cbn [and_then].
      rewrite app_assoc. split; [reflexivity | ].
      rewrite attempts_app, sent_app, Hatt, Hsent. simpl length.
      repeat split; try reflexivity; lia.
    + destruct (flood_control e) as [hint | ] eqn:Ef.
      * destruct (env (2 + n)%nat (copy_of fr)) as [v | e2] eqn:E2.
        -- destruct (IH (m + 1) (4 + n)%nat (n_ok + 1) n_fail) as
             (fuel & twice & ok' & fail' & body & Hrun & Hatt & Hlen & Hsent & Ho & Hf & Hsum);
             [lia | lia | lia | lia | lia | ].
           exists (4 + fuel)%nat, (true :: twice), ok', fail',
             ([Call (copy_of fr);
               Log (LogFlood (mid fr) (succ hint)); Call (sleep (Seconds (succ hint)));
               Call (copy_of fr); Call (sleep BASE_DELAY)] ++ body).
           rewrite (iteration_retry_ok _ _ _ _ _ _ _ _ E1 Ef E2), Hok, Hrun. cbn [and_then].
           rewrite app_assoc. split; [reflexivity | ].
           rewrite attempts_app, sent_app, Hatt, Hsent. simpl length.
           repeat split; try reflexivity; lia.
        -- destruct (IH (m + 1) (4 + n)%nat n_ok (n_fail + 1)) as
             (fuel & twice & ok' & fail' & body & Hrun & Hatt & Hlen & Hsent & Ho & Hf & Hsum);
             [lia | lia | lia | lia | lia | ].
           exists (4 + fuel)%nat, (true :: twice), ok', fail',
             ([Call (copy_of fr);
               Log (LogFlood (mid fr) (succ hint)); Call (sleep (Seconds (succ hint)));
               Call (copy_of fr);
               Log (LogRetryFailed (mid fr) e2); Call (sleep FAIL_DELAY)] ++ body).
           rewrite (iteration_retry_fail _ _ _ _ _ _ _ _ E1 Ef E2), Hfail, Hrun. cbn [and_then].
           rewrite app_assoc. split; [reflexivity | ].
           rewrite attempts_app, sent_app, Hatt, Hsent. simpl length.
           repeat split; try reflexivity; lia.
      * destruct (IH (m + 1) (2 + n)%nat n_ok (n_fail + 1)) as
          (fuel & twice & ok' & fail' & body & Hrun & Hatt & Hlen & Hsent & Ho & Hf & Hsum);
          [lia | lia | lia | lia | lia | ].
        exists (2 + fuel)%nat, (false :: twice), ok', fail',
          ([Call (copy_of fr); Log (LogFail (mid fr) e); Call (sleep FAIL_DELAY)] ++ body).
        rewrite (iteration_fail _ _ _ _ _ _ E1 Ef), Hfail, Hrun. cbn [and_then].
        rewrite app_assoc. split; [reflexivity | ].
        rewrite attempts_app, sent_app, Hatt, Hsent. simpl length.
        repeat split; try reflexivity; lia.
Qed.

Lemma and_then_nil rest : and_then [] rest = rest.
Proof. now destruct rest as [[σ effs] | ]. Qed.





(** C1 (amended): a run over [startId <= endId], both between [-2^53] and
    [2^53 - 1] and less than [2^53] apart, with [sendMessage] reliable.
    After the start message the handler calls [copyMessage] for every index
    from [startId] to [endId], in increasing order and without a gap, for
    each index once or twice; every index counts once for [ok] or for
    [fail], which add up to [endId - startId + 1]; then the summary with
    both counts is sent, as the only message of the loop, and the session of
    the chat is reset to the default. *)
Theorem forward_run_visits_range σ c l src dst a b env :
  startId (obj σ l) = Some (Finite a) ->
  endId (obj σ l) = Some (Finite b) ->
  a <= b ->
  - 2 ^ 53 <= a ->
  b < 2 ^ 53 ->
  b - a < 2 ^ 53 ->
  reliable env ->
  exists fuel twice n_ok n_fail body,
    run fuel env σ
      {| awaiting := sendMessage c (MsgStarting src dst (Some (Finite a)) (Some (Finite b)));
         cont := K_starting c l src dst |}
    = Some (resetSession σ c,
            body ++ [Call (sendMessage c (MsgDone (Finite n_ok) (Finite n_fail)))])
    /\ attempts body = Spec.visits a twice
    /\ Z.of_nat (length twice) = b - a + 1
    /\ sent c body = []
    /\ 0 <= n_ok /\ 0 <= n_fail
    /\ n_ok + n_fail = b - a + 1
    /\ view (resetSession σ c) c = fresh.
Proof.
  intros Hs He Hab Ha Hb Hsize Hrel.
  destruct (loop_completes env σ c l src dst b He Hb Hrel
              (Z.to_nat (b - a + 1)) a 1%nat 0 0)
    as (fuel & twice & n_ok & n_fail & body & Hrun & Hatt & Hlen & Hsent & Ho & Hf & Hsum);
    [lia | unfold max_exact; lia | lia | lia | unfold max_exact; lia | ].
  exists (S fuel), twice, n_ok, n_fail, body.
  unfold run. cbn [run_from next st out awaiting cont].
  destruct (Hrel 0%nat c (MsgStarting src dst (Some (Finite a)) (Some (Finite b))))
    as [v ->].
  cbn [resume]. unfold loop_enter. rewrite Hs, Hrun, and_then_nil.
  repeat split; try assumption; try lia.
  apply view_resetSession.
Qed.

Lemma forward_run_5_to_7 :
  startId (obj (mem Scenario.job_ready) 0%nat) = Some (Finite 5)
  /\ endId (obj (mem Scenario.job_ready) 0%nat) = Some (Finite 7)
  /\ 5 <= 7 /\ - 2 ^ 53 <= 5 /\ 7 < 2 ^ 53 /\ 7 - 5 < 2 ^ 53
  /\ reliable Scenario.calm
  /\ exists fuel twice n_ok n_fail body,
       run fuel Scenario.calm (mem Scenario.job_ready) (Scenario.starting 5 7)
       = Some (resetSession (mem Scenario.job_ready) 1,
               body ++ [Call (sendMessage 1 (MsgDone (Finite n_ok) (Finite n_fail)))])
       /\ attempts body = Spec.visits 5 twice
       /\ Z.of_nat (length twice) = 7 - 5 + 1
       /\ sent 1 body = []
       /\ 0 <= n_ok /\ 0 <= n_fail
       /\ n_ok + n_fail = 7 - 5 + 1
       /\ view (resetSession (mem Scenario.job_ready) 1) 1 = fresh.
Proof.
  assert (Hrel : reliable Scenario.calm) by (intros n c m; now exists (Finite 0)).
  split; [reflexivity | ]. split; [reflexivity | ].
  split; [lia | ]. split; [lia | ]. split; [lia | ]. split; [lia | ].
  split; [exact Hrel | ].
  apply (forward_run_visits_range (mem Scenario.job_ready) 1 0%nat
           (Finite (-1001)) (Finite (-1002)) 5 7 Scenario.calm);
    try reflexivity; try lia; exact Hrel.
Defined.

(** At [2^53] the loop does not advance: [mid++] leaves [mid] as it is. *)
Lemma loop_stuck env σ :
  (forall n c, exists v, env n c = Fulfilled v) ->
  forall fuel n fr,
    endId (obj σ (s fr)) = Some (Finite max_exact) ->
    mid fr = Finite max_exact ->
    run_from fuel env n (await σ [] (copy_of fr) (K_copying fr)) = None
    /\ run_from fuel env n (await σ [] (sleep BASE_DELAY) (K_pacing fr)) = None.
Proof.
  intros Henv. induction fuel as [ | fuel IH]; intros n fr He Hm.
  - split; reflexivity.
  - split; rewrite run_from_await.
    + destruct (Henv n (copy_of fr)) as [v ->]. cbn [resume].
      destruct (IH (S n) (ok_incr fr) He Hm) as [_ ->]. reflexivity.
    + assert (Hnext : resume σ (K_pacing fr) (env n (sleep BASE_DELAY))
                      = loop_test σ (at_mid (succ (mid fr)) fr))
        by now destruct (env n (sleep BASE_DELAY)).
      rewrite Hnext, Hm, succ_stuck.
      rewrite (loop_test_inside _ _ max_exact max_exact) by (auto; lia).
      destruct (IH (S n) (at_mid (Finite max_exact) fr) He eq_refl) as [-> _].
      reflexivity.
Qed.

(** C1, as stated, fails: /forward 9007199254740992 9007199254740992 gives
    a range with [startId <= endId] on which the run never comes to its
    summary, even with every call succeeding; it calls [copyMessage] for
    index [2^53] again and again. *)
Lemma far_run_never_ends :
  sys_run boot Scenario.far_job = Some Scenario.far_ready
  /\ pool Scenario.far_ready !! 2%nat = Some (Some (Scenario.starting (2 ^ 53) (2 ^ 53)))
  /\ startId (view (mem Scenario.far_ready) 1) = Some (Finite (2 ^ 53))
  /\ endId (view (mem Scenario.far_ready) 1) = Some (Finite (2 ^ 53))
  /\ ~ exists fuel res,
         run fuel Scenario.calm (mem Scenario.far_ready)
           (Scenario.starting (2 ^ 53) (2 ^ 53)) = Some res.
Proof.
  repeat (split; [vm_compute; reflexivity | ]).
  assert (Hs : startId (obj (mem Scenario.far_ready) 0%nat) = Some (Finite max_exact))
    by (vm_compute; reflexivity).
  assert (He : endId (obj (mem Scenario.far_ready) 0%nat) = Some (Finite max_exact))
    by (vm_compute; reflexivity).
  generalize dependent (mem Scenario.far_ready). intros σ Hs He (fuel & res & Hrun).
  destruct fuel as [ | fuel]; [discriminate Hrun | ].
  unfold run, Scenario.starting in Hrun.
  cbn [run_from next st out awaiting cont Scenario.calm resume] in Hrun.
  unfold loop_enter in Hrun. rewrite Hs in Hrun.
  rewrite (loop_test_inside _ _ max_exact max_exact) in Hrun by (auto; lia).
  match type of Hrun with
  | and_then [] (run_from fuel _ 1 (await σ [] (copy_of ?fr) _)) = _ =>
      destruct (loop_stuck Scenario.calm σ (fun _ _ => ex_intro _ _ eq_refl)
                  fuel 1%nat fr He eq_refl) as [Hstuck _]
  end.
  rewrite Hstuck in Hrun. discriminate Hrun.
Qed.

(** The walk-through of the specification: the indices 5, 6, 7 are copied
    in order, the report is 3 and 0, and the session is a default one
    again. *)
Example walkthrough_5_to_7 :
  sys_run boot Scenario.walkthrough = Some Scenario.walked
  /\ attempts (trace Scenario.walked) = [Finite 5; Finite 6; Finite 7]
  /\ sent 1 (trace Scenario.walked)
     = [ MsgRangeSet (Finite 5) (Finite 7); MsgSourceReceived;
         MsgStarting (Finite (-1001)) (Finite (-1002)) (Some (Finite 5)) (Some (Finite 7));
         MsgDone (Finite 3) (Finite 0) ]
  /\ view (mem Scenario.walked) 1 = fresh
  /\ pool Scenario.walked !! 2%nat = Some None.
Proof. repeat split; vm_compute; reflexivity. Qed.

(** *** Other handlers leave a running object its range

    While a runner is suspended other handlers may run.  None of them writes
    [running], [startId] or [endId] of an object that is running: the loop
    reads the same bounds at every test. *)

Lemma frozen_refl σ l : running (obj σ l) = true -> Spec.frozen σ σ l.
Proof. intros H. now repeat split. Qed.

Lemma frozen_trans σ1 σ2 σ3 l :
  Spec.frozen σ1 σ2 l -> Spec.frozen σ2 σ3 l -> Spec.frozen σ1 σ3 l.
Proof.
  intros (Hn1 & Hr1 & Hs1 & He1) (Hn2 & Hr2 & Hs2 & He2).
  repeat split; [lia | assumption | congruence | congruence].
Qed.

Lemma frozen_resetSession σ c l :
  (l < next_loc σ)%nat -> running (obj σ l) = true ->
  Spec.frozen σ (resetSession σ c) l.
Proof.
  intros Hl Hrun. unfold Spec.frozen. rewrite (obj_resetSession _ _ _ Hl).
  repeat split; [simpl; lia | assumption].
Qed.

Lemma frozen_getSession σ c l :
  (l < next_loc σ)%nat -> running (obj σ l) = true ->
  Spec.frozen σ (getSession σ c).1 l.
Proof.
  intros Hl Hrun. unfold getSession. destruct (sessions σ !! c); simpl;
    [now apply frozen_refl | now apply frozen_resetSession].
Qed.

Lemma frozen_update σ l' f l :
  running (obj σ l) = true ->
  (l' = l -> running (f (obj σ l)) = true
             /\ startId (f (obj σ l)) = startId (obj σ l)
             /\ endId (f (obj σ l)) = endId (obj σ l)) ->
  Spec.frozen σ (update l' f σ) l.
Proof.
  intros Hrun Hf. unfold Spec.frozen. destruct (decide (l' = l)) as [-> | Hne].
  - rewrite obj_update_eq. destruct (Hf eq_refl) as (H1 & H2 & H3).
    repeat split; [simpl; lia | assumption | assumption | assumption].
  - rewrite obj_update_ne by assumption. repeat split; [simpl; lia | assumption].
Qed.

Lemma on_forward_frozen σ c (m1 m2 : jsstring) l :
  (l < next_loc σ)%nat -> running (obj σ l) = true ->
  Spec.frozen σ (st (on_forward σ c m1 m2)) l.
Proof.
  intros Hl Hrun. unfold on_forward.
  pose proof (frozen_getSession σ c l Hl Hrun) as H1.
  destruct (getSession σ c) as [σ1 l1]. simpl in H1.
  destruct (running (obj σ1 l1)) eqn:Hrun1; [exact H1 | ].
  destruct (negb (isInteger (Number m1)) || negb (isInteger (Number m2))); [exact H1 | ].
  assert (Hne : l1 = l -> False).
  { intros ->. destruct H1 as (_ & H1 & _). congruence. }
  destruct (lt (Number m2) (Number m1));
    (eapply frozen_trans; [exact H1 | ]);
    (apply frozen_update; [apply H1 | intros E; destruct (Hne E)]).
Qed.

Lemma on_message_frozen σ c msg_text l :
  running (obj σ l) = true -> Spec.frozen σ (st (on_message σ c msg_text)) l.
Proof.
  intros Hrun. pose proof (frozen_refl σ l Hrun) as H. unfold on_message.
  destruct (trim (default [] msg_text)) as [ | a u]; [exact H | ].
  destruct (startsWith ch_slash (a :: u)); [exact H | ].
  destruct (sessions σ !! c) as [l1 | ]; [ | exact H].
  destruct (step (obj σ l1)) as [[ | | ] | ]; [ | | | exact H].
  - destruct (negb (ref_truthy (normalizeChatRef (a :: u)))); [exact H | ].
    apply frozen_update; [assumption | ]. intros _. now repeat split.
  - destruct (negb (ref_truthy (normalizeChatRef (a :: u)))); [exact H | ].
    apply frozen_update; [assumption | ]. intros _. now repeat split.
  - destruct (normalizeChatRef (a :: u)) as [[n | name] | ]; exact H.
Qed.

(** An incoming message leaves a running object its range. *)
Lemma deliver_frozen σ c msg_text l :
  (l < next_loc σ)%nat -> running (obj σ l) = true ->
  Spec.frozen σ (deliver σ c msg_text).1.1 l.
Proof.
  intros Hl Hrun. unfold deliver.
  assert (Hfold : forall hs acc,
            Forall (fun h => forall σ' r, (l < next_loc σ')%nat ->
                                          running (obj σ' l) = true -> h σ' = Some r ->
                                          Spec.frozen σ' (st r) l) hs ->
            Spec.frozen σ acc.1.1 l -> Spec.frozen σ (foldl invoke acc hs).1.1 l).
  { induction hs as [ | h hs IH]; intros [[σ0 effs] ts] Hall Hacc; [exact Hacc | ].
    inversion Hall as [ | ? ? Hh Hhs]; subst. cbn [foldl]. apply IH; [assumption | ].
    unfold invoke. destruct (h σ0) as [r | ] eqn:E; [ | exact Hacc].
    simpl in *. eapply frozen_trans; [exact Hacc | ].
    destruct Hacc as (Hn & Hr & _). apply Hh; [lia | assumption | assumption]. }
  apply Hfold; [ | now apply frozen_refl].
  assert (Hon : forall re (h : store -> Z -> result) (t : jsstring),
            (forall σ', (l < next_loc σ')%nat -> running (obj σ' l) = true ->
                        Spec.frozen σ' (st (h σ' c)) l) ->
            forall σ' r, (l < next_loc σ')%nat -> running (obj σ' l) = true ->
                         onText re h c t σ' = Some r -> Spec.frozen σ' (st r) l).
  { intros re h t Hh σ' r Hl' Hr'. unfold onText. destruct (test re t); [ | discriminate].
    intros [= <-]. now apply Hh. }
  unfold callbacks. constructor.
  - intros σ' r _ Hr' [= <-]. now apply on_message_frozen.
  - destruct msg_text as [[ | a u] | ]; try constructor.
    + apply Hon. intros σ' _ Hr'. now apply frozen_refl.
    + constructor; [apply Hon; intros σ' Hl' Hr'; now apply frozen_resetSession | ].
      constructor; [apply Hon; intros σ' _ Hr'; now apply frozen_refl | ].
      constructor; [apply Hon; intros σ' _ Hr'; now apply frozen_refl | ].
      constructor; [ | constructor].
      intros σ' r Hl' Hr'.
      destruct (exec_forward (a :: u)) as [[m1 m2] | ]; [ | discriminate].
      intros [= <-]. now apply on_forward_frozen.
Qed.

(** A handler that goes on leaves a running object its range. *)
Lemma resume_frozen σ k r l :
  (l < next_loc σ)%nat -> running (obj σ l) = true ->
  Spec.frozen σ (st (resume σ k r)) l.
Proof.
  intros Hl Hrun. pose proof (frozen_refl σ l Hrun) as H.
  destruct k as [ | c | c ref | c ref in_try | c l1 | c l1 src | c l1 src dst
                | fr | fr | fr | fr | c ].
  - exact H.
  - destruct r as [v | e]; [ | exact H]. cbn [resume].
    pose proof (frozen_getSession σ c l Hl Hrun) as H1.
    destruct (getSession σ c) as [σ1 l1]. simpl in H1.
    destruct (running (obj σ1 l1)) eqn:Hrun1; [exact H1 | ].
    eapply frozen_trans; [exact H1 | ].
    apply frozen_update; [apply H1 | ]. intros ->.
    destruct H1 as (_ & H1 & _). congruence.
  - destruct r; exact H.
  - destruct in_try, r as [v | e]; cbn [resume st finish await];
      try exact H; now apply frozen_resetSession.
  - destruct r as [v | e]; cbn [resume st await];
      [exact H | now apply frozen_resetSession].
  - destruct r as [v | e]; cbn [resume st await];
      [ | now apply frozen_resetSession].
    apply frozen_update; [assumption | ]. intros _. now repeat split.
  - destruct r as [v | e]; [ | exact H]. cbn [resume]. unfold loop_enter.
    destruct (startId (obj σ l1)); [ | exact H].
    unfold loop_test. destruct (loop_condition σ _); exact H.
  - destruct r as [v | e]; [exact H | ]. cbn [resume].
    destruct (flood_control e); exact H.
  - assert (E : resume σ (K_pacing fr) r = loop_test σ (at_mid (succ (mid fr)) fr))
      by now destruct r.
    rewrite E. unfold loop_test. destruct (loop_condition σ _); exact H.
  - destruct r; exact H.
  - destruct r; exact H.
  - destruct r as [v | e]; cbn [resume st finish];
      [now apply frozen_resetSession | exact H].
Qed.

End Runner.

(* ===================================================================== *)
(** ** The destination step *)
(* ===================================================================== *)

Section Destination.

Lemma drop_space_head (t : jsstring) c u : drop_space t = c :: u -> is_space c = false.
Proof.
  induction t as [ | a t IH]; simpl; [discriminate | ].
  destruct (is_space a) eqn:Ha; [exact IH | ]. now intros [= <- _].
Qed.

Lemma drop_space_fixed c (u : jsstring) : is_space c = false -> drop_space (c :: u) = c :: u.
Proof. intros H. simpl. now rewrite H. Qed.

Lemma drop_space_idem (t : jsstring) : drop_space (drop_space t) = drop_space t.
Proof.
  destruct (drop_space t) as [ | c u] eqn:E; [reflexivity | ].
  apply drop_space_fixed. exact (drop_space_head _ _ _ E).
Qed.

(** Trimming a trimmed text changes nothing. *)
Lemma trim_idem (t : jsstring) : trim (trim t) = trim t.
Proof.
  unfold trim. set (y := drop_space t).
  assert (Hfix : drop_space (rev (drop_space (rev y))) = rev (drop_space (rev y))).
  { destruct y as [ | c y'] eqn:Ey; [reflexivity | ].
    assert (Hc : is_space c = false) by exact (drop_space_head _ _ _ Ey).
    simpl rev. destruct (drop_space_snoc (rev y') c Hc) as (u' & ->).
    rewrite rev_app_distr. simpl. now rewrite Hc. }
  rewrite Hfix, rev_involutive. now rewrite drop_space_idem.
Qed.

Lemma normalizeChatRef_trim (t : jsstring) : normalizeChatRef (trim t) = normalizeChatRef t.
Proof. unfold normalizeChatRef. now rewrite trim_idem. Qed.

(** A numeric text starts with "-" or a digit, a user name with a word
    character. *)
Lemma numeric_head c (u : jsstring) :
  Matches re_numeric (c :: u) -> c = ch_minus \/ is_digit c = true.
Proof.
  intros H. apply cat_cons_inv in H as [(s1 & s2 & _ & H1 & _) | [_ H2] ].
  - apply alt_inv in H1 as [H1 | H1].
    + apply cls_inv in H1 as (a & [= -> _] & Ha). apply N.eqb_eq in Ha. now left.
    + apply eps_inv in H1. discriminate.
  - apply cat_cons_inv in H2 as [(s1 & s2 & _ & H1 & _) | [H1 _] ].
    + apply cls_inv in H1 as (a & [= -> _] & Ha). now right.
    + apply cls_inv in H1 as (a & Ha & _). discriminate.
Qed.

Lemma username_head c (u : jsstring) : Matches re_username (c :: u) -> is_word c = true.
Proof.
  intros H. apply cat_cons_inv in H as [(s1 & s2 & _ & H1 & _) | [H1 _] ].
  - now apply cls_inv in H1 as (a & [= -> _] & Ha).
  - apply cls_inv in H1 as (a & Ha & _). discriminate.
Qed.

(** A text that normalizes to a reference is not a command. *)
Lemma normalized_not_command (t : jsstring) ref :
  normalizeChatRef t = Some ref ->
  exists c u, trim t = c :: u /\ startsWith ch_slash (trim t) = false.
Proof.
  unfold normalizeChatRef. destruct (trim t) as [ | c u] eqn:E; [discriminate | ].
  intros H. exists c, u. split; [reflexivity | ].
  simpl. destruct (N.eqb_spec c ch_slash) as [-> | ]; [ | reflexivity].
  exfalso.
  destruct (test re_numeric (ch_slash :: u)) eqn:Hn.
  - apply test_spec, numeric_head in Hn as [Hn | Hn]; discriminate.
  - change (strip_at (ch_slash :: u)) with (ch_slash :: u) in H.
    destruct (test re_username (ch_slash :: u)) eqn:Hu; [ | discriminate].
    apply test_spec, username_head in Hu. discriminate.
Qed.

(** In the DST step a text that normalizes to a truthy reference stores it,
    clears the step and awaits the resolution of the source. *)
Lemma on_message_destination σ c l (text : jsstring) ref :
  sessions σ !! c = Some l ->
  step (obj σ l) = Some DST ->
  normalizeChatRef text = Some ref ->
  ref_truthy (Some ref) = true ->
  on_message σ c (Some text)
  = await (update l (fun o => set_step None (set_dstRef (Some ref) o)) σ) []
      (resolveChatId (srcRef (obj σ l))) (K_src_resolving c l).
Proof.
  intros Hl Hstep Hn Ht. unfold on_message.
  change (default [] (Some text)) with text.
  destruct (normalized_not_command _ _ Hn) as (a & u & E & Hcmd).
  pose proof (normalizeChatRef_trim text) as Htrim. rewrite Hn in Htrim.
  rewrite E in *. cbv zeta. rewrite Hcmd, Hl, Hstep, Htrim, Ht.
  cbn [negb]. rewrite obj_update_eq. reflexivity.
Qed.

(** C4: once the destination reference is collected (the step is DST and
    the text normalizes to a truthy reference), the handler stores it,
    clears the step and resolves the source first, with [running] as it
    was.  If that fails the session of the chat is replaced by a default
    one and the failure of the SOURCE is reported with the error; the
    destination is not resolved and no message is copied.  If the source
    resolves, the destination is resolved next; if that fails the session is
    replaced in the same way, the failure of the TARGET is reported with the
    error and no message is copied.  Only when both resolve is [running]
    set, and the start message sent. *)
Theorem resolution_failure_resets σ c l (text : jsstring) ref :
  sessions σ !! c = Some l ->
  step (obj σ l) = Some DST ->
  normalizeChatRef text = Some ref ->
  ref_truthy (Some ref) = true ->
  let σ1 := update l (fun o => set_step None (set_dstRef (Some ref) o)) σ in
  let σ2 := update l (set_running true) σ1 in
  let src_call := resolveChatId (srcRef (obj σ l)) in
  let dst_call := resolveChatId (Some ref) in
  on_message σ c (Some text) = await σ1 [] src_call (K_src_resolving c l)
  /\ running (obj σ1 l) = running (obj σ l)
  /\ (forall env e,
        env 0%nat src_call = Rejected e ->
        run_from 2 env 0 (on_message σ c (Some text))
        = Some (resetSession σ1 c,
                [Call src_call;
                 Call (sendMessage c (MsgSourceFailed (srcRef (obj σ l)) e))]))
  /\ (forall env src e,
        env 0%nat src_call = Fulfilled src ->
        env 1%nat dst_call = Rejected e ->
        run_from 3 env 0 (on_message σ c (Some text))
        = Some (resetSession σ1 c,
                [Call src_call; Call dst_call;
                 Call (sendMessage c (MsgTargetFailed (Some ref) e))]))
  /\ view (resetSession σ1 c) c = fresh
  /\ (forall env src dst fuel,
        env 0%nat src_call = Fulfilled src ->
        env 1%nat dst_call = Fulfilled dst ->
        run_from (2 + fuel) env 0 (on_message σ c (Some text))
        = and_then [Call src_call; Call dst_call]
            (run_from fuel env 2
               (await σ2 []
                  (sendMessage c (MsgStarting src dst (startId (obj σ l)) (endId (obj σ l))))
                  (K_starting c l src dst))))
  /\ running (obj σ2 l) = true.
Proof.
  intros Hl Hstep Hn Ht σ1 σ2 src_call dst_call.
  rewrite (on_message_destination _ _ _ _ _ Hl Hstep Hn Ht). fold σ1 src_call.
  assert (Ho1 : obj σ1 l = set_step None (set_dstRef (Some ref) (obj σ l)))
    by apply obj_update_eq.
  assert (Ho2 : obj σ2 l = set_running true (obj σ1 l)) by apply obj_update_eq.
  split; [reflexivity | ].
  split; [now rewrite Ho1 | ].
  split.
  { intros env e E0. change 2%nat with (S (S O)).
    rewrite run_from_await, E0. cbn [resume]. rewrite run_from_await. cbn [resume].
    rewrite run_from_finish, Ho1. reflexivity. }
  split.
  { intros env src e E0 E1. change 3%nat with (S (S (S O))).
    rewrite run_from_await, E0. cbn [resume]. rewrite Ho1. cbn [dstRef set_step set_dstRef].
    fold dst_call. rewrite run_from_await, E1. cbn [resume].
    rewrite run_from_await. cbn [resume]. rewrite run_from_finish, Ho1. reflexivity. }
  split; [apply view_resetSession | ].
  split.
  { intros env src dst fuel E0 E1. change (2 + fuel)%nat with (S (S fuel)).
    rewrite run_from_await, E0. cbn [resume]. rewrite Ho1. cbn [dstRef set_step set_dstRef].
    fold dst_call. rewrite run_from_await, E1. cbn [resume]. fold σ2.
    rewrite Ho2, Ho1. cbn [startId endId set_running set_step set_dstRef].
    now rewrite and_then_assoc. }
  now rewrite Ho2.
Qed.

(** Chat 1 is asked for the destination and sends "dstchan"; the source is
    found, the destination is not. *)
Lemma target_not_found :
  sessions (mem Scenario.awaiting_destination) !! 1 = Some 0%nat
  /\ step (obj (mem Scenario.awaiting_destination) 0%nat) = Some DST
  /\ normalizeChatRef (lit "dstchan") = Some (RefName (lit "@dstchan"))
  /\ ref_truthy (Some (RefName (lit "@dstchan"))) = true
  /\ run_from 3 Scenario.target_missing 0
       (on_message (mem Scenario.awaiting_destination) 1 (Some (lit "dstchan")))
     = Some (resetSession
               (update 0%nat
                  (fun o => set_step None (set_dstRef (Some (RefName (lit "@dstchan"))) o))
                  (mem Scenario.awaiting_destination)) 1,
             [Call (getChat (Some (RefName (lit "@srcchan"))));
              Call (getChat (Some (RefName (lit "@dstchan"))));
              Call (sendMessage 1 (MsgTargetFailed (Some (RefName (lit "@dstchan")))
                                     Scenario.chat_not_found))]).
Proof.
  repeat (split; [reflexivity | ]).
  destruct (resolution_failure_resets (mem Scenario.awaiting_destination) 1 0%nat
              (lit "dstchan") (RefName (lit "@dstchan"))
              eq_refl eq_refl eq_refl eq_refl)
    as (_ & _ & _ & H & _).
  exact (H Scenario.target_missing (Finite (-1001)) Scenario.chat_not_found eq_refl eq_refl).
Defined.

End Destination.

(* ===================================================================== *)
(** ** Running and collecting *)
(* ===================================================================== *)

Section Exclusion.

Lemma exclusive_empty : Spec.exclusive Store.empty.
Proof. intros l. unfold obj. simpl. rewrite lookup_empty. discriminate. Qed.

Lemma exclusive_resetSession σ c : Spec.exclusive σ -> Spec.exclusive (resetSession σ c).
Proof.
  intros H l. unfold obj, resetSession. simpl.
  destruct (decide (next_loc σ = l)) as [<- | Hne].
  - rewrite lookup_insert_eq. discriminate.
  - rewrite lookup_insert_ne by assumption. apply H.
Qed.

Lemma exclusive_getSession σ c : Spec.exclusive σ -> Spec.exclusive (getSession σ c).1.
Proof.
  intros H. unfold getSession. destruct (sessions σ !! c); simpl;
    [assumption | now apply exclusive_resetSession].
Qed.

Lemma exclusive_update σ l f :
  Spec.exclusive σ ->
  (running (f (obj σ l)) = true -> step (f (obj σ l)) = None) ->
  Spec.exclusive (update l f σ).
Proof.
  intros H Hf l'. destruct (decide (l = l')) as [<- | Hne].
  - now rewrite obj_update_eq.
  - rewrite obj_update_ne by assumption. apply H.
Qed.

Lemma on_forward_exclusive σ c (m1 m2 : jsstring) :
  Spec.exclusive σ -> Spec.exclusive (st (on_forward σ c m1 m2)).
Proof.
  intros H. unfold on_forward.
  pose proof (exclusive_getSession σ c H) as H1.
  destruct (getSession σ c) as [σ1 l]. simpl in H1.
  destruct (running (obj σ1 l)) eqn:Hrun; [exact H1 | ].
  destruct (negb (isInteger (Number m1)) || negb (isInteger (Number m2))); [exact H1 | ].
  destruct (lt (Number m2) (Number m1)); apply exclusive_update; try assumption;
    simpl; rewrite Hrun; discriminate.
Qed.

Lemma on_message_exclusive σ c msg_text :
  Spec.exclusive σ -> Spec.exclusive (st (on_message σ c msg_text)).
Proof.
  intros H. unfold on_message.
  destruct (trim (default [] msg_text)) as [ | a u]; [exact H | ].
  destruct (startsWith ch_slash (a :: u)); [exact H | ].
  destruct (sessions σ !! c) as [l | ]; [ | exact H].
  destruct (step (obj σ l)) as [[ | | ] | ] eqn:Hstep; [ | | | exact H].
  - destruct (negb (ref_truthy (normalizeChatRef (a :: u)))); [exact H | ].
    apply exclusive_update; [assumption | ]. simpl. intros Hrun.
    apply H in Hrun. congruence.
  - destruct (negb (ref_truthy (normalizeChatRef (a :: u)))); [exact H | ].
    now apply exclusive_update.
  - destruct (normalizeChatRef (a :: u)) as [[n | name] | ]; exact H.
Qed.

(** Every handler keeps the exclusion up to its first [await]. *)
Lemma deliver_exclusive σ c msg_text :
  Spec.exclusive σ -> Spec.exclusive (deliver σ c msg_text).1.1.
Proof.
  intros H. unfold deliver.
  assert (Hfold : forall hs acc,
            Forall (fun h => forall σ' r, Spec.exclusive σ' -> h σ' = Some r ->
                                          Spec.exclusive (st r)) hs ->
            Spec.exclusive acc.1.1 -> Spec.exclusive (foldl invoke acc hs).1.1).
  { induction hs as [ | h hs IH]; intros [[σ0 effs] ts] Hall Hacc; [exact Hacc | ].
    inversion Hall as [ | ? ? Hh Hhs]; subst. cbn [foldl]. apply IH; [assumption | ].
    unfold invoke. destruct (h σ0) as [r | ] eqn:E; [ | exact Hacc].
    exact (Hh σ0 r Hacc E). }
  apply Hfold; [ | exact H].
  assert (Hon : forall re (h : store -> Z -> result) (t : jsstring),
            (forall σ', Spec.exclusive σ' -> Spec.exclusive (st (h σ' c))) ->
            forall σ' r, Spec.exclusive σ' -> onText re h c t σ' = Some r ->
                         Spec.exclusive (st r)).
  { intros re h t Hh σ' r Hx. unfold onText. destruct (test re t); [ | discriminate].
    intros [= <-]. now apply Hh. }
  unfold callbacks. constructor.
  - intros σ' r Hx [= <-]. now apply on_message_exclusive.
  - destruct msg_text as [[ | a u] | ]; try constructor.
    + apply Hon. intros σ' Hx. exact Hx.
    + constructor; [apply Hon; intros σ' Hx; now apply exclusive_resetSession | ].
      constructor; [apply Hon; intros σ' Hx; exact Hx | ].
      constructor; [apply Hon; intros σ' Hx; exact Hx | ].
      constructor; [ | constructor].
      intros σ' r Hx. destruct (exec_forward (a :: u)) as [[m1 m2] | ]; [ | discriminate].
      intros [= <-]. now apply on_forward_exclusive.
Qed.

(** A handler that goes on keeps the exclusion as well, except where the
    destination step sets [running]: there it holds afterwards only if the
    step is still clear. *)
Lemma resume_exclusive σ k r :
  Spec.exclusive σ ->
  (forall c l src v, k = K_dst_resolving c l src -> r = Fulfilled v ->
                     step (obj σ l) = None) ->
  Spec.exclusive (st (resume σ k r)).
Proof.
  intros H Hdst.
  destruct k as [ | c | c ref | c ref in_try | c l | c l src | c l src dst
                | fr | fr | fr | fr | c ].
  - exact H.
  - destruct r as [v | e]; [ | exact H]. cbn [resume].
    pose proof (exclusive_getSession σ c H) as H1.
    destruct (getSession σ c) as [σ1 l]. simpl in H1.
    destruct (running (obj σ1 l)) eqn:Hrun; [exact H1 | ].
    apply exclusive_update; [assumption | ]. simpl. rewrite Hrun. discriminate.
  - destruct r; exact H.
  - destruct in_try, r as [v | e]; cbn [resume st finish await];
      try exact H; now apply exclusive_resetSession.
  - destruct r as [v | e]; cbn [resume st await];
      [exact H | now apply exclusive_resetSession].
  - destruct r as [v | e]; cbn [resume st await];
      [ | now apply exclusive_resetSession].
    apply exclusive_update; [assumption | ].
    intros _. simpl. exact (Hdst c l src v eq_refl eq_refl).
  - destruct r as [v | e]; [ | exact H]. cbn [resume]. unfold loop_enter.
    destruct (startId (obj σ l)); [ | exact H].
    unfold loop_test. destruct (loop_condition σ _); exact H.
  - destruct r as [v | e]; [exact H | ]. cbn [resume].
    destruct (flood_control e); exact H.
  - assert (E : resume σ (K_pacing fr) r = loop_test σ (at_mid (succ (mid fr)) fr))
      by now destruct r.
    rewrite E. unfold loop_test. destruct (loop_condition σ _); exact H.
  - destruct r; exact H.
  - destruct r; exact H.
  - destruct r as [v | e]; cbn [resume st finish];
      [now apply exclusive_resetSession | exact H].
Qed.

(** C9 does not hold of the code: a reachable session is running with a
    collecting step.  The handler of the destination step sets [running]
    after two [await]s without looking at the step again.  A /forward of the
    same chat that comes in while [getChat] for the destination is pending
    is accepted, since [running] is still false, and sets the step to SRC
    and the range to 1..2 on the same object; when [getChat] then succeeds,
    that session is set running. *)
Theorem running_with_collecting_step :
  sys_run boot Scenario.race = Some Scenario.raced
  /\ running (view (mem Scenario.raced) 1) = true
  /\ step (view (mem Scenario.raced) 1) = Some SRC
  /\ startId (view (mem Scenario.raced) 1) = Some (Finite 1)
  /\ endId (view (mem Scenario.raced) 1) = Some (Finite 2).
Proof. repeat split; vm_compute; reflexivity. Qed.

End Exclusion.

(* ===================================================================== *)
(** ** The scanner of /forward against its pattern *)
(* ===================================================================== *)

Section Scanner.

Ltac classes :=
  unfold is_space, is_word, is_digit, in_range, ch_at, ch_minus, ch_underscore in *;
  repeat rewrite ?orb_true_iff, ?andb_true_iff, ?N.leb_le, ?N.eqb_eq in *; lia.

Lemma space_not_word c : is_space c = true -> is_word c = false.
Proof. intros H. destruct (is_word c) eqn:E; [exfalso; classes | reflexivity]. Qed.

Lemma space_not_digit c : is_space c = true -> is_digit c = false.
Proof. intros H. destruct (is_digit c) eqn:E; [exfalso; classes | reflexivity]. Qed.

Lemma space_not_at c : is_space c = true -> (c =? ch_at)%N = false.
Proof. intros H. destruct (c =? ch_at)%N eqn:E; [exfalso; classes | reflexivity]. Qed.

Lemma space_not_minus c : is_space c = true -> (c =? ch_minus)%N = false.
Proof. intros H. destruct (c =? ch_minus)%N eqn:E; [exfalso; classes | reflexivity]. Qed.

Lemma digit_not_minus c : is_digit c = true -> (c =? ch_minus)%N = false.
Proof. intros H. destruct (c =? ch_minus)%N eqn:E; [exfalso; classes | reflexivity]. Qed.

(** [p*] and [p+] for a class [p]. *)
Lemma star_cls p (t : jsstring) : Matches (Star (Cls p)) t <-> forallb p t = true.
Proof.
  split.
  - induction t as [ | c t IH]; [reflexivity | ]. intros H.
    apply star_cons_inv in H as (s1 & s2 & -> & H1 & H2).
    apply cls_inv in H1 as (a & [= -> ->] & Ha). simpl in *. rewrite Ha. now apply IH.
  - induction t as [ | c t IH]; simpl; [constructor | ].
    intros H. apply andb_true_iff in H as [Hc Ht].
    exact (M_star_cons _ [c] t (M_cls _ _ Hc) (IH Ht)).
Qed.

Lemma plus_cls p (t : jsstring) :
  Matches (Plus (Cls p)) t <-> t ≠ [] /\ forallb p t = true.
Proof.
  split.
  - intros H. apply cat_inv in H as (s1 & s2 & -> & H1 & H2).
    apply cls_inv in H1 as (a & -> & Ha). apply star_cls in H2.
    split; [discriminate | ]. simpl. now rewrite Ha.
  - intros [Hne H]. destruct t as [ | c t]; [contradiction | ].
    simpl in H. apply andb_true_iff in H as [Hc Ht].
    exact (M_cat _ _ [c] t (M_cls _ _ Hc) (proj2 (star_cls p t) Ht)).
Qed.

(** [-?\d+]: digits, possibly after a minus sign. *)
Lemma numeric_spec (t : jsstring) :
  Matches re_numeric t <->
  exists ds, ds ≠ [] /\ forallb is_digit ds = true /\ (t = ds \/ t = ch_minus :: ds).
Proof.
  split.
  - intros H. apply cat_inv in H as (s1 & s2 & -> & H1 & H2).
    apply plus_cls in H2 as [Hne Hds]. exists s2. split; [assumption | split; [assumption | ] ].
    apply alt_inv in H1 as [H1 | H1].
    + apply cls_inv in H1 as (a & -> & Ha). apply N.eqb_eq in Ha as <-. now right.
    + apply eps_inv in H1 as ->. now left.
  - intros (ds & Hne & Hds & [-> | ->]).
    + apply (M_cat _ _ [] ds); [apply M_alt_r; constructor | now apply plus_cls].
    + apply (M_cat _ _ [ch_minus] ds); [ | now apply plus_cls].
      apply M_alt_l. constructor. apply N.eqb_refl.
Qed.

(** [(?:@\w+)?]: nothing, or "@" and a name. *)
Lemma mention_spec (t : jsstring) :
  Matches re_mention t <->
  t = [] \/ exists w, w ≠ [] /\ forallb is_word w = true /\ t = ch_at :: w.
Proof.
  split.
  - intros H. apply alt_inv in H as [H | H].
    + right. apply cat_inv in H as (s1 & s2 & -> & H1 & H2).
      apply cls_inv in H1 as (a & -> & Ha). apply N.eqb_eq in Ha as <-.
      apply plus_cls in H2 as [Hne Hw]. now exists s2.
    + left. now apply eps_inv.
  - intros [-> | (w & Hne & Hw & ->)].
    + apply M_alt_r. constructor.
    + apply M_alt_l. apply (M_cat _ _ [ch_at] w); [ | now apply plus_cls].
      constructor. apply N.eqb_refl.
Qed.

(** [{5,}] *)
Lemma username_spec (t : jsstring) :
  Matches re_username t <-> (5 <= length t)%nat /\ forallb is_word t = true.
Proof.
  unfold re_username. split.
  - intros H.
    do 5 (apply cat_inv in H as (? & ? & -> & Hc & H);
          apply cls_inv in Hc as (? & -> & ?)).
    apply star_cls in H. simpl. split; [lia | ].
    repeat (apply andb_true_iff; split; [assumption | ]). assumption.
  - intros [Hlen H].
    do 5 (destruct t as [ | ? t]; [simpl in Hlen; lia | ]).
    simpl in H. repeat (apply andb_true_iff in H as [? H]).
    cbn [AtLeast].
    repeat (match goal with
            | |- Matches (Cat (Cls _) _) (?c :: ?u) =>
                apply (M_cat _ _ [c] u); [now constructor | ]
            end).
    now apply star_cls.
Qed.

Lemma span_app p (a b : jsstring) :
  forallb p a = true -> stops p b -> span p (a ++ b) = (a, b).
Proof.
  intros Ha Hb. induction a as [ | c a IH]; simpl in *.
  - destruct b as [ | c b]; [reflexivity | ]. simpl in *. now rewrite Hb.
  - apply andb_true_iff in Ha as [Hc Ha]. now rewrite Hc, (IH Ha).
Qed.

Lemma span_inv p (t a b : jsstring) :
  span p t = (a, b) -> t = a ++ b /\ forallb p a = true /\ stops p b.
Proof.
  revert a b. induction t as [ | c t IH]; simpl; intros a b H.
  - injection H as <- <-. now repeat split.
  - destruct (p c) eqn:Hc.
    + destruct (span p t) as [a' b'] eqn:E. injection H as <- <-.
      destruct (IH a' b' eq_refl) as (-> & Ha & Hb).
      simpl. rewrite Hc. now repeat split.
    + injection H as <- <-. now repeat split.
Qed.

Lemma strip_prefix_app (p r : jsstring) : strip_prefix p (p ++ r) = Some r.
Proof.
  induction p as [ | a p IH]; simpl; [reflexivity | ]. now rewrite N.eqb_refl.
Qed.

(** A text that begins with white space. *)
Lemma spaces1_app_head (w r : jsstring) :
  Matches re_spaces1 w -> exists c u, w ++ r = c :: u /\ is_space c = true.
Proof.
  intros H. apply plus_cls in H as [Hne Hw].
  destruct w as [ | c w]; [contradiction | ].
  simpl in Hw. apply andb_true_iff in Hw as [Hc _]. now exists c, (w ++ r).
Qed.

Lemma numeric_app_stops (m r : jsstring) :
  Matches re_numeric m -> stops is_space (m ++ r).
Proof.
  intros H. apply numeric_spec in H as (ds & Hne & Hds & [-> | ->]).
  - destruct ds as [ | d ds]; [contradiction | ]. simpl in *.
    apply andb_true_iff in Hds as [Hd _].
    destruct (is_space d) eqn:E; [ | reflexivity].
    apply space_not_digit in E. congruence.
  - simpl. reflexivity.
Qed.

Lemma skip_mention_inv (t r : jsstring) :
  skip_mention t = Some r -> exists m, t = m ++ r /\ Matches re_mention m.
Proof.
  unfold skip_mention. destruct t as [ | c t]; simpl.
  - intros [= <-]. exists []. split; [reflexivity | apply mention_spec; now left].
  - destruct (N.eqb_spec c ch_at) as [-> | Hc].
    + destruct (span is_word t) as [w rest] eqn:E.
      apply span_inv in E as (-> & Hw & _).
      destruct w as [ | a w]; [intros [=] | ]. intros [= <-].
      exists (ch_at :: a :: w). split; [reflexivity | ].
      apply mention_spec. right. now exists (a :: w).
    + intros [= <-]. exists []. split; [reflexivity | apply mention_spec; now left].
Qed.

Lemma skip_mention_app (m r : jsstring) c u :
  Matches re_mention m -> r = c :: u -> is_space c = true ->
  skip_mention (m ++ r) = Some r.
Proof.
  intros Hm -> Hc. apply mention_spec in Hm as [-> | (w & Hne & Hw & ->)].
  - unfold skip_mention. cbn [startsWith app]. now rewrite (space_not_at _ Hc).
  - unfold skip_mention. cbn [startsWith app slice1]. rewrite N.eqb_refl.
    rewrite (span_app is_word w (c :: u) Hw) by (simpl; now apply space_not_word).
    destruct w; [contradiction | reflexivity].
Qed.

Lemma skip_spaces1_inv (t r : jsstring) :
  skip_spaces1 t = Some r -> exists w, t = w ++ r /\ Matches re_spaces1 w.
Proof.
  unfold skip_spaces1. destruct (span is_space t) as [w rest] eqn:E.
  apply span_inv in E as (-> & Hw & _).
  destruct w as [ | a w]; [intros [=] | ]. intros [= <-].
  exists (a :: w). split; [reflexivity | ]. apply plus_cls. now split.
Qed.

Lemma skip_spaces1_app (w r : jsstring) :
  Matches re_spaces1 w -> stops is_space r -> skip_spaces1 (w ++ r) = Some r.
Proof.
  intros Hw Hr. apply plus_cls in Hw as [Hne Hw].
  unfold skip_spaces1. rewrite (span_app _ _ _ Hw Hr).
  destruct w; [contradiction | reflexivity].
Qed.

Lemma take_int_inv (t m r : jsstring) :
  take_int t = Some (m, r) -> t = m ++ r /\ Matches re_numeric m.
Proof.
  unfold take_int. destruct t as [ | c t]; simpl; [intros [=] | ].
  destruct (N.eqb_spec c ch_minus) as [-> | Hc].
  - destruct (span is_digit t) as [ds rest] eqn:E.
    apply span_inv in E as (-> & Hds & _).
    destruct ds as [ | d ds]; [intros [=] | ]. intros [= <- <-].
    split; [reflexivity | ]. apply numeric_spec. exists (d :: ds). now repeat split; auto.
  - destruct (span is_digit (c :: t)) as [ds rest] eqn:E.
    apply span_inv in E as (Heq & Hds & _).
    destruct ds as [ | d ds]; [intros [=] | ]. intros [= <- <-].
    split; [exact Heq | ]. apply numeric_spec. exists (d :: ds). now repeat split; auto.
Qed.

Lemma take_int_app (m r : jsstring) :
  Matches re_numeric m -> stops is_digit r -> take_int (m ++ r) = Some (m, r).
Proof.
  intros Hm Hr. apply numeric_spec in Hm as (ds & Hne & Hds & [-> | ->]).
  - destruct ds as [ | d ds]; [contradiction | ].
    assert (Hd : is_digit d = true) by (simpl in Hds; now apply andb_true_iff in Hds as [? _]).
    unfold take_int. cbn [startsWith app]. rewrite (digit_not_minus _ Hd).
    change (d :: ds ++ r) with ((d :: ds) ++ r).
    now rewrite (span_app is_digit (d :: ds) r Hds Hr).
  - unfold take_int. cbn [startsWith app slice1]. rewrite N.eqb_refl.
    rewrite (span_app is_digit ds r Hds Hr).
    destruct ds; [contradiction | reflexivity].
Qed.

Lemma stops_digit_of_space (t : jsstring) c u :
  t = c :: u -> is_space c = true -> stops is_digit t.
Proof. intros -> Hc. simpl. now apply space_not_digit. Qed.

(** The scanner yields two groups exactly for the texts the pattern
    describes, and the groups are those of the pattern. *)
Theorem exec_forward_spec (text m1 m2 : jsstring) :
  exec_forward text = Some (m1, m2) <-> forward_shape text m1 m2.
Proof.
  split.
  - unfold exec_forward. intros H.
    destruct (strip_prefix (lit "/forward") text) as [t0 | ] eqn:E0; [ | discriminate].
    apply strip_prefix_inv in E0 as ->. cbn [mbind option_bind] in H.
    destruct (skip_mention t0) as [t1 | ] eqn:E1; [ | discriminate].
    apply skip_mention_inv in E1 as (mention & -> & Hmention). cbn [mbind option_bind] in H.
    destruct (skip_spaces1 t1) as [t2 | ] eqn:E2; [ | discriminate].
    apply skip_spaces1_inv in E2 as (w1 & -> & Hw1). cbn [mbind option_bind] in H.
    destruct (take_int t2) as [[a t3] | ] eqn:E3; [ | discriminate].
    apply take_int_inv in E3 as (-> & Ha). cbn [mbind option_bind] in H.
    destruct (skip_spaces1 t3) as [t4 | ] eqn:E4; [ | discriminate].
    apply skip_spaces1_inv in E4 as (w2 & -> & Hw2). cbn [mbind option_bind] in H.
    destruct (take_int t4) as [[b t5] | ] eqn:E5; [ | discriminate].
    apply take_int_inv in E5 as (-> & Hb). cbn [mbind option_bind] in H.
    destruct (span is_space t5) as [w3 rest] eqn:E6.
    apply span_inv in E6 as (-> & Hw3 & _).
    destruct rest; [ | discriminate]. injection H as <- <-.
    exists mention, w1, w2, w3. rewrite app_nil_r.
    repeat split; try assumption. now apply star_cls.
  - intros (mention & w1 & w2 & w3 & -> & Hmention & Hw1 & Ha & Hw2 & Hb & Hw3).
    apply star_cls in Hw3.
    destruct (spaces1_app_head w1 (m1 ++ w2 ++ m2 ++ w3) Hw1) as (c1 & u1 & E1 & Hc1).
    destruct (spaces1_app_head w2 (m2 ++ w3) Hw2) as (c2 & u2 & E2 & Hc2).
    assert (Hstop3 : stops is_digit w3).
    { destruct w3 as [ | c w3]; [exact I | ]. simpl in *.
      apply andb_true_iff in Hw3 as [Hc _]. now apply space_not_digit. }
    unfold exec_forward. rewrite strip_prefix_app. cbn [mbind option_bind].
    rewrite (skip_mention_app _ _ _ _ Hmention E1 Hc1). cbn [mbind option_bind].
    rewrite (skip_spaces1_app _ _ Hw1 (numeric_app_stops _ _ Ha)). cbn [mbind option_bind].
    rewrite (take_int_app _ _ Ha (stops_digit_of_space _ _ _ E2 Hc2)).
    cbn [mbind option_bind].
    rewrite (skip_spaces1_app _ _ Hw2 (numeric_app_stops _ _ Hb)). cbn [mbind option_bind].
    rewrite (take_int_app _ _ Hb Hstop3). cbn [mbind option_bind].
    rewrite <- (app_nil_r w3) at 1. now rewrite (span_app is_space w3 [] Hw3 I).
Qed.

Lemma str_self (p : jsstring) : Matches (Str p) p.
Proof.
  induction p as [ | a p IH]; simpl; [constructor | ].
  apply (M_cat _ _ [a] p); [ | exact IH]. constructor. apply N.eqb_refl.
Qed.

(** The texts with that shape are the language of the pattern of the
    source. *)
Theorem re_forward_shape (text : jsstring) :
  test re_forward text = true <-> exists m1 m2, forward_shape text m1 m2.
Proof.
  rewrite test_spec. unfold re_forward. split.
  - intros H. apply str_prefix_inv in H as (u & -> & H).
    apply cat_inv in H as (mention & u1 & -> & Hmention & H).
    apply cat_inv in H as (w1 & u2 & -> & Hw1 & H).
    apply cat_inv in H as (m1 & u3 & -> & Hm1 & H).
    apply cat_inv in H as (w2 & u4 & -> & Hw2 & H).
    apply cat_inv in H as (m2 & w3 & -> & Hm2 & Hw3).
    exists m1, m2, mention, w1, w2, w3. now repeat split.
  - intros (m1 & m2 & mention & w1 & w2 & w3 & -> & Hmention & Hw1 & Hm1 & Hw2 & Hm2 & Hw3).
    apply M_cat; [apply str_self | ].
    repeat (apply M_cat; [assumption | ]). assumption.
Qed.

(** [exec_forward] succeeds exactly on the texts the pattern matches. *)
Corollary exec_forward_matches (text : jsstring) :
  is_Some (exec_forward text) <-> test re_forward text = true.
Proof.
  rewrite re_forward_shape. split.
  - intros [[m1 m2] H]. exists m1, m2. now apply exec_forward_spec.
  - intros (m1 & m2 & H). exists (m1, m2). now apply exec_forward_spec.
Qed.

End Scanner.

(* ===================================================================== *)
(** ** Numerals and the Numbers they convert to *)
(* ===================================================================== *)

Section Numerals.

Lemma digit_value_range c : is_digit c = true -> 0 <= digit_value c <= 9.
Proof.
  unfold is_digit, in_range, digit_value. intros H.
  apply andb_true_iff in H as [H1 H2]. apply N.leb_le in H1, H2. lia.
Qed.

Lemma decimal_from (ds : jsstring) acc :
  fold_left (fun a c => 10 * a + digit_value c) ds acc
  = acc * 10 ^ Z.of_nat (length ds) + decimal ds.
Proof.
  revert acc. induction ds as [ | d ds IH]; intros acc.
  - simpl. unfold decimal. simpl. lia.
  - unfold decimal. cbn [fold_left length]. rewrite (IH (10 * acc + digit_value d)).
    rewrite (IH (10 * 0 + digit_value d)).
    rewrite Nat2Z.inj_succ, Z.pow_succ_r by lia. ring.
Qed.

Lemma decimal_cons d (ds : jsstring) :
  decimal (d :: ds) = digit_value d * 10 ^ Z.of_nat (length ds) + decimal ds.
Proof.
  unfold decimal at 1. cbn [fold_left]. rewrite decimal_from. ring.
Qed.

(** A run of [n] digits denotes a value below [10^n]. *)
Lemma decimal_bound (ds : jsstring) :
  forallb is_digit ds = true -> 0 <= decimal ds < 10 ^ Z.of_nat (length ds).
Proof.
  induction ds as [ | d ds IH]; intros H.
  - unfold decimal. simpl. lia.
  - simpl in H. apply andb_true_iff in H as [Hd Hds].
    apply digit_value_range in Hd. specialize (IH Hds).
    rewrite decimal_cons. cbn [length]. rewrite Nat2Z.inj_succ, Z.pow_succ_r by lia.
    assert (0 < 10 ^ Z.of_nat (length ds)) by (apply Z.pow_pos_nonneg; lia). nia.
Qed.

Lemma signed_decimal_bound (raw : jsstring) :
  Matches re_numeric raw ->
  Z.abs (signed_decimal raw) < 10 ^ Z.of_nat (length raw).
Proof.
  intros H. apply numeric_spec in H as (ds & Hne & Hds & [-> | ->]).
  - destruct ds as [ | d ds]; [contradiction | ].
    assert (Hd : is_digit d = true) by (simpl in Hds; now apply andb_true_iff in Hds as [? _]).
    unfold signed_decimal. rewrite (digit_not_minus _ Hd).
    pose proof (decimal_bound _ Hds). lia.
  - unfold signed_decimal. rewrite N.eqb_refl.
    pose proof (decimal_bound _ Hds) as Hb. cbn [length].
    rewrite Nat2Z.inj_succ, Z.pow_succ_r by lia.
    assert (0 < 10 ^ Z.of_nat (length ds)) by (apply Z.pow_pos_nonneg; lia). lia.
Qed.

(** Rounding to 53 bits stays within the next power of two. *)
Lemma round53_le m : 0 < m -> round53 m <= 2 ^ (Z.log2 m + 1).
Proof.
  intros Hm. unfold round53.
  pose proof (Z.log2_spec m Hm) as [_ Hhi]. rewrite <- Z.add_1_r in Hhi.
  pose proof (Z.log2_nonneg m) as Hlog.
  destruct (Z.leb_spec (Z.log2 m + 1) 53) as [Hsmall | Hbig]; [lia | ].
  set (sh := Z.log2 m + 1 - 53) in *.
  assert (Hsh : 0 < sh) by (unfold sh; lia).
  assert (Hpow : 2 ^ (Z.log2 m + 1) = 2 ^ 53 * 2 ^ sh).
  { rewrite <- Z.pow_add_r by lia. f_equal. unfold sh. lia. }
  assert (Hpos : 0 < 2 ^ sh) by (apply Z.pow_pos_nonneg; lia).
  rewrite Z.shiftl_mul_pow2, Z.shiftr_div_pow2 by lia.
  assert (Hq : m / 2 ^ sh < 2 ^ 53).
  { apply Z.div_lt_upper_bound; [assumption | ]. rewrite Z.mul_comm. now rewrite <- Hpow. }
  rewrite Hpow.
  destruct ((_ <? _) || _); nia.
Qed.

(** Below [2^1023] no integer overflows. *)
Lemma to_double_finite z : Z.abs z < 2 ^ 1023 -> isInteger (to_double z) = true.
Proof.
  intros Hz. unfold to_double.
  assert (Hr : round53 (Z.abs z) < 2 ^ 1024).
  { destruct (Z.eq_dec (Z.abs z) 0) as [-> | Hne]; [reflexivity | ].
    assert (Hpos : 0 < Z.abs z) by lia.
    pose proof (round53_le _ Hpos) as Hle.
    assert (Hlog : Z.log2 (Z.abs z) < 1023) by (apply Z.log2_lt_pow2; lia).
    assert (2 ^ (Z.log2 (Z.abs z) + 1) <= 2 ^ 1023)
      by (apply Z.pow_le_mono_r; lia).
    assert (2 ^ 1023 < 2 ^ 1024) by reflexivity. lia. }
  apply Z.leb_gt in Hr. now rewrite Hr.
Qed.

Lemma pow10_mono (n k : nat) : (n <= k)%nat -> 10 ^ Z.of_nat n <= 10 ^ Z.of_nat k.
Proof. intros H. apply Z.pow_le_mono_r; lia. Qed.

(** A numeral of at most 15 characters converts to the integer it
    denotes. *)
Lemma Number_short (raw : jsstring) :
  Matches re_numeric raw -> (length raw <= 15)%nat ->
  Number raw = Finite (signed_decimal raw).
Proof.
  intros Hm Hlen. unfold Number. apply to_double_exact.
  pose proof (signed_decimal_bound _ Hm) as Hb.
  pose proof (pow10_mono _ _ Hlen) as Hp.
  assert (10 ^ Z.of_nat 15 < max_exact) by reflexivity. lia.
Qed.

(** A numeral of at most 307 characters converts to an integer. *)
Lemma Number_integer (raw : jsstring) :
  Matches re_numeric raw -> (length raw <= 307)%nat ->
  exists z, Number raw = Finite z.
Proof.
  intros Hm Hlen.
  assert (Hint : isInteger (Number raw) = true).
  { unfold Number. apply to_double_finite.
    pose proof (signed_decimal_bound _ Hm) as Hb.
    pose proof (pow10_mono _ _ Hlen) as Hp.
    assert (10 ^ Z.of_nat 307 < 2 ^ 1023) by (vm_compute; reflexivity). lia. }
  destruct (Number raw) as [z | neg]; [now exists z | discriminate].
Qed.

(** X1: a numeric text of at most 15 characters (after trimming) is
    normalized to exactly the integer it denotes: no rounding happens for
    chat ids of that size. *)
Theorem normalize_short_numeral_exact (input : jsstring) :
  test re_numeric (trim input) = true ->
  (length (trim input) <= 15)%nat ->
  normalizeChatRef input = Some (RefNum (Finite (signed_decimal (trim input)))).
Proof.
  intros Hm Hlen. apply test_spec in Hm.
  rewrite (normalizeChatRef_numeric _ Hm). now rewrite (Number_short _ Hm Hlen).
Qed.

Lemma normalize_short_numeral_exact_witness :
  test re_numeric (trim (lit " -1001234567890 ")) = true
  /\ (length (trim (lit " -1001234567890 ")) <= 15)%nat
  /\ normalizeChatRef (lit " -1001234567890 ") = Some (RefNum (Finite (-1001234567890))).
Proof.
  split; [reflexivity | ]. split; [vm_compute; lia | ].
  apply (normalize_short_numeral_exact (lit " -1001234567890 ")).
  - reflexivity.
  - vm_compute. lia.
Defined.

(** What /forward does once both values are integers. *)
Lemma on_forward_accepted σ c (m1 m2 : jsstring) a b :
  running (view σ c) = false ->
  Number m1 = Finite a ->
  Number m2 = Finite b ->
  exists σ',
    on_forward σ c m1 m2
    = await σ' [] (sendMessage c (MsgRangeSet (Finite (Z.min a b)) (Finite (Z.max a b)))) K_end
    /\ view σ' c
       = {| step := Some SRC; running := false;
            startId := Some (Finite (Z.min a b)); endId := Some (Finite (Z.max a b));
            srcRef := None; dstRef := None |}.
Proof.
  intros Hrun Ha Hb. unfold on_forward.
  pose proof (getSession_lookup σ c) as Hl. pose proof (getSession_obj σ c) as Ho.
  destruct (getSession σ c) as [σ1 l]. simpl in Hl, Ho.
  rewrite Ho, Hrun, Ha, Hb. cbn [isInteger negb orb lt].
  destruct (Z.ltb_spec b a) as [Hlt | Hge].
  - rewrite (Z.min_r a b), (Z.max_l a b) by lia.
    eexists. split; [reflexivity | ].
    rewrite (view_update _ _ _ _ Hl), Ho. unfold set_step. simpl. now rewrite Hrun.
  - rewrite (Z.min_l a b), (Z.max_r a b) by lia.
    eexists. split; [reflexivity | ].
    rewrite (view_update _ _ _ _ Hl), Ho. unfold set_step. simpl. now rewrite Hrun.
Qed.

Lemma exec_forward_numeric (text m1 m2 : jsstring) :
  exec_forward text = Some (m1, m2) -> Matches re_numeric m1 /\ Matches re_numeric m2.
Proof.
  intros H. apply exec_forward_spec in H as (? & ? & ? & ? & _ & _ & _ & H1 & _ & H2 & _).
  now split.
Qed.

(** X2: a /forward whose two numerals have at most 15 characters each, in a
    chat that is not running, stores exactly the integers they denote, the
    smaller one as [startId] and the larger one as [endId]. *)
Theorem forward_short_numerals_exact σ c (text m1 m2 : jsstring) :
  exec_forward text = Some (m1, m2) ->
  (length m1 <= 15)%nat ->
  (length m2 <= 15)%nat ->
  running (view σ c) = false ->
  exists σ' t,
    deliver σ c (Some text) = (σ', [Call (awaiting t)], [t])
    /\ awaiting t
       = sendMessage c (MsgRangeSet
                          (Finite (Z.min (signed_decimal m1) (signed_decimal m2)))
                          (Finite (Z.max (signed_decimal m1) (signed_decimal m2))))
    /\ startId (view σ' c) = Some (Finite (Z.min (signed_decimal m1) (signed_decimal m2)))
    /\ endId (view σ' c) = Some (Finite (Z.max (signed_decimal m1) (signed_decimal m2)))
    /\ step (view σ' c) = Some SRC.
Proof.
  intros Hm H1 H2 Hrun. destruct (exec_forward_numeric _ _ _ Hm) as [Hn1 Hn2].
  destruct (on_forward_accepted σ c m1 m2 _ _ Hrun
              (Number_short _ Hn1 H1) (Number_short _ Hn2 H2)) as (σ' & Hon & Hview).
  rewrite (deliver_forward _ _ _ _ _ Hm), Hon.
  exists σ', {| awaiting := sendMessage c (MsgRangeSet
                              (Finite (Z.min (signed_decimal m1) (signed_decimal m2)))
                              (Finite (Z.max (signed_decimal m1) (signed_decimal m2))));
                cont := K_end |}.
  split; [reflexivity | ]. rewrite Hview. now repeat split.
Qed.

Lemma forward_short_numerals_exact_witness :
  exec_forward (lit "/forward@forw_bot  -3   12 ") = Some (lit "-3", lit "12")
  /\ exists σ' t,
       deliver Store.empty 7 (Some (lit "/forward@forw_bot  -3   12 "))
       = (σ', [Call (awaiting t)], [t])
       /\ awaiting t = sendMessage 7 (MsgRangeSet (Finite (-3)) (Finite 12))
       /\ startId (view σ' 7) = Some (Finite (-3))
       /\ endId (view σ' 7) = Some (Finite 12)
       /\ step (view σ' 7) = Some SRC.
Proof.
  split; [reflexivity | ].
  apply (forward_short_numerals_exact Store.empty 7 (lit "/forward@forw_bot  -3   12 ")
           (lit "-3") (lit "12")).
  - reflexivity.
  - simpl. lia.
  - simpl. lia.
  - reflexivity.
Defined.

(** X3: the check for integers cannot fail on numerals of at most 307
    characters: a /forward with such values, in a chat that is not running,
    is never answered with the format error; the range is set. *)
Theorem forward_numerals_accepted σ c (text m1 m2 : jsstring) :
  exec_forward text = Some (m1, m2) ->
  (length m1 <= 307)%nat ->
  (length m2 <= 307)%nat ->
  running (view σ c) = false ->
  exists a b σ' t,
    Number m1 = Finite a /\ Number m2 = Finite b
    /\ deliver σ c (Some text) = (σ', [Call (awaiting t)], [t])
    /\ awaiting t = sendMessage c (MsgRangeSet (Finite (Z.min a b)) (Finite (Z.max a b)))
    /\ step (view σ' c) = Some SRC.
Proof.
  intros Hm H1 H2 Hrun. destruct (exec_forward_numeric _ _ _ Hm) as [Hn1 Hn2].
  destruct (Number_integer _ Hn1 H1) as [a Ha].
  destruct (Number_integer _ Hn2 H2) as [b Hb].
  destruct (on_forward_accepted σ c m1 m2 a b Hrun Ha Hb) as (σ' & Hon & Hview).
  rewrite (deliver_forward _ _ _ _ _ Hm), Hon.
  exists a, b, σ',
    {| awaiting := sendMessage c (MsgRangeSet (Finite (Z.min a b)) (Finite (Z.max a b)));
       cont := K_end |}.
  repeat split; try assumption; try reflexivity.
  now rewrite Hview.
Qed.

Lemma forward_numerals_accepted_witness :
  exists a b σ' t,
    Number (lit "99999999999999999999") = Finite a /\ Number (lit "1") = Finite b
    /\ deliver Store.empty 7 (Some (lit "/forward 99999999999999999999 1"))
       = (σ', [Call (awaiting t)], [t])
    /\ awaiting t = sendMessage 7 (MsgRangeSet (Finite (Z.min a b)) (Finite (Z.max a b)))
    /\ step (view σ' 7) = Some SRC.
Proof.
  apply (forward_numerals_accepted Store.empty 7
           (lit "/forward 99999999999999999999 1") (lit "99999999999999999999") (lit "1")).
  - reflexivity.
  - simpl. lia.
  - simpl. lia.
  - reflexivity.
Defined.

End Numerals.

(* ===================================================================== *)
(** ** More on the normalizer *)
(* ===================================================================== *)

Section Canonical.

Lemma word_not_space c : is_word c = true -> is_space c = false.
Proof.
  intros H. destruct (is_space c) eqn:E; [ | reflexivity].
  apply space_not_word in E. congruence.
Qed.

Lemma forallb_rev_true {A} (p : A -> bool) (u : list A) :
  forallb p u = true -> forallb p (rev u) = true.
Proof.
  induction u as [ | a u IH]; simpl; [reflexivity | ].
  intros H. apply andb_true_iff in H as [Ha Hu].
  rewrite forallb_app, (IH Hu). simpl. now rewrite Ha.
Qed.

Lemma drop_space_clean (u : jsstring) :
  forallb (fun c => negb (is_space c)) u = true -> drop_space u = u.
Proof.
  destruct u as [ | c u]; [reflexivity | ]. simpl. intros H.
  apply andb_true_iff in H as [Hc _]. now destruct (is_space c).
Qed.

(** A text without white space is its own trimmed form. *)
Lemma trim_clean (u : jsstring) :
  forallb (fun c => negb (is_space c)) u = true -> trim u = u.
Proof.
  intros H. unfold trim. rewrite (drop_space_clean u H).
  rewrite (drop_space_clean (rev u)) by now apply forallb_rev_true.
  apply rev_involutive.
Qed.

Lemma words_clean (u : jsstring) :
  forallb is_word u = true -> forallb (fun c => negb (is_space c)) u = true.
Proof.
  induction u as [ | c u IH]; simpl; [reflexivity | ].
  intros H. apply andb_true_iff in H as [Hc Hu].
  now rewrite (word_not_space _ Hc), (IH Hu).
Qed.

(** X4: a handle the normalizer returns is in canonical form: "@" and at
    least five characters of [[A-Za-z0-9_]]; normalizing it again returns
    it unchanged. *)
Theorem normalize_handle_canonical (input u : jsstring) :
  normalizeChatRef input = Some (RefName u) ->
  exists name,
    u = ch_at :: name
    /\ (5 <= length name)%nat
    /\ forallb is_word name = true
    /\ normalizeChatRef u = Some (RefName u).
Proof.
  unfold normalizeChatRef at 1. destruct (trim input) as [ | c raw]; [discriminate | ].
  destruct (test re_numeric (c :: raw)); [discriminate | ].
  destruct (test re_username (strip_at (c :: raw))) eqn:Hu; [ | discriminate].
  intros [= <-]. set (name := strip_at (c :: raw)) in *.
  apply test_spec in Hu. pose proof Hu as Hname. apply username_spec in Hname as [Hlen Hw].
  exists name. repeat split; try assumption.
  assert (Htrim : trim (ch_at :: name) = ch_at :: name).
  { apply trim_clean. simpl. now apply words_clean. }
  unfold normalizeChatRef. rewrite Htrim.
  assert (Hnum : test re_numeric (ch_at :: name) = false).
  { apply test_false. intros H. apply numeric_head in H as [H | H]; discriminate. }
  rewrite Hnum. change (strip_at (ch_at :: name)) with name.
  apply test_spec in Hu. now rewrite Hu.
Qed.

Lemma normalize_handle_canonical_witness :
  normalizeChatRef (lit "  himeoncebot ") = Some (RefName (lit "@himeoncebot"))
  /\ exists name,
       lit "@himeoncebot" = ch_at :: name
       /\ (5 <= length name)%nat
       /\ forallb is_word name = true
       /\ normalizeChatRef (lit "@himeoncebot") = Some (RefName (lit "@himeoncebot")).
Proof.
  split; [reflexivity | ].
  apply (normalize_handle_canonical (lit "  himeoncebot ") (lit "@himeoncebot")).
  reflexivity.
Defined.

Lemma drop_space_app_spaces (ws t : jsstring) :
  forallb is_space ws = true -> drop_space (ws ++ t) = drop_space t.
Proof.
  induction ws as [ | c ws IH]; simpl; [reflexivity | ].
  intros H. apply andb_true_iff in H as [Hc Hws]. rewrite Hc. now apply IH.
Qed.

Lemma drop_space_snoc_spaces (t ws : jsstring) :
  forallb is_space ws = true ->
  drop_space (t ++ ws) = match drop_space t with
                         | [] => []
                         | c :: r => (c :: r) ++ ws
                         end.
Proof.
  intros Hws. induction t as [ | c t IH]; simpl.
  - now apply drop_space_all.
  - destruct (is_space c); [exact IH | reflexivity].
Qed.

(** White space around a text is trimmed away. *)
Lemma trim_padding (ws1 t ws2 : jsstring) :
  forallb is_space ws1 = true -> forallb is_space ws2 = true ->
  trim (ws1 ++ t ++ ws2) = trim t.
Proof.
  intros H1 H2. unfold trim.
  rewrite (drop_space_app_spaces _ _ H1), (drop_space_snoc_spaces _ _ H2).
  destruct (drop_space t) as [ | c r]; [reflexivity | ].
  rewrite rev_app_distr.
  now rewrite (drop_space_app_spaces _ _ (forallb_rev_true _ _ H2)).
Qed.

(** X5: white space before and after the text never changes what the
    normalizer returns. *)
Theorem normalize_ignores_padding (ws1 t ws2 : jsstring) :
  forallb is_space ws1 = true ->
  forallb is_space ws2 = true ->
  normalizeChatRef (ws1 ++ t ++ ws2) = normalizeChatRef t.
Proof.
  intros H1 H2. unfold normalizeChatRef. now rewrite (trim_padding _ _ _ H1 H2).
Qed.

Lemma normalize_ignores_padding_witness :
  forallb is_space (lit "  ") = true
  /\ forallb is_space [10%N; 160%N] = true
  /\ normalizeChatRef (lit "  " ++ lit "@srcchan" ++ [10%N; 160%N])
     = normalizeChatRef (lit "@srcchan").
Proof.
  split; [reflexivity | ]. split; [reflexivity | ].
  apply (normalize_ignores_padding (lit "  ") (lit "@srcchan") [10%N; 160%N]);
    reflexivity.
Defined.

End Canonical.

(* ===================================================================== *)
(** ** The step handler *)
(* ===================================================================== *)

Section Steps.

(** A text that is not a command matches none of the command patterns: it
    reaches the step handler only. *)
Lemma deliver_plain σ c (text : jsstring) :
  startsWith ch_slash (trim text) = false ->
  deliver σ c (Some text) = spawn (on_message σ c (Some text)).
Proof.
  intros Hplain.
  assert (Hhead : forall u, text = ch_slash :: u -> False).
  { intros u ->. destruct (trim_head ch_slash u eq_refl) as (t' & E).
    rewrite E in Hplain. discriminate. }
  assert (Hcmd : forall name, test (re_command name) text = false).
  { intros name. apply test_false. intros H.
    apply command_inv in H as (u & E & _). exact (Hhead _ E). }
  assert (Hfwd : exec_forward text = None).
  { destruct (exec_forward text) as [[m1 m2] | ] eqn:E; [ | reflexivity].
    apply exec_forward_prefix in E as (u & E). exfalso. exact (Hhead _ E). }
  unfold deliver, callbacks. destruct text as [ | a u]; [reflexivity | ].
  cbn [foldl].
  change (invoke (σ, [], []) (fun σ' => Some (on_message σ' c (Some (a :: u)))))
    with (spawn (on_message σ c (Some (a :: u)))).
  rewrite !invoke_onText_miss by apply Hcmd.
  now rewrite invoke_forward_miss.
Qed.

(** A message without text reaches the step handler only, which returns. *)
Lemma deliver_no_text σ c : deliver σ c None = (σ, [], []).
Proof. reflexivity. Qed.

Lemma view_step_session σ c x :
  step (view σ c) = Some x ->
  exists l, sessions σ !! c = Some l /\ step (obj σ l) = Some x.
Proof.
  unfold view. destruct (sessions σ !! c) as [l | ]; [eauto | discriminate].
Qed.

(** The step handler on a text that is not blank and not a command, for a
    chat that has a session. *)
Lemma on_message_active σ c l (text : jsstring) :
  sessions σ !! c = Some l ->
  trim text ≠ [] ->
  startsWith ch_slash (trim text) = false ->
  on_message σ c (Some text)
  = match step (obj σ l) with
    | None => finish σ []
    | Some TEST_USERNAME =>
        match normalizeChatRef text with
        | Some (RefName u) =>
            await σ [] (resolveChatId (Some (RefName u))) (K_test_resolving c (RefName u))
        | _ => await σ [] (sendMessage c MsgTestNotUsername) K_end
        end
    | Some SRC =>
        if negb (ref_truthy (normalizeChatRef text))
        then await σ [] (sendMessage c MsgInvalidInput) K_end
        else await (update l (fun o => set_step (Some DST)
                                         (set_srcRef (normalizeChatRef text) o)) σ) []
               (sendMessage c MsgSourceReceived) K_end
    | Some DST =>
        if negb (ref_truthy (normalizeChatRef text))
        then await σ [] (sendMessage c MsgInvalidInput) K_end
        else
          let σ1 := update l (fun o => set_step None
                                         (set_dstRef (normalizeChatRef text) o)) σ in
          await σ1 [] (resolveChatId (srcRef (obj σ1 l))) (K_src_resolving c l)
    end.
Proof.
  intros Hl Hne Hplain. unfold on_message.
  change (default [] (Some text)) with text.
  rewrite <- (normalizeChatRef_trim text).
  destruct (trim text) as [ | a u]; [contradiction | ].
  cbv zeta. now rewrite Hplain, Hl.
Qed.

(** X6: a message without text, a blank text, and a text that is not a
    command while the chat has no active step are ignored: nothing is sent,
    the store stays as it is and no handler is left suspended. *)
Theorem idle_text_is_ignored σ c msg_text :
  startsWith ch_slash (trim (default [] msg_text)) = false ->
  trim (default [] msg_text) = [] \/ step (view σ c) = None ->
  deliver σ c msg_text = (σ, [], []).
Proof.
  intros Hplain Hidle. destruct msg_text as [text | ]; [ | reflexivity].
  change (default [] (Some text)) with text in *.
  rewrite (deliver_plain _ _ _ Hplain). unfold on_message.
  change (default [] (Some text)) with text.
  destruct (trim text) as [ | a u] eqn:E; [reflexivity | ].
  destruct Hidle as [Hblank | Hstep]; [discriminate | ].
  cbv zeta. rewrite Hplain. unfold view in Hstep.
  destruct (sessions σ !! c) as [l | ]; [ | reflexivity].
  now rewrite Hstep.
Qed.

Lemma idle_text_is_ignored_witness :
  startsWith ch_slash (trim (default [] (Some (lit "hello there")))) = false
  /\ deliver (mem Scenario.while_running) 1 (Some (lit "hello there"))
     = (mem Scenario.while_running, [], []).
Proof.
  split; [reflexivity | ].
  apply (idle_text_is_ignored (mem Scenario.while_running) 1 (Some (lit "hello there")));
    [reflexivity | right; reflexivity].
Defined.

(** X7: in the SRC and in the DST step, a text that is not blank, not a
    command and does not normalize to a reference that is truthy is answered
    with the "Invalid input" message; the store stays exactly as it is, so
    the chat remains in the same step with the same range and
    references. *)
Theorem invalid_reference_keeps_state σ c (text : jsstring) :
  step (view σ c) = Some SRC \/ step (view σ c) = Some DST ->
  trim text ≠ [] ->
  startsWith ch_slash (trim text) = false ->
  ref_truthy (normalizeChatRef text) = false ->
  deliver σ c (Some text)
  = (σ, [Call (sendMessage c MsgInvalidInput)],
     [{| awaiting := sendMessage c MsgInvalidInput; cont := K_end |}]).
Proof.
  intros Hstep Hne Hplain Hbad. rewrite (deliver_plain _ _ _ Hplain).
  destruct Hstep as [Hstep | Hstep];
    apply view_step_session in Hstep as (l & Hl & Hstep);
    rewrite (on_message_active _ _ _ _ Hl Hne Hplain), Hstep, Hbad; reflexivity.
Qed.

Lemma invalid_reference_keeps_state_witness :
  step (view (mem Scenario.awaiting_destination) 1) = Some DST
  /\ ref_truthy (normalizeChatRef (lit "my channel")) = false
  /\ deliver (mem Scenario.awaiting_destination) 1 (Some (lit "my channel"))
     = (mem Scenario.awaiting_destination, [Call (sendMessage 1 MsgInvalidInput)],
        [{| awaiting := sendMessage 1 MsgInvalidInput; cont := K_end |}]).
Proof.
  split; [reflexivity | ]. split; [reflexivity | ].
  apply (invalid_reference_keeps_state (mem Scenario.awaiting_destination) 1
           (lit "my channel")).
  - right. reflexivity.
  - discriminate.
  - reflexivity.
  - reflexivity.
Defined.

(** A numeral is not blank and not a command. *)
Lemma numeric_plain (raw : jsstring) :
  Matches re_numeric raw -> raw ≠ [] /\ startsWith ch_slash raw = false.
Proof.
  intros H. destruct raw as [ | c u].
  - apply test_spec in H. discriminate.
  - split; [discriminate | ]. apply numeric_head in H. simpl.
    destruct (N.eqb_spec c ch_slash) as [-> | ]; [ | reflexivity].
    destruct H as [H | H]; discriminate.
Qed.

(** X8: the chat id 0 cannot be given as source or destination: in the SRC
    and in the DST step a numeral whose value is 0 ("0", "-0", "000") is
    refused like a malformed text, since the Number 0 is falsy; the store
    stays as it is. *)
Theorem zero_id_is_refused σ c (text : jsstring) :
  step (view σ c) = Some SRC \/ step (view σ c) = Some DST ->
  test re_numeric (trim text) = true ->
  signed_decimal (trim text) = 0 ->
  normalizeChatRef text = Some (RefNum (Finite 0))
  /\ deliver σ c (Some text)
     = (σ, [Call (sendMessage c MsgInvalidInput)],
        [{| awaiting := sendMessage c MsgInvalidInput; cont := K_end |}]).
Proof.
  intros Hstep Hnum Hzero. apply test_spec in Hnum.
  assert (Hn : normalizeChatRef text = Some (RefNum (Finite 0))).
  { rewrite (normalizeChatRef_numeric _ Hnum). unfold Number. now rewrite Hzero. }
  split; [exact Hn | ].
  destruct (numeric_plain _ Hnum) as [Hne Hplain].
  rewrite (deliver_plain _ _ _ Hplain).
  destruct Hstep as [Hstep | Hstep];
    apply view_step_session in Hstep as (l & Hl & Hstep);
    rewrite (on_message_active _ _ _ _ Hl Hne Hplain), Hstep, Hn; reflexivity.
Qed.

Lemma zero_id_is_refused_witness :
  step (view (mem Cases.awaiting_source) 1) = Some SRC
  /\ test re_numeric (trim (lit "-000")) = true
  /\ signed_decimal (trim (lit "-000")) = 0
  /\ deliver (mem Cases.awaiting_source) 1 (Some (lit "-000"))
     = (mem Cases.awaiting_source, [Call (sendMessage 1 MsgInvalidInput)],
        [{| awaiting := sendMessage 1 MsgInvalidInput; cont := K_end |}]).
Proof.
  repeat (split; [reflexivity | ]).
  apply (zero_id_is_refused (mem Cases.awaiting_source) 1 (lit "-000"));
    [left | | ]; reflexivity.
Defined.

(** X9: in the test step a handle is looked up with [getChat]; whether the
    lookup succeeds or fails, one report is sent (the resolved id, or the
    error) and then the session of the chat is reset to the default. *)
Theorem test_flow_reports_and_resets σ c (text u : jsstring) env :
  step (view σ c) = Some TEST_USERNAME ->
  normalizeChatRef text = Some (RefName u) ->
  reliable env ->
  let lookup := getChat (Some (RefName u)) in
  let report :=
    match env 0%nat lookup with
    | Fulfilled id => MsgTestResolved (RefName u) id
    | Rejected e => MsgCouldNotResolve (RefName u) e
    end in
  deliver σ c (Some text)
  = (σ, [Call lookup], [{| awaiting := lookup; cont := K_test_resolving c (RefName u) |}])
  /\ run_from 2 env 0 (on_message σ c (Some text))
     = Some (resetSession σ c, [Call lookup; Call (sendMessage c report)])
  /\ view (resetSession σ c) c = fresh.
Proof.
  intros Hstep Hn Hrel lookup report.
  destruct (normalized_not_command _ _ Hn) as (a & t' & E & Hplain).
  assert (Hne : trim text ≠ []) by (rewrite E; discriminate).
  apply view_step_session in Hstep as (l & Hl & Hstep).
  rewrite (deliver_plain _ _ _ Hplain).
  rewrite (on_message_active _ _ _ _ Hl Hne Hplain), Hstep, Hn.
  cbn [resolveChatId]. fold lookup.
  split; [reflexivity | ]. split; [ | apply view_resetSession].
  change 2%nat with (S (S O)). rewrite run_from_await. subst report.
  destruct (env 0%nat lookup) as [id | e]; cbn [resume]; rewrite run_from_await.
  - destruct (Hrel 1%nat c (MsgTestResolved (RefName u) id)) as [v ->].
    cbn [resume]. now rewrite run_from_finish.
  - destruct (Hrel 1%nat c (MsgCouldNotResolve (RefName u) e)) as [v ->].
    cbn [resume]. now rewrite run_from_finish.
Qed.

Lemma test_flow_reports_and_resets_witness :
  step (view (mem Cases.testing) 1) = Some TEST_USERNAME
  /\ normalizeChatRef (lit "himeoncebot") = Some (RefName (lit "@himeoncebot"))
  /\ run_from 2 Cases.nothing_found 0
       (on_message (mem Cases.testing) 1 (Some (lit "himeoncebot")))
     = Some (resetSession (mem Cases.testing) 1,
             [Call (getChat (Some (RefName (lit "@himeoncebot"))));
              Call (sendMessage 1 (MsgCouldNotResolve (RefName (lit "@himeoncebot"))
                                     Scenario.chat_not_found))]).
Proof.
  split; [reflexivity | ]. split; [reflexivity | ].
  assert (Hrel : reliable Cases.nothing_found) by (intros n c m; now exists (Finite 0)).
  destruct (test_flow_reports_and_resets (mem Cases.testing) 1 (lit "himeoncebot")
              (lit "@himeoncebot") Cases.nothing_found eq_refl eq_refl Hrel)
    as (_ & H & _).
  exact H.
Defined.

(** X10: in the test step a text that is not a handle (a number, or
    anything the normalizer refuses) is answered with the request for a
    username; the store stays as it is, so the chat remains in the test
    step. *)
Theorem test_flow_wants_a_handle σ c (text : jsstring) :
  step (view σ c) = Some TEST_USERNAME ->
  trim text ≠ [] ->
  startsWith ch_slash (trim text) = false ->
  (forall u, normalizeChatRef text ≠ Some (RefName u)) ->
  deliver σ c (Some text)
  = (σ, [Call (sendMessage c MsgTestNotUsername)],
     [{| awaiting := sendMessage c MsgTestNotUsername; cont := K_end |}]).
Proof.
  intros Hstep Hne Hplain Hno. apply view_step_session in Hstep as (l & Hl & Hstep).
  rewrite (deliver_plain _ _ _ Hplain).
  rewrite (on_message_active _ _ _ _ Hl Hne Hplain), Hstep.
  destruct (normalizeChatRef text) as [[n | u] | ]; try reflexivity.
  destruct (Hno u eq_refl).
Qed.

Lemma test_flow_wants_a_handle_witness :
  step (view (mem Cases.testing) 1) = Some TEST_USERNAME
  /\ normalizeChatRef (lit "-1001234567890") = Some (RefNum (Finite (-1001234567890)))
  /\ deliver (mem Cases.testing) 1 (Some (lit "-1001234567890"))
     = (mem Cases.testing, [Call (sendMessage 1 MsgTestNotUsername)],
        [{| awaiting := sendMessage 1 MsgTestNotUsername; cont := K_end |}]).
Proof.
  split; [reflexivity | ]. split; [reflexivity | ].
  apply (test_flow_wants_a_handle (mem Cases.testing) 1 (lit "-1001234567890")).
  - reflexivity.
  - discriminate.
  - reflexivity.
  - intros u. discriminate.
Defined.

Lemma obj_of_view σ c l : sessions σ !! c = Some l -> obj σ l = view σ c.
Proof. intros H. unfold view. now rewrite H. Qed.

(** X11: the three messages of a setup compose.  From a chat that is not
    running, a /forward with integer values, a text that normalizes to a
    truthy reference and another such text, one after the other, leave the
    session with the ordered range and the two references, in that order,
    the step cleared and [running] still false; the two prompts were sent
    and the third handler awaits the resolution of the source. *)
Theorem setup_composes σ c (text_f m1 m2 text_s text_d : jsstring) a b ref_s ref_d :
  exec_forward text_f = Some (m1, m2) ->
  running (view σ c) = false ->
  Number m1 = Finite a ->
  Number m2 = Finite b ->
  normalizeChatRef text_s = Some ref_s ->
  ref_truthy (Some ref_s) = true ->
  normalizeChatRef text_d = Some ref_d ->
  ref_truthy (Some ref_d) = true ->
  exists Σ l,
    sys_run {| mem := σ; trace := []; pool := [] |}
      [ Incoming c (Some text_f); Incoming c (Some text_s); Incoming c (Some text_d) ]
    = Some Σ
    /\ sessions (mem Σ) !! c = Some l
    /\ view (mem Σ) c
       = {| step := None; running := false;
            startId := Some (Finite (Z.min a b)); endId := Some (Finite (Z.max a b));
            srcRef := Some ref_s; dstRef := Some ref_d |}
    /\ trace Σ
       = [ Call (sendMessage c (MsgRangeSet (Finite (Z.min a b)) (Finite (Z.max a b))));
           Call (sendMessage c MsgSourceReceived);
           Call (resolveChatId (Some ref_s)) ]
    /\ pool Σ !! 2%nat
       = Some (Some {| awaiting := resolveChatId (Some ref_s);
                       cont := K_src_resolving c l |}).
Proof.
  intros Hf Hrun Ha Hb Hs Hst Hd Hdt.
  destruct (on_forward_accepted σ c m1 m2 a b Hrun Ha Hb) as (σ1 & Hon & Hview1).
  assert (Hstep1 : step (view σ1 c) = Some SRC) by now rewrite Hview1.
  apply view_step_session in Hstep1 as (l & Hl1 & Hstep1).
  pose proof (obj_of_view _ _ _ Hl1) as Hobj1. rewrite Hview1 in Hobj1.
  (* the source *)
  destruct (normalized_not_command _ _ Hs) as (x & u & Es & Hplain_s).
  assert (Hne_s : trim text_s ≠ []) by (rewrite Es; discriminate).
  set (σ2 := update l (fun o => set_step (Some DST) (set_srcRef (Some ref_s) o)) σ1).
  assert (Hsrc : on_message σ1 c (Some text_s)
                 = await σ2 [] (sendMessage c MsgSourceReceived) K_end).
  { rewrite (on_message_active _ _ _ _ Hl1 Hne_s Hplain_s), Hstep1, Hs, Hst. reflexivity. }
  assert (Hl2 : sessions σ2 !! c = Some l) by exact Hl1.
  assert (Hobj2 : obj σ2 l = set_step (Some DST) (set_srcRef (Some ref_s) (obj σ1 l)))
    by apply obj_update_eq.
  (* the destination *)
  destruct (normalized_not_command _ _ Hd) as (y & w & Ed & Hplain_d).
  assert (Hstep2 : step (obj σ2 l) = Some DST) by now rewrite Hobj2.
  pose proof (on_message_destination σ2 c l text_d ref_d Hl2 Hstep2 Hd Hdt) as Hdst.
  set (σ3 := update l (fun o => set_step None (set_dstRef (Some ref_d) o)) σ2) in *.
  assert (Hsrcref : srcRef (obj σ2 l) = Some ref_s) by now rewrite Hobj2.
  rewrite Hsrcref in Hdst.
  exists {| mem := σ3;
            trace := [ Call (sendMessage c (MsgRangeSet (Finite (Z.min a b))
                                              (Finite (Z.max a b))));
                       Call (sendMessage c MsgSourceReceived);
                       Call (resolveChatId (Some ref_s)) ];
            pool := [ Some {| awaiting := sendMessage c (MsgRangeSet (Finite (Z.min a b))
                                                          (Finite (Z.max a b)));
                              cont := K_end |};
                      Some {| awaiting := sendMessage c MsgSourceReceived; cont := K_end |};
                      Some {| awaiting := resolveChatId (Some ref_s);
                              cont := K_src_resolving c l |} ] |}, l.
  split.
  { cbn [sys_run sys_step mem trace pool].
    rewrite (deliver_forward _ _ _ _ _ Hf), Hon. unfold spawn at 1, await at 1.
    cbn [st out next option_list map app mem trace pool].
    rewrite (deliver_plain _ _ _ Hplain_s), Hsrc. unfold spawn at 1, await at 1.
    cbn [st out next option_list map app mem trace pool].
    rewrite (deliver_plain _ _ _ Hplain_d), Hdst. unfold spawn, await.
    cbn [st out next option_list map app mem trace pool]. reflexivity. }
  split; [exact Hl1 | ].
  split; [ | split; reflexivity].
  cbn [mem]. unfold σ3. rewrite (view_update _ _ _ _ Hl2), Hobj2, Hobj1. reflexivity.
Qed.

Lemma setup_composes_witness :
  exists Σ l,
    sys_run {| mem := Store.empty; trace := []; pool := [] |}
      [ Incoming 1 (Some (lit "/forward 30 2")); Incoming 1 (Some (lit "srcchan"));
        Incoming 1 (Some (lit "-1002")) ]
    = Some Σ
    /\ sessions (mem Σ) !! 1 = Some l
    /\ view (mem Σ) 1
       = {| step := None; running := false;
            startId := Some (Finite 2); endId := Some (Finite 30);
            srcRef := Some (RefName (lit "@srcchan"));
            dstRef := Some (RefNum (Finite (-1002))) |}
    /\ trace Σ
       = [ Call (sendMessage 1 (MsgRangeSet (Finite 2) (Finite 30)));
           Call (sendMessage 1 MsgSourceReceived);
           Call (getChat (Some (RefName (lit "@srcchan")))) ]
    /\ pool Σ !! 2%nat
       = Some (Some {| awaiting := getChat (Some (RefName (lit "@srcchan")));
                       cont := K_src_resolving 1 l |}).
Proof.
  apply (setup_composes Store.empty 1 (lit "/forward 30 2") (lit "30") (lit "2")
           (lit "srcchan") (lit "-1002") 30 2
           (RefName (lit "@srcchan")) (RefNum (Finite (-1002)))); reflexivity.
Defined.

End Steps.

(* ===================================================================== *)
(** ** More on the commands *)
(* ===================================================================== *)

Section MoreCommands.

Ltac clash E :=
  let u := fresh "u" in
  let E' := fresh "E" in
  apply test_false; intros H';
  apply command_inv in H' as (u & E' & _);
  rewrite E' in E; simpl in E; discriminate E.

(** A text that matches the pattern of /start reaches [on_start] and
    nothing else; likewise for /chatid. *)
Lemma deliver_start σ c (text : jsstring) :
  test (re_command "start") text = true ->
  deliver σ c (Some text) = spawn (on_start σ c).
Proof.
  intros Hc. pose proof Hc as H. apply test_spec, command_inv in H as (u & E & _).
  assert (H1 : test (re_command "cancel") text = false) by clash E.
  assert (H2 : test (re_command "chatid") text = false) by clash E.
  assert (H3 : test (re_command "test") text = false) by clash E.
  assert (H4 : exec_forward text = None) by (rewrite E; now apply exec_forward_other).
  destruct text as [ | x t]; [discriminate E | ].
  injection E as -> _. unfold deliver, callbacks. cbn [foldl].
  rewrite invoke_on_message_command.
  rewrite (invoke_onText_hit _ _ _ _ _ Hc), (invoke_onText_miss _ _ _ _ _ H1).
  rewrite (invoke_onText_miss _ _ _ _ _ H2), (invoke_onText_miss _ _ _ _ _ H3).
  now rewrite (invoke_forward_miss _ _ _ H4).
Qed.

Lemma deliver_chatid σ c (text : jsstring) :
  test (re_command "chatid") text = true ->
  deliver σ c (Some text) = spawn (on_chatid σ c).
Proof.
  intros Hc. pose proof Hc as H. apply test_spec, command_inv in H as (u & E & _).
  assert (H1 : test (re_command "start") text = false) by clash E.
  assert (H2 : test (re_command "cancel") text = false) by clash E.
  assert (H3 : test (re_command "test") text = false) by clash E.
  assert (H4 : exec_forward text = None) by (rewrite E; now apply exec_forward_other).
  destruct text as [ | x t]; [discriminate E | ].
  injection E as -> _. unfold deliver, callbacks. cbn [foldl].
  rewrite invoke_on_message_command.
  rewrite (invoke_onText_miss _ _ _ _ _ H1), (invoke_onText_miss _ _ _ _ _ H2).
  rewrite (invoke_onText_hit _ _ _ _ _ Hc), (invoke_onText_miss _ _ _ _ _ H3).
  now rewrite (invoke_forward_miss _ _ _ H4).
Qed.

(** X12: /start and /chatid, with or without a mention of the bot, only
    answer: the help text, respectively the id of the chat, is sent and the
    store stays as it is, whatever the chat is doing. *)
Theorem informational_commands_only_answer σ c (text : jsstring) :
  (test (re_command "start") text = true ->
   deliver σ c (Some text)
   = (σ, [Call (sendMessage c MsgHelp)],
      [{| awaiting := sendMessage c MsgHelp; cont := K_end |}]))
  /\ (test (re_command "chatid") text = true ->
      deliver σ c (Some text)
      = (σ, [Call (sendMessage c (MsgChatId c))],
         [{| awaiting := sendMessage c (MsgChatId c); cont := K_end |}])).
Proof.
  split; intros H; [now rewrite (deliver_start _ _ _ H) | now rewrite (deliver_chatid _ _ _ H)].
Qed.

Lemma informational_commands_only_answer_witness :
  test (re_command "chatid") (lit "/chatid@forw_bot") = true
  /\ deliver (mem Scenario.while_running) 1 (Some (lit "/chatid@forw_bot"))
     = (mem Scenario.while_running, [Call (sendMessage 1 (MsgChatId 1))],
        [{| awaiting := sendMessage 1 (MsgChatId 1); cont := K_end |}]).
Proof.
  split; [reflexivity | ].
  destruct (informational_commands_only_answer (mem Scenario.while_running) 1
              (lit "/chatid@forw_bot")) as [_ H].
  apply H. reflexivity.
Defined.

(** X13: /test in a chat that is not running: once its prompt is out, the
    step of the session is TEST_USERNAME and every other field is as it was
    (a range and references of a setup in progress are kept). *)
Theorem test_command_enters_test_step σ c (text : jsstring) env :
  test (re_command "test") text = true ->
  running (view σ c) = false ->
  reliable env ->
  exists σ',
    deliver σ c (Some text)
    = (σ, [Call (sendMessage c MsgTestPrompt)],
       [{| awaiting := sendMessage c MsgTestPrompt; cont := K_test_prompted c |}])
    /\ run_from 1 env 0 (on_test σ c) = Some (σ', [Call (sendMessage c MsgTestPrompt)])
    /\ view σ' c = set_step (Some TEST_USERNAME) (view σ c).
Proof.
  intros Hm Hrun Hrel. apply test_spec in Hm.
  pose proof (getSession_lookup σ c) as Hl. pose proof (getSession_obj σ c) as Ho.
  destruct (getSession σ c) as [σ1 l] eqn:Hg. simpl in Hl, Ho.
  exists (update l (set_step (Some TEST_USERNAME)) σ1).
  split; [now rewrite (deliver_test _ _ _ Hm) | ].
  split.
  - unfold on_test. change 1%nat with (S O). rewrite run_from_await.
    destruct (Hrel 0%nat c MsgTestPrompt) as [v ->]. cbn [resume].
    rewrite Hg, Ho, Hrun. now rewrite run_from_finish.
  - now rewrite (view_update _ _ _ _ Hl), Ho.
Qed.

Lemma test_command_enters_test_step_witness :
  test (re_command "test") (lit "/test") = true
  /\ running (view (mem Cases.awaiting_source) 1) = false
  /\ exists σ',
       run_from 1 Scenario.calm 0 (on_test (mem Cases.awaiting_source) 1)
       = Some (σ', [Call (sendMessage 1 MsgTestPrompt)])
       /\ view σ' 1
          = {| step := Some TEST_USERNAME; running := false;
               startId := Some (Finite 5); endId := Some (Finite 7);
               srcRef := None; dstRef := None |}.
Proof.
  split; [reflexivity | ]. split; [reflexivity | ].
  assert (Hrel : reliable Scenario.calm) by (intros n c m; now exists (Finite 0)).
  destruct (test_command_enters_test_step (mem Cases.awaiting_source) 1 (lit "/test")
              Scenario.calm eq_refl eq_refl Hrel) as (σ' & _ & Hrun & Hview).
  exists σ'. split; [exact Hrun | exact Hview].
Defined.

Lemma on_message_slash σ c (text : jsstring) :
  startsWith ch_slash (trim text) = true ->
  on_message σ c (Some text) = finish σ [].
Proof.
  unfold on_message. change (default [] (Some text)) with text.
  destruct (trim text) as [ | a u]; [reflexivity | ]. now intros ->.
Qed.

(** A text that is a command for [on_message] and matches none of the
    patterns goes to no handler. *)
Lemma deliver_unmatched σ c (text : jsstring) :
  startsWith ch_slash (trim text) = true ->
  test (re_command "start") text = false ->
  test (re_command "cancel") text = false ->
  test (re_command "chatid") text = false ->
  test (re_command "test") text = false ->
  exec_forward text = None ->
  deliver σ c (Some text) = (σ, [], []).
Proof.
  intros Hs H1 H2 H3 H4 H5.
  assert (Hm : invoke (σ, [], []) (fun σ' => Some (on_message σ' c (Some text))) = (σ, [], []))
    by (unfold invoke; now rewrite on_message_slash).
  unfold deliver, callbacks. destruct text as [ | x t]; [discriminate Hs | ].
  cbn [foldl]. rewrite Hm.
  rewrite (invoke_onText_miss _ _ _ _ _ H1), (invoke_onText_miss _ _ _ _ _ H2).
  rewrite (invoke_onText_miss _ _ _ _ _ H3), (invoke_onText_miss _ _ _ _ _ H4).
  now rewrite (invoke_forward_miss _ _ _ H5).
Qed.

Lemma deliver_cases σ c msg_text :
  deliver σ c msg_text = (σ, [], [])
  \/ deliver σ c msg_text = spawn (on_message σ c msg_text)
  \/ (exists h, In h [on_start; on_cancel; on_chatid; on_test]
                /\ deliver σ c msg_text = spawn (h σ c))
  \/ (exists m1 m2, deliver σ c msg_text = spawn (on_forward σ c m1 m2)).
Proof.
  destruct msg_text as [text | ]; [ | left; reflexivity].
  destruct (startsWith ch_slash (trim text)) eqn:Hs;
    [ | right; left; now apply deliver_plain].
  destruct (test (re_command "start") text) eqn:E1.
  { right; right; left. exists on_start. split; [simpl; tauto | now apply deliver_start]. }
  destruct (test (re_command "cancel") text) eqn:E2.
  { right; right; left. exists on_cancel. split; [simpl; tauto | ].
    apply deliver_cancel. now apply test_spec. }
  destruct (test (re_command "chatid") text) eqn:E3.
  { right; right; left. exists on_chatid. split; [simpl; tauto | now apply deliver_chatid]. }
  destruct (test (re_command "test") text) eqn:E4.
  { right; right; left. exists on_test. split; [simpl; tauto | ].
    apply deliver_test. now apply test_spec. }
  destruct (exec_forward text) as [[m1 m2] | ] eqn:E5.
  { right; right; right. exists m1, m2. now apply deliver_forward. }
  left. now apply deliver_unmatched.
Qed.

(** X14: a message is handled by at most one handler.  What it does to the
    store, what it puts out and what it leaves suspended is nothing at all,
    or what the step handler does, or what one of the five commands does:
    the step handler never acts on a text that a command pattern matches, and
    no text matches two command patterns. *)
Theorem one_handler_per_message σ c msg_text :
  deliver σ c msg_text = (σ, [], [])
  \/ deliver σ c msg_text = spawn (on_message σ c msg_text)
  \/ (exists h, In h [on_start; on_cancel; on_chatid; on_test]
                /\ deliver σ c msg_text = spawn (h σ c))
  \/ (exists m1 m2, deliver σ c msg_text = spawn (on_forward σ c m1 m2)).
Proof. apply deliver_cases. Qed.

(** X15: the pattern of /forward is not ambiguous: a text has the form it
    describes in one way only, so that the two groups, the texts of start_id
    and end_id, are determined by the message. *)
Theorem forward_groups_unique (text a b a' b' : jsstring) :
  forward_shape text a b -> forward_shape text a' b' -> a = a' /\ b = b'.
Proof.
  intros H H'. apply exec_forward_spec in H, H'.
  rewrite H in H'. now injection H' as -> ->.
Qed.

Lemma forward_groups_unique_witness :
  forward_shape (lit "/forward@forw_bot  -12 30 ") (lit "-12") (lit "30")
  /\ (lit "-12" = lit "-12" /\ lit "30" = lit "30").
Proof.
  assert (H : forward_shape (lit "/forward@forw_bot  -12 30 ") (lit "-12") (lit "30"))
    by (apply exec_forward_spec; reflexivity).
  split; [exact H | exact (forward_groups_unique _ _ _ _ _ H H)].
Defined.

End MoreCommands.

(* ===================================================================== *)
(** ** What the event loop keeps *)
(* ===================================================================== *)

Section Interleaving.

Lemma sys_step_frozen Σ ev Σ' l :
  sys_step Σ ev = Some Σ' ->
  (l < next_loc (mem Σ))%nat -> running (obj (mem Σ) l) = true ->
  Spec.frozen (mem Σ) (mem Σ') l.
Proof.
  intros Hstep Hl Hrun. destruct ev as [c msg_text | i r]; simpl in Hstep.
  - pose proof (deliver_frozen (mem Σ) c msg_text l Hl Hrun) as H.
    destruct (deliver (mem Σ) c msg_text) as [[σ effs] ts].
    injection Hstep as <-. exact H.
  - destruct (pool Σ !! i) as [[t | ] | ]; try discriminate.
    destruct (admissible (awaiting t) r); [ | discriminate].
    injection Hstep as <-. now apply resume_frozen.
Qed.

(** X16: a session object that is running stays as it is for good: whatever
    messages come in and whichever handlers go on, of this chat or of
    others, the object is still running afterwards, with the same start and
    the same end.  /cancel is no exception: it puts another object into the
    Map, and the run goes on over its own. *)
Theorem running_object_is_kept evs : forall Σ Σ' l,
  sys_run Σ evs = Some Σ' ->
  (l < next_loc (mem Σ))%nat -> running (obj (mem Σ) l) = true ->
  Spec.frozen (mem Σ) (mem Σ') l.
Proof.
  induction evs as [ | ev evs IH]; intros Σ Σ' l Hrun Hl Hr.
  - injection Hrun as <-. now apply frozen_refl.
  - simpl in Hrun. destruct (sys_step Σ ev) as [Σ1 | ] eqn:Hstep; [ | discriminate].
    pose proof (sys_step_frozen _ _ _ _ Hstep Hl Hr) as H1.
    eapply frozen_trans; [exact H1 | ].
    destruct H1 as (Hn & Hr1 & _). apply IH; [assumption | lia | assumption].
Qed.

Lemma running_object_is_kept_witness :
  exists Σ',
    sys_run Scenario.while_running Cases.meddling = Some Σ'
    /\ step (view (mem Σ') 1) = Some DST
    /\ running (obj (mem Σ') 0%nat) = true
    /\ startId (obj (mem Σ') 0%nat) = Some (Finite 5)
    /\ endId (obj (mem Σ') 0%nat) = Some (Finite 7).
Proof.
  destruct (sys_run Scenario.while_running Cases.meddling) as [Σ' | ] eqn:E;
    [ | vm_compute in E; discriminate E].
  exists Σ'. split; [reflexivity | ].
  split; [vm_compute in E; injection E as <-; reflexivity | ].
  assert (Hl : (0 < next_loc (mem Scenario.while_running))%nat) by (vm_compute; lia).
  destruct (running_object_is_kept _ _ _ 0%nat E Hl eq_refl) as (_ & H1 & H2 & H3).
  repeat split; assumption.
Defined.

Lemma sys_step_exclusive Σ ev Σ' :
  sys_step Σ ev = Some Σ' ->
  Spec.exclusive (mem Σ) -> Props.settles_cleanly_at Σ ev = true ->
  Spec.exclusive (mem Σ').
Proof.
  intros Hstep Hex Hclean. destruct ev as [c msg_text | i r]; simpl in Hstep.
  - pose proof (deliver_exclusive (mem Σ) c msg_text Hex) as H.
    destruct (deliver (mem Σ) c msg_text) as [[σ effs] ts].
    injection Hstep as <-. exact H.
  - unfold Props.settles_cleanly_at in Hclean.
    destruct (pool Σ !! i) as [[t | ] | ]; try discriminate.
    destruct (admissible (awaiting t) r); [ | discriminate].
    injection Hstep as <-. apply resume_exclusive; [assumption | ].
    intros c l src v Hk ->. destruct t as [aw k]. simpl in Hk. subst k.
    simpl. destruct (step (obj (mem Σ) l)); [discriminate | reflexivity].
Qed.

(** X17: running excludes collecting as long as no step is given to a
    session object between the moment its destination is sent and the moment
    the destination is found.  From a store where every running object has
    no step, every run of the event loop in which each fulfilled [getChat]
    for a destination finds the step of its object still null ends in such a
    store. *)
Theorem exclusion_outside_the_race evs : forall Σ Σ',
  sys_run Σ evs = Some Σ' ->
  Spec.exclusive (mem Σ) -> Props.settles_cleanly Σ evs = true ->
  Spec.exclusive (mem Σ').
Proof.
  induction evs as [ | ev evs IH]; intros Σ Σ' Hrun Hex Hclean.
  - now injection Hrun as <-.
  - simpl in Hrun, Hclean. apply andb_true_iff in Hclean as [Hat Hrest].
    destruct (sys_step Σ ev) as [Σ1 | ] eqn:Hstep; [ | discriminate].
    apply (IH Σ1); [assumption | | assumption].
    now apply (sys_step_exclusive Σ ev).
Qed.

Lemma exclusion_outside_the_race_witness :
  sys_run boot Scenario.walkthrough = Some Scenario.walked
  /\ Props.settles_cleanly boot Scenario.walkthrough = true
  /\ Spec.exclusive (mem Scenario.walked).
Proof.
  assert (H1 : sys_run boot Scenario.walkthrough = Some Scenario.walked)
    by (vm_compute; reflexivity).
  assert (H2 : Props.settles_cleanly boot Scenario.walkthrough = true)
    by (vm_compute; reflexivity).
  split; [exact H1 | ]. split; [exact H2 | ].
  exact (exclusion_outside_the_race _ _ _ H1 exclusive_empty H2).
Defined.

End Interleaving.

(* ===================================================================== *)
(** ** The guard of /test *)
(* ===================================================================== *)

Section TestGuard.

Lemma frozen_run evs : forall Σ Σ' l,
  sys_run Σ evs = Some Σ' ->
  (l < next_loc (mem Σ))%nat -> running (obj (mem Σ) l) = true ->
  Spec.frozen (mem Σ) (mem Σ') l.
Proof.
  induction evs as [ | ev evs IH]; intros Σ Σ' l Hrun Hl Hr.
  - injection Hrun as <-. now apply frozen_refl.
  - simpl in Hrun. destruct (sys_step Σ ev) as [Σ1 | ] eqn:Hstep; [ | discriminate].
    pose proof (sys_step_frozen _ _ _ _ Hstep Hl Hr) as H1.
    eapply frozen_trans; [exact H1 | ].
    destruct H1 as (Hn & Hr1 & _). apply IH; [assumption | lia | assumption].
Qed.

(** C10 does not hold of the code: the handler of /test looks at [running]
    after the [await] of its prompt, not when the command arrives.  /test
    comes in while the session of chat 1 is running; before the prompt is
    out the chat sends /cancel, which puts a default session into the Map;
    when the prompt is out the handler finds that session not running and
    sets its step to TEST_USERNAME, while the runner is still suspended in
    its [copyMessage]: the test flow is entered during the run. *)
Theorem test_flow_entered_during_run :
  running (view (mem Scenario.while_running) 1) = true
  /\ sys_run Scenario.while_running Cases.test_then_cancel = Some Cases.test_entered
  /\ step (view (mem Cases.test_entered) 1) = Some TEST_USERNAME
  /\ pool Cases.test_entered !! 2%nat
     = Some (Some {| awaiting := copy_of Scenario.runner;
                     cont := K_copying Scenario.runner |})
  /\ running (obj (mem Cases.test_entered) 0%nat) = true.
Proof. repeat split; vm_compute; reflexivity. Qed.

(** C10 (amended): /test comes in while the session of the chat, the object
    [l], is running.  The prompt is sent and nothing else changes at that
    moment.  Whatever happens before the prompt settles, messages of this
    chat or of others and handlers going on, if the Map still holds [l] for
    the chat at that moment (no /cancel, and the run has not come to its
    end), the handler returns at its guard: the store, and with it the step
    and every other field of the session, stays as it is, and nothing is
    sent. *)
Theorem test_command_while_running Σ c (text : jsstring) l evs Σ1 i r :
  test (re_command "test") text = true ->
  sessions (mem Σ) !! c = Some l ->
  (l < next_loc (mem Σ))%nat ->
  running (obj (mem Σ) l) = true ->
  let prompt := {| awaiting := sendMessage c MsgTestPrompt; cont := K_test_prompted c |} in
  let Σ0 := {| mem := mem Σ;
               trace := trace Σ ++ [Call (sendMessage c MsgTestPrompt)];
               pool := pool Σ ++ [Some prompt] |} in
  sys_step Σ (Incoming c (Some text)) = Some Σ0
  /\ (sys_run Σ0 evs = Some Σ1 ->
      sessions (mem Σ1) !! c = Some l ->
      pool Σ1 !! i = Some (Some prompt) ->
      sys_step Σ1 (Settle i r)
      = Some {| mem := mem Σ1; trace := trace Σ1; pool := <[i := None]> (pool Σ1) |}).
Proof.
  intros Hm Hl Hlt Hrun prompt Σ0. apply test_spec in Hm. split.
  - simpl. now rewrite (deliver_test _ _ _ Hm).
  - intros Hevs Hl1 Hp.
    destruct (frozen_run evs Σ0 Σ1 l Hevs Hlt Hrun) as (_ & Hrun1 & _).
    simpl. rewrite Hp. cbn [awaiting cont prompt].
    assert (Hadm : admissible (sendMessage c MsgTestPrompt) r = true) by now destruct r.
    rewrite Hadm.
    assert (Hres : resume (mem Σ1) (K_test_prompted c) r = finish (mem Σ1) []).
    { destruct r as [v | e]; [ | reflexivity]. cbn [resume].
      now rewrite (getSession_existing _ _ _ Hl1), Hrun1. }
    rewrite Hres. cbn [st out next finish map]. now rewrite app_nil_r.
Qed.

Lemma test_command_while_running_witness :
  test (re_command "test") (lit "/test") = true
  /\ sessions (mem Scenario.while_running) !! 1 = Some 0%nat
  /\ (0 < next_loc (mem Scenario.while_running))%nat
  /\ running (obj (mem Scenario.while_running) 0%nat) = true
  /\ sys_step Scenario.while_running (Incoming 1 (Some (lit "/test")))
     = Some Cases.test_arrived
  /\ sys_run Cases.test_arrived Cases.busy = Some Cases.still_running
  /\ sessions (mem Cases.still_running) !! 1 = Some 0%nat
  /\ pool Cases.still_running !! 3%nat
     = Some (Some {| awaiting := sendMessage 1 MsgTestPrompt; cont := K_test_prompted 1 |})
  /\ sys_step Cases.still_running (Settle 3 (Fulfilled (Finite 0)))
     = Some {| mem := mem Cases.still_running; trace := trace Cases.still_running;
               pool := <[3%nat := None]> (pool Cases.still_running) |}.
Proof.
  assert (H1 : test (re_command "test") (lit "/test") = true) by reflexivity.
  assert (H2 : sessions (mem Scenario.while_running) !! 1 = Some 0%nat) by reflexivity.
  assert (H3 : (0 < next_loc (mem Scenario.while_running))%nat) by (vm_compute; lia).
  assert (H4 : running (obj (mem Scenario.while_running) 0%nat) = true) by reflexivity.
  assert (H5 : sys_run Cases.test_arrived Cases.busy = Some Cases.still_running)
    by (vm_compute; reflexivity).
  assert (H6 : sessions (mem Cases.still_running) !! 1 = Some 0%nat) by reflexivity.
  assert (H7 : pool Cases.still_running !! 3%nat
               = Some (Some {| awaiting := sendMessage 1 MsgTestPrompt;
                               cont := K_test_prompted 1 |})) by reflexivity.
  destruct (test_command_while_running Scenario.while_running 1 (lit "/test") 0%nat
              Cases.busy Cases.still_running 3%nat (Fulfilled (Finite 0)) H1 H2 H3 H4)
    as [Harrive Hsettle].
  split; [exact H1 | ]. split; [exact H2 | ]. split; [exact H3 | ]. split; [exact H4 | ].
  split; [exact Harrive | ].
  split; [exact H5 | ]. split; [exact H6 | ]. split; [exact H7 | ].
  exact (Hsettle H5 H6 H7).
Defined.

End TestGuard.

(* ===================================================================== *)
(** ** The journal of a run *)
(* ===================================================================== *)

Section Journal.
Import Props.

Lemma tally_nonneg p os : 0 <= tally p os.
Proof. induction os as [ | o os IH]; simpl; [lia | destruct (p o); lia]. Qed.

Lemma tally_split os :
  tally succeeded os + tally (fun o => negb (succeeded o)) os = Z.of_nat (length os).
Proof.
  induction os as [ | o os IH]; [reflexivity | ].
  cbn [tally length]. destruct (succeeded o); simpl negb; cbv iota; lia.
Qed.

(** The loop from any index on, by its journal; [σ_end] is the store in
    which the handler ends once it has called [sendMessage] for the
    summary. *)
Lemma loop_journal_to env σ σ_end c l src dst b :
  endId (obj σ l) = Some (Finite b) ->
  b < max_exact ->
  (forall n x y, run_from 1 env n (summary σ c x y)
                 = Some (σ_end, [Call (sendMessage c (MsgDone x y))])) ->
  forall k m n n_ok n_fail,
    Z.of_nat k = b - m + 1 ->
    - max_exact <= m ->
    0 <= n_ok -> 0 <= n_fail ->
    n_ok + n_fail + Z.of_nat k <= max_exact ->
    exists fuel os,
      run_from fuel env n
        (loop_test σ {| chatId := c; s := l; srcId := src; dstId := dst;
                        mid := Finite m; ok := Finite n_ok; fail := Finite n_fail |})
      = Some (σ_end,
              journal src dst m os
              ++ [Call (sendMessage c
                          (MsgDone (Finite (n_ok + tally succeeded os))
                                   (Finite (n_fail + tally (fun o => negb (succeeded o)) os))))])
      /\ length os = k.
Proof.
  intros Hend Hb Hrel.
  induction k as [ | k IH]; intros m n n_ok n_fail Hk Hm Hok0 Hfail0 Hroom.
  - exists 1%nat, [].
    rewrite (loop_test_outside _ _ b m) by (simpl; auto; lia).
    cbn [chatId ok fail]. rewrite Hrel. simpl. now rewrite !Z.add_0_r.
  - set (fr := {| chatId := c; s := l; srcId := src; dstId := dst;
                  mid := Finite m; ok := Finite n_ok; fail := Finite n_fail |}).
    assert (Hsucc : succ (Finite m) = Finite (m + 1)) by (apply succ_exact; lia).
    assert (Hsucc_ok : succ (Finite n_ok) = Finite (n_ok + 1)) by (apply succ_exact; lia).
    assert (Hsucc_fail : succ (Finite n_fail) = Finite (n_fail + 1))
      by (apply succ_exact; lia).
    rewrite (loop_test_inside _ _ b m) by (simpl; auto; lia).
    assert (Hok : at_mid (succ (mid fr)) (ok_incr fr)
                  = {| chatId := c; s := l; srcId := src; dstId := dst;
                       mid := Finite (m + 1); ok := Finite (n_ok + 1);
                       fail := Finite n_fail |}).
    { unfold at_mid, ok_incr, fr. cbn [chatId s srcId dstId mid ok fail].
      now rewrite Hsucc, Hsucc_ok. }
    assert (Hfail : at_mid (succ (mid fr)) (fail_incr fr)
                  = {| chatId := c; s := l; srcId := src; dstId := dst;
                       mid := Finite (m + 1); ok := Finite n_ok;
                       fail := Finite (n_fail + 1) |}).
    { unfold at_mid, fail_incr, fr. cbn [chatId s srcId dstId mid ok fail].
      now rewrite Hsucc, Hsucc_fail. }
    destruct (env n (copy_of fr)) as [v | e] eqn:E1.
    + destruct (IH (m + 1) (2 + n)%nat (n_ok + 1) n_fail) as (fuel & os & Hrun & Hlen);
        [lia | lia | lia | lia | lia | ].
      exists (2 + fuel)%nat, (Copied :: os).
      rewrite (iteration_ok _ _ _ _ _ _ E1), Hok, Hrun. cbn [and_then].
      split; [ | simpl; now rewrite Hlen].
      unfold copy_of, fr.
      cbn [journal block tally succeeded negb app dstId srcId mid].
      rewrite ?Z.add_assoc, ?Z.add_0_r. reflexivity.
    + destruct (flood_control e) as [hint | ] eqn:Ef.
      * destruct (env (2 + n)%nat (copy_of fr)) as [v | e2] eqn:E2.
        -- destruct (IH (m + 1) (4 + n)%nat (n_ok + 1) n_fail) as (fuel & os & Hrun & Hlen);
             [lia | lia | lia | lia | lia | ].
           exists (4 + fuel)%nat, (RetriedOk hint :: os).
           rewrite (iteration_retry_ok _ _ _ _ _ _ _ _ E1 Ef E2), Hok, Hrun. cbn [and_then].
           split; [ | simpl; now rewrite Hlen].
           unfold copy_of, fr.
      cbn [journal block tally succeeded negb app dstId srcId mid].
      rewrite ?Z.add_assoc, ?Z.add_0_r. reflexivity.
        -- destruct (IH (m + 1) (4 + n)%nat n_ok (n_fail + 1)) as (fuel & os & Hrun & Hlen);
             [lia | lia | lia | lia | lia | ].
           exists (4 + fuel)%nat, (RetriedFail hint e2 :: os).
           rewrite (iteration_retry_fail _ _ _ _ _ _ _ _ E1 Ef E2), Hfail, Hrun.
           cbn [and_then].
           split; [ | simpl; now rewrite Hlen].
           unfold copy_of, fr.
      cbn [journal block tally succeeded negb app dstId srcId mid].
      rewrite ?Z.add_assoc, ?Z.add_0_r. reflexivity.
      * destruct (IH (m + 1) (2 + n)%nat n_ok (n_fail + 1)) as (fuel & os & Hrun & Hlen);
          [lia | lia | lia | lia | lia | ].
        exists (2 + fuel)%nat, (Failed e :: os).
        rewrite (iteration_fail _ _ _ _ _ _ E1 Ef), Hfail, Hrun. cbn [and_then].
        split; [ | simpl; now rewrite Hlen].
        unfold copy_of, fr.
      cbn [journal block tally succeeded negb app dstId srcId mid].
      rewrite ?Z.add_assoc, ?Z.add_0_r. reflexivity.
Qed.

Lemma loop_journal env σ c l src dst b :
  endId (obj σ l) = Some (Finite b) ->
  b < max_exact ->
  reliable env ->
  forall k m n n_ok n_fail,
    Z.of_nat k = b - m + 1 ->
    - max_exact <= m ->
    0 <= n_ok -> 0 <= n_fail ->
    n_ok + n_fail + Z.of_nat k <= max_exact ->
    exists fuel os,
      run_from fuel env n
        (loop_test σ {| chatId := c; s := l; srcId := src; dstId := dst;
                        mid := Finite m; ok := Finite n_ok; fail := Finite n_fail |})
      = Some (resetSession σ c,
              journal src dst m os
              ++ [Call (sendMessage c
                          (MsgDone (Finite (n_ok + tally succeeded os))
                                   (Finite (n_fail + tally (fun o => negb (succeeded o)) os))))])
      /\ length os = k.
Proof.
  intros Hend Hb Hrel. apply loop_journal_to; try assumption.
  intros n x y. unfold summary. rewrite run_from_await.
  destruct (Hrel n c (MsgDone x y)) as [v ->]. cbn [resume]. now rewrite run_from_finish.
Qed.



Lemma paced_block src dst m o rest :
  paced (block src dst m o ++ rest) = paced rest.
Proof. destruct o; reflexivity. Qed.

Lemma paced_journal src dst os : forall m, paced (journal src dst m os) = true.
Proof.
  induction os as [ | o os IH]; intros m; [reflexivity | ].
  cbn [journal]. now rewrite paced_block.
Qed.

Lemma rests_app es es' : rests es = true -> rests (es ++ es') = true.
Proof.
  induction es as [ | [line | [ | | | | ]] es IH]; simpl; auto; discriminate.
Qed.

Lemma paced_app_send effs c m :
  paced effs = true -> paced (effs ++ [Call (sendMessage c m)]) = true.
Proof.
  induction effs as [ | e effs IH]; [reflexivity | ].
  destruct e as [line | [c0 m0 | ref | d0 s0 m0 | d | v]]; cbn [paced app]; try exact IH.
  intros H. apply andb_true_iff in H as [H1 H2].
  now rewrite (IH H2), (rests_app _ _ H1).
Qed.

Lemma failures_app a b : failures (a ++ b) = failures a + failures b.
Proof. unfold failures. rewrite omap_app, length_app. lia. Qed.

Lemma failures_journal src dst os : forall m,
  failures (journal src dst m os) = tally (fun o => negb (succeeded o)) os.
Proof.
  induction os as [ | o os IH]; intros m; [reflexivity | ].
  cbn [journal tally]. rewrite failures_app, IH. now destruct o.
Qed.

(** X19: pacing and report of a run.  In everything the handler does from
    the start message to the summary, the call that follows a [copyMessage]
    is a [sleep], after a first copy as after a retry: no two copies are made
    without a pause between them.  The number of failures the summary
    reports is the number of lines "Fail" and "Retry failed" in the log. *)
Theorem run_is_paced_and_reported σ c l src dst a b env :
  startId (obj σ l) = Some (Finite a) ->
  endId (obj σ l) = Some (Finite b) ->
  a <= b ->
  - 2 ^ 53 <= a ->
  b < 2 ^ 53 ->
  b - a < 2 ^ 53 ->
  reliable env ->
  exists fuel effs n_ok n_fail,
    run fuel env σ
      {| awaiting := sendMessage c (MsgStarting src dst (Some (Finite a)) (Some (Finite b)));
         cont := K_starting c l src dst |}
    = Some (resetSession σ c, effs)
    /\ last effs = Some (Call (sendMessage c (MsgDone (Finite n_ok) (Finite n_fail))))
    /\ paced effs = true
    /\ failures effs = n_fail.
Proof.
  intros Hs He Hab Ha Hb Hsize Hrel.
  destruct (loop_journal env σ c l src dst b He Hb Hrel
              (Z.to_nat (b - a + 1)) a 1%nat 0 0)
    as (fuel & os & Hrun & Hlen);
    [lia | unfold max_exact; lia | lia | lia | unfold max_exact; lia | ].
  exists (S fuel),
    (journal src dst a os
     ++ [Call (sendMessage c
                 (MsgDone (Finite (0 + tally succeeded os))
                          (Finite (0 + tally (fun o => negb (succeeded o)) os))))]),
    (0 + tally succeeded os), (0 + tally (fun o => negb (succeeded o)) os).
  unfold run. cbn [run_from next st out awaiting cont].
  destruct (Hrel 0%nat c (MsgStarting src dst (Some (Finite a)) (Some (Finite b))))
    as [v ->].
  cbn [resume]. unfold loop_enter. rewrite Hs, Hrun, and_then_nil.
  split; [reflexivity | ]. split; [apply last_snoc | ].
  split.
  - apply paced_app_send, paced_journal.
  - rewrite failures_app, failures_journal. unfold failures. simpl. lia.
Qed.

Lemma run_is_paced_and_reported_witness :
  exists fuel effs n_ok n_fail,
    run fuel Cases.six_is_limited (mem Scenario.job_ready) (Scenario.starting 5 7)
    = Some (resetSession (mem Scenario.job_ready) 1, effs)
    /\ last effs = Some (Call (sendMessage 1 (MsgDone (Finite n_ok) (Finite n_fail))))
    /\ paced effs = true
    /\ failures effs = n_fail.
Proof.
  apply (run_is_paced_and_reported (mem Scenario.job_ready) 1 0%nat
           (Finite (-1001)) (Finite (-1002)) 5 7 Cases.six_is_limited);
    try reflexivity; try lia.
  intros n c m. now exists (Finite 0).
Defined.

End Journal.

(* ===================================================================== *)
(** ** Chats do not touch each other's sessions *)
(* ===================================================================== *)

Section Isolation.
Import Props.

Lemma confined_refl owner c σ : store_wf owner σ -> confined owner c σ σ.
Proof. intros H. split; [lia | ]. split; [reflexivity | ]. split; [reflexivity | exact H]. Qed.

Lemma confined_trans owner c σ1 σ2 σ3 :
  confined owner c σ1 σ2 -> confined owner c σ2 σ3 -> confined owner c σ1 σ3.
Proof.
  intros (Hn1 & Hs1 & Ho1 & _) (Hn2 & Hs2 & Ho2 & Hwf).
  split; [lia | ]. split; [ | split; [ | exact Hwf]].
  - intros c' Hc. now rewrite Hs2, Hs1.
  - intros l Hl. now rewrite Ho2, Ho1.
Qed.

Lemma confined_update owner c σ l f :
  store_wf owner σ -> owner l = c -> confined owner c σ (update l f σ).
Proof.
  intros Hwf Hl. split; [simpl; lia | ]. split; [reflexivity | ]. split; [ | exact Hwf].
  intros l' Hl'. apply obj_update_ne. congruence.
Qed.

Lemma confined_resetSession owner c σ :
  store_wf owner σ -> owner (next_loc σ) = c -> confined owner c σ (resetSession σ c).
Proof.
  intros Hwf Hnew. split; [simpl; lia | ]. split; [ | split].
  - intros c' Hc. now apply sessions_resetSession_ne.
  - intros l Hl. unfold obj, resetSession. simpl.
    rewrite lookup_insert_ne; [reflexivity | congruence].
  - intros c0 l0. unfold resetSession. simpl. destruct (decide (c = c0)) as [<- | Hne].
    + rewrite lookup_insert_eq. intros [= <-]. split; [lia | assumption].
    + rewrite lookup_insert_ne by assumption. intros H.
      destruct (Hwf _ _ H). split; [lia | assumption].
Qed.

Lemma confined_getSession owner c σ :
  store_wf owner σ -> owner (next_loc σ) = c ->
  confined owner c σ (getSession σ c).1 /\ owner (getSession σ c).2 = c
  /\ ((getSession σ c).2 < next_loc (getSession σ c).1)%nat.
Proof.
  intros Hwf Hnew. unfold getSession. destruct (sessions σ !! c) as [l | ] eqn:E; simpl.
  - destruct (Hwf _ _ E). split; [now apply confined_refl | now split].
  - split; [now apply confined_resetSession | split; [assumption | lia]].
Qed.

Lemma result_ok_finish owner c σ σ' logs :
  confined owner c σ σ' -> result_ok owner c σ (finish σ' logs).
Proof. intros H. split; [exact H | discriminate]. Qed.

Lemma result_ok_await owner c σ σ' logs call k :
  confined owner c σ σ' -> kont_wf owner σ' k -> result_ok owner c σ (await σ' logs call k).
Proof. intros H Hk. split; [exact H | ]. simpl. now intros t [= <-]. Qed.

Lemma kont_wf_plain owner σ k : kont_obj k = None -> kont_wf owner σ k.
Proof. intros H c l _. rewrite H. discriminate. Qed.

Lemma kont_wf_mono owner σ σ' k :
  (next_loc σ <= next_loc σ')%nat -> kont_wf owner σ k -> kont_wf owner σ' k.
Proof. intros Hn H c l Hc Hl. destruct (H c l Hc Hl). split; [lia | assumption]. Qed.

Lemma on_message_ok owner c σ msg_text :
  store_wf owner σ -> result_ok owner c σ (on_message σ c msg_text).
Proof.
  intros Hwf. pose proof (confined_refl owner c σ Hwf) as H. unfold on_message.
  destruct (trim (default [] msg_text)) as [ | a u]; [now apply result_ok_finish | ].
  destruct (startsWith ch_slash (a :: u)); [now apply result_ok_finish | ].
  destruct (sessions σ !! c) as [l | ] eqn:E; [ | now apply result_ok_finish].
  destruct (Hwf _ _ E) as [Hl Ho].
  destruct (step (obj σ l)) as [[ | | ] | ]; [ | | | now apply result_ok_finish].
  - destruct (negb (ref_truthy (normalizeChatRef (a :: u))));
      (apply result_ok_await; [ | now apply kont_wf_plain]);
      [exact H | now apply confined_update].
  - destruct (negb (ref_truthy (normalizeChatRef (a :: u)))).
    + apply result_ok_await; [exact H | now apply kont_wf_plain].
    + apply result_ok_await; [now apply confined_update | ].
      intros c' l' [= <-] [= <-]. now split.
  - destruct (normalizeChatRef (a :: u)) as [[n | name] | ];
      (apply result_ok_await; [exact H | now apply kont_wf_plain]).
Qed.

Lemma on_forward_ok owner c σ (m1 m2 : jsstring) :
  store_wf owner σ -> owner (next_loc σ) = c ->
  result_ok owner c σ (on_forward σ c m1 m2).
Proof.
  intros Hwf Hnew. unfold on_forward.
  destruct (confined_getSession owner c σ Hwf Hnew) as (H1 & Ho & Hl).
  destruct (getSession σ c) as [σ1 l]. simpl in H1, Ho, Hl.
  destruct (running (obj σ1 l)); [apply result_ok_await; [exact H1 | now apply kont_wf_plain] | ].
  destruct (negb (isInteger (Number m1)) || negb (isInteger (Number m2)));
    [apply result_ok_await; [exact H1 | now apply kont_wf_plain] | ].
  destruct (lt (Number m2) (Number m1));
    (apply result_ok_await; [ | now apply kont_wf_plain]);
    (eapply confined_trans; [exact H1 | ]);
    (apply confined_update; [apply H1 | exact Ho]).
Qed.

Lemma kont_wf_like owner σ k k' :
  kont_wf owner σ k -> kont_chat k' = kont_chat k -> kont_obj k' = kont_obj k ->
  kont_wf owner σ k'.
Proof. intros H E1 E2 c l. rewrite E1, E2. apply H. Qed.

Lemma resume_ok owner c σ k r :
  store_wf owner σ -> owner (next_loc σ) = c ->
  kont_chat k = Some c -> kont_wf owner σ k ->
  result_ok owner c σ (resume σ k r).
Proof.
  intros Hwf Hnew Hc Hk. pose proof (confined_refl owner c σ Hwf) as H.
  assert (Hloop : forall fr', kont_chat k = Some (chatId fr') -> kont_obj k = Some (s fr') ->
                    result_ok owner c σ (loop_test σ fr')).
  { intros fr' H1 H2. unfold loop_test. destruct (loop_condition σ fr').
    - apply result_ok_await; [exact H | ].
      apply (kont_wf_like _ _ _ _ Hk); simpl; congruence.
    - apply result_ok_await; [exact H | now apply kont_wf_plain]. }
  destruct k as [ | c0 | c0 ref | c0 ref in_try | c0 l | c0 l src | c0 l src dst
                | fr | fr | fr | fr | c0 ]; simpl in Hc; try discriminate;
    injection Hc as Hc.
  - subst c0. destruct r as [v | e]; [ | now apply result_ok_finish]. cbn [resume].
    destruct (confined_getSession owner c σ Hwf Hnew) as (H1 & Ho & Hl).
    destruct (getSession σ c) as [σ1 l]. simpl in H1, Ho, Hl.
    destruct (running (obj σ1 l)); apply result_ok_finish; [exact H1 | ].
    eapply confined_trans; [exact H1 | ]. apply confined_update; [apply H1 | exact Ho].
  - destruct r; cbn [resume]; (apply result_ok_await; [exact H | now apply kont_wf_plain]).
  - subst c0. destruct in_try, r as [v | e]; cbn [resume];
      try (apply result_ok_finish; first [exact H | now apply confined_resetSession]);
      (apply result_ok_await; [exact H | now apply kont_wf_plain]).
  - subst c0. destruct r as [v | e]; cbn [resume].
    + apply result_ok_await; [exact H | ]. now apply (kont_wf_like _ _ _ _ Hk).
    + apply result_ok_await; [now apply confined_resetSession | now apply kont_wf_plain].
  - subst c0. destruct (Hk c l eq_refl eq_refl) as [Hl Ho].
    destruct r as [v | e]; cbn [resume].
    + apply result_ok_await; [now apply confined_update | ].
      intros c' l' [= <-] [= <-]. now split.
    + apply result_ok_await; [now apply confined_resetSession | now apply kont_wf_plain].
  - subst c0. destruct r as [v | e]; [ | now apply result_ok_finish]. cbn [resume].
    unfold loop_enter. destruct (startId (obj σ l)) as [a | ].
    + now apply Hloop.
    + apply result_ok_await; [exact H | now apply kont_wf_plain].
  - destruct r as [v | e]; cbn [resume]; [ | destruct (flood_control e)];
      (apply result_ok_await; [exact H | ]); now apply (kont_wf_like _ _ _ _ Hk).
  - assert (E : resume σ (K_pacing fr) r = loop_test σ (at_mid (succ (mid fr)) fr))
      by now destruct r.
    rewrite E. now apply Hloop.
  - assert (E : resume σ (K_flood_wait fr) r = await σ [] (copy_of fr) (K_retrying fr))
      by now destruct r.
    rewrite E. apply result_ok_await; [exact H | ]. now apply (kont_wf_like _ _ _ _ Hk).
  - destruct r as [v | e]; cbn [resume];
      (apply result_ok_await; [exact H | ]); now apply (kont_wf_like _ _ _ _ Hk).
  - subst c0. destruct r as [v | e]; cbn [resume]; apply result_ok_finish;
      [now apply confined_resetSession | exact H].
Qed.

Lemma deliver_ok owner c σ msg_text :
  store_wf owner σ -> owner (next_loc σ) = c ->
  exists r, deliver σ c msg_text = spawn r /\ result_ok owner c σ r.
Proof.
  intros Hwf Hnew. pose proof (confined_refl owner c σ Hwf) as H.
  destruct (deliver_cases σ c msg_text) as [E | [E | [(h & Hin & E) | (m1 & m2 & E)]]].
  - exists (finish σ []). split; [exact E | now apply result_ok_finish].
  - exists (on_message σ c msg_text). split; [exact E | now apply on_message_ok].
  - exists (h σ c). split; [exact E | ].
    destruct Hin as [<- | [<- | [<- | [<- | []]]]].
    + apply result_ok_await; [exact H | now apply kont_wf_plain].
    + apply result_ok_await; [now apply confined_resetSession | now apply kont_wf_plain].
    + apply result_ok_await; [exact H | now apply kont_wf_plain].
    + apply result_ok_await; [exact H | now apply kont_wf_plain].
  - exists (on_forward σ c m1 m2). split; [exact E | now apply on_forward_ok].
Qed.

Lemma sys_wf_claim owner c Σ :
  sys_wf owner Σ ->
  sys_wf (claim c (mem Σ) owner) Σ /\ claim c (mem Σ) owner (next_loc (mem Σ)) = c.
Proof.
  intros [Hs Hp].
  assert (Hbelow : forall l, (l < next_loc (mem Σ))%nat -> claim c (mem Σ) owner l = owner l).
  { intros l Hl. unfold claim. apply Nat.ltb_lt in Hl. now rewrite Hl. }
  split; [split | ].
  - intros c0 l H. destruct (Hs _ _ H) as [Hl Ho]. split; [exact Hl | now rewrite Hbelow].
  - intros i t H c0 l Hc Hl. destruct (Hp _ _ H _ _ Hc Hl) as [Hlt Ho].
    split; [exact Hlt | now rewrite Hbelow].
  - unfold claim. now rewrite Nat.ltb_irrefl.
Qed.

(** A step of the event loop for the chat [c]. *)
Lemma sys_step_ok owner Σ ev Σ' c :
  sys_wf owner Σ -> owner (next_loc (mem Σ)) = c ->
  event_chat Σ ev = Some c -> sys_step Σ ev = Some Σ' ->
  sys_wf owner Σ' /\ confined owner c (mem Σ) (mem Σ').
Proof.
  intros [Hs Hp] Hnew Hc Hstep. destruct ev as [c0 msg_text | i r]; simpl in Hc, Hstep.
  - injection Hc as ->.
    destruct (deliver_ok owner c (mem Σ) msg_text Hs Hnew) as (res & E & Hconf & Hnext).
    rewrite E in Hstep. unfold spawn in Hstep. injection Hstep as <-. simpl.
    split; [ | exact Hconf]. split; [apply Hconf | ]. simpl.
    intros i t H. apply lookup_app_Some in H as [H | [_ H]].
    + apply (kont_wf_mono _ (mem Σ)); [apply Hconf | now apply (Hp i)].
    + destruct (next res) as [t' | ]; [ | destruct (i - length (pool Σ))%nat; discriminate H].
      destruct (i - length (pool Σ))%nat; [ | discriminate H].
      injection H as <-. now apply Hnext.
  - destruct (pool Σ !! i) as [[t | ] | ] eqn:Ht; try discriminate.
    destruct (admissible (awaiting t) r); [ | discriminate].
    injection Hstep as <-. simpl.
    destruct (resume_ok owner c (mem Σ) (cont t) r Hs Hnew Hc (Hp _ _ Ht)) as [Hconf Hnext].
    split; [ | exact Hconf]. split; [apply Hconf | ]. simpl.
    intros j t' H. apply list_lookup_insert_Some in H as [(_ & H & _) | [_ H]].
    + now apply Hnext.
    + apply (kont_wf_mono _ (mem Σ)); [apply Hconf | now apply (Hp j)].
Qed.

(** A handler that has nothing left to do ends. *)
Lemma sys_step_idle owner Σ ev Σ' :
  sys_wf owner Σ -> event_chat Σ ev = None -> sys_step Σ ev = Some Σ' ->
  sys_wf owner Σ' /\ mem Σ' = mem Σ.
Proof.
  intros [Hs Hp] Hc Hstep. destruct ev as [c0 msg_text | i r]; simpl in Hc, Hstep;
    [discriminate | ].
  destruct (pool Σ !! i) as [[t | ] | ] eqn:Ht; try discriminate.
  destruct (admissible (awaiting t) r); [ | discriminate].
  destruct t as [aw k]. simpl in Hc, Hstep.
  destruct k; try discriminate Hc. injection Hstep as <-. simpl.
  split; [ | reflexivity]. split; [exact Hs | ]. simpl.
  intros j t' H. apply list_lookup_insert_Some in H as [(_ & H & _) | [_ H]];
    [discriminate | now apply (Hp j)].
Qed.

Lemma sys_wf_boot : sys_wf (fun _ => 0) boot.
Proof. split; [intros c l H | intros i t H]; simpl in H; now rewrite lookup_empty in H || discriminate H. Qed.

(** What can be reached has an owner for every object. *)
Lemma reachable_wf evs : forall Σ Σ',
  (exists owner, sys_wf owner Σ) -> sys_run Σ evs = Some Σ' -> exists owner, sys_wf owner Σ'.
Proof.
  induction evs as [ | ev evs IH]; intros Σ Σ' Hwf Hrun; [now injection Hrun as <- | ].
  simpl in Hrun. destruct (sys_step Σ ev) as [Σ1 | ] eqn:Hstep; [ | discriminate].
  apply (IH Σ1); [ | exact Hrun]. destruct Hwf as [owner Hwf].
  destruct (event_chat Σ ev) as [c | ] eqn:Hc.
  - destruct (sys_wf_claim owner c Σ Hwf) as [Hwf' Hnew].
    exists (claim c (mem Σ) owner). now apply (sys_step_ok _ Σ ev Σ1 c).
  - exists owner. now apply (sys_step_idle _ Σ ev).
Qed.

(** X20: chats do not touch each other's sessions.  In a system reached
    from the start, a step of the event loop, a message that comes in or a
    handler that goes on, leaves every chat other than its own what it had:
    the session of that chat is the same afterwards, and so is every session
    object a suspended handler of that chat holds on to, such as the object
    of a run in progress. *)
Theorem chats_are_isolated evs Σ ev Σ' c' :
  sys_run boot evs = Some Σ ->
  sys_step Σ ev = Some Σ' ->
  event_chat Σ ev <> Some c' ->
  view (mem Σ') c' = view (mem Σ) c'
  /\ forall i t l, pool Σ !! i = Some (Some t) ->
                   kont_chat (cont t) = Some c' -> kont_obj (cont t) = Some l ->
                   obj (mem Σ') l = obj (mem Σ) l.
Proof.
  intros Hreach Hstep Hother.
  destruct (reachable_wf evs boot Σ (ex_intro (fun o => sys_wf o boot) _ sys_wf_boot) Hreach) as [owner Hwf].
  destruct (event_chat Σ ev) as [c | ] eqn:Hc.
  - destruct (sys_wf_claim owner c Σ Hwf) as [Hwf' Hnew].
    destruct (sys_step_ok _ Σ ev Σ' c Hwf' Hnew Hc Hstep) as [_ (_ & Hsess & Hobj & _)].
    assert (Hne : c' <> c) by congruence.
    destruct Hwf' as [Hs Hp]. split.
    + unfold view. rewrite (Hsess c' Hne).
      destruct (sessions (mem Σ) !! c') as [l | ] eqn:E; [ | reflexivity].
      apply Hobj. destruct (Hs _ _ E) as [_ ->]. exact Hne.
    + intros i t l Ht Hchat Hl. apply Hobj.
      destruct (Hp _ _ Ht _ _ Hchat Hl) as [_ ->]. exact Hne.
  - destruct (sys_step_idle owner Σ ev Σ' Hwf Hc Hstep) as [_ ->]. now split.
Qed.

Lemma chats_are_isolated_witness :
  sys_run boot Scenario.job_started = Some Scenario.while_running
  /\ exists Σ',
       sys_step Scenario.while_running (Incoming 2 (Some (lit "/cancel"))) = Some Σ'
       /\ view (mem Σ') 1 = view (mem Scenario.while_running) 1
       /\ obj (mem Σ') 0%nat = obj (mem Scenario.while_running) 0%nat.
Proof.
  assert (H : sys_run boot Scenario.job_started = Some Scenario.while_running)
    by (vm_compute; reflexivity).
  split; [exact H | ].
  destruct (sys_step Scenario.while_running (Incoming 2 (Some (lit "/cancel"))))
    as [Σ' | ] eqn:E; [ | vm_compute in E; discriminate E].
  exists Σ'. split; [reflexivity | ].
  assert (Hother : event_chat Scenario.while_running (Incoming 2 (Some (lit "/cancel")))
                   <> Some 1) by (simpl; congruence).
  destruct (chats_are_isolated _ _ _ _ 1 H E Hother) as [Hview Hobj].
  split; [exact Hview | ].
  apply (Hobj 2%nat {| awaiting := copy_of Scenario.runner; cont := K_copying Scenario.runner |});
    reflexivity.
Defined.

End Isolation.

(* ===================================================================== *)
(** ** Messages that cannot be sent *)
(* ===================================================================== *)

Section Unsent.
Import Props.

Lemma run_S fuel env σ t :
  run (S fuel) env σ t = run_from fuel env 1 (resume σ (cont t) (env 0%nat (awaiting t))).
Proof. unfold run. cbn [run_from next st out]. apply and_then_nil. Qed.

(** X21: the start message is sent outside every [try].  When the
    destination has been found and [sendMessage] for the start message is
    rejected, the handler does not catch the rejection and ends there: it
    has marked the session as running and called [sendMessage], and that is
    all; it copies nothing, sends no summary and does not reset the session
    it has just marked. *)
Theorem unsent_start_ends_handler σ c l src dst e env :
  sessions σ !! c = Some l ->
  env 0%nat (resolveChatId (dstRef (obj σ l))) = Fulfilled dst ->
  (forall m, env 1%nat (sendMessage c m) = Rejected e) ->
  let σ' := update l (set_running true) σ in
  run 2 env σ {| awaiting := resolveChatId (dstRef (obj σ l));
                 cont := K_dst_resolving c l src |}
  = Some (σ', [Call (sendMessage c (MsgStarting src dst (startId (obj σ l))
                                                   (endId (obj σ l))))])
  /\ view σ' c = set_running true (view σ c).
Proof.
  intros Hl Hdst Hsend σ'. split.
  - change 2%nat with (S (S O)). rewrite run_S. cbn [awaiting cont]. rewrite Hdst.
    cbn [resume]. rewrite obj_update_eq. cbn [startId endId set_running].
    rewrite run_from_await, Hsend. cbn [resume]. now rewrite run_from_finish.
  - unfold σ'. rewrite (view_update _ _ _ _ Hl). unfold view. now rewrite Hl.
Qed.

Lemma unsent_start_ends_handler_witness :
  sessions (mem Cases.resolving) !! 1 = Some 0%nat
  /\ resolveChatId (dstRef (obj (mem Cases.resolving) 0%nat))
     = getChat (Some (RefName (lit "@dstchan")))
  /\ run 2 Scenario.target_missing (mem Cases.resolving)
       {| awaiting := resolveChatId (dstRef (obj (mem Cases.resolving) 0%nat));
          cont := K_dst_resolving 1 0%nat (Finite (-1001)) |}
     = Some (update 0%nat (set_running true) (mem Cases.resolving),
             [Call (sendMessage 1 (MsgStarting (Finite (-1001)) (Finite (-1001))
                                     (Some (Finite 5)) (Some (Finite 7))))])
  /\ running (view (update 0%nat (set_running true) (mem Cases.resolving)) 1) = true.
Proof.
  assert (Hl : sessions (mem Cases.resolving) !! 1 = Some 0%nat) by reflexivity.
  destruct (unsent_start_ends_handler (mem Cases.resolving) 1 0%nat (Finite (-1001))
              (Finite (-1001)) Scenario.chat_not_found Scenario.target_missing
              Hl eq_refl (fun _ => eq_refl)) as (Hrun & Hview).
  split; [exact Hl | ]. split; [reflexivity | ]. split; [exact Hrun | now rewrite Hview].
Defined.

(** X22: the summary is sent outside every [try] as well, and the reset
    comes after it.  When [sendMessage] for the summary is rejected at the
    end of a run, the handler does not catch the rejection and ends without
    [resetSession]: after the journal of the run and the call for the
    summary it has done nothing more, and the store is the one the run
    started from. *)
Theorem unsent_summary_skips_reset σ c l src dst a b env :
  startId (obj σ l) = Some (Finite a) ->
  endId (obj σ l) = Some (Finite b) ->
  a <= b ->
  - 2 ^ 53 <= a ->
  b < 2 ^ 53 ->
  b - a < 2 ^ 53 ->
  (exists v, env 0%nat (sendMessage c (MsgStarting src dst (Some (Finite a)) (Some (Finite b))))
             = Fulfilled v) ->
  (forall n x y, exists e, env n (sendMessage c (MsgDone x y)) = Rejected e) ->
  exists fuel os,
    run fuel env σ
      {| awaiting := sendMessage c (MsgStarting src dst (Some (Finite a)) (Some (Finite b)));
         cont := K_starting c l src dst |}
    = Some (σ,
            journal src dst a os
            ++ [Call (sendMessage c
                        (MsgDone (Finite (tally succeeded os))
                                 (Finite (tally (fun o => negb (succeeded o)) os))))])
    /\ Z.of_nat (length os) = b - a + 1.
Proof.
  intros Hs He Hab Ha Hb Hsize [v Hstart] Hlost.
  assert (Hsum : forall n x y, run_from 1 env n (summary σ c x y)
                               = Some (σ, [Call (sendMessage c (MsgDone x y))])).
  { intros n x y. unfold summary. rewrite run_from_await.
    destruct (Hlost n x y) as [e ->]. cbn [resume]. now rewrite run_from_finish. }
  destruct (loop_journal_to env σ σ c l src dst b He Hb Hsum
              (Z.to_nat (b - a + 1)) a 1%nat 0 0)
    as (fuel & os & Hloop & Hlen);
    [lia | unfold max_exact; lia | lia | lia | unfold max_exact; lia | ].
  exists (S fuel), os.
  unfold run. cbn [run_from next st out awaiting cont]. rewrite Hstart.
  cbn [resume]. unfold loop_enter. rewrite Hs, Hloop, and_then_nil.
  split; [reflexivity | lia].
Qed.

Lemma unsent_summary_skips_reset_witness :
  exists fuel os,
    run fuel Cases.summary_lost (mem Scenario.job_ready) (Scenario.starting 5 7)
    = Some (mem Scenario.job_ready,
            journal (Finite (-1001)) (Finite (-1002)) 5 os
            ++ [Call (sendMessage 1
                        (MsgDone (Finite (tally succeeded os))
                                 (Finite (tally (fun o => negb (succeeded o)) os))))])
    /\ Z.of_nat (length os) = 7 - 5 + 1.
Proof.
  apply (unsent_summary_skips_reset (mem Scenario.job_ready) 1 0%nat
           (Finite (-1001)) (Finite (-1002)) 5 7 Cases.summary_lost);
    try reflexivity; try lia.
  - now exists (Finite 0).
  - intros n x y. now exists Scenario.chat_not_found.
Defined.

(** X23: in the test flow the report of a resolved handle is sent inside
    the [try] of the lookup.  When the handle is found and [sendMessage] for
    the report is rejected, the handler goes to the [catch]: it sends the
    message that the handle could not be resolved, with the error of the
    failed send, and resets the session when that message is out; when that
    one is rejected as well the handler ends with the session as it was. *)
Theorem unsent_test_report_is_taken_for_failure σ c ref id e env :
  env 0%nat (resolveChatId (Some ref)) = Fulfilled id ->
  env 1%nat (sendMessage c (MsgTestResolved ref id)) = Rejected e ->
  run 3 env σ {| awaiting := resolveChatId (Some ref); cont := K_test_resolving c ref |}
  = Some (match env 2%nat (sendMessage c (MsgCouldNotResolve ref e)) with
          | Fulfilled _ => resetSession σ c
          | Rejected _ => σ
          end,
          [ Call (sendMessage c (MsgTestResolved ref id));
            Call (sendMessage c (MsgCouldNotResolve ref e)) ]).
Proof.
  intros Hfound Hsend.
  change 3%nat with (S (S (S O))). rewrite run_S. cbn [awaiting cont].
  rewrite Hfound. cbn [resume].
  rewrite run_from_await, Hsend. cbn [resume]. rewrite run_from_await.
  destruct (env 2%nat (sendMessage c (MsgCouldNotResolve ref e))); cbn [resume];
    now rewrite run_from_finish.
Qed.

Lemma unsent_test_report_is_taken_for_failure_witness :
  run 3 Scenario.target_missing (mem Cases.testing)
    {| awaiting := resolveChatId (Some (RefName (lit "@himeoncebot")));
       cont := K_test_resolving 1 (RefName (lit "@himeoncebot")) |}
  = Some (resetSession (mem Cases.testing) 1,
          [ Call (sendMessage 1 (MsgTestResolved (RefName (lit "@himeoncebot"))
                                   (Finite (-1001))));
            Call (sendMessage 1 (MsgCouldNotResolve (RefName (lit "@himeoncebot"))
                                   Scenario.chat_not_found)) ]).
Proof.
  apply (unsent_test_report_is_taken_for_failure (mem Cases.testing) 1
           (RefName (lit "@himeoncebot")) (Finite (-1001)) Scenario.chat_not_found
           Scenario.target_missing); reflexivity.
Defined.

End Unsent.

(* ===================================================================== *)
(** ** Every job has a range *)
(* ===================================================================== *)

Section Ranges.
Import Props.

Lemma has_range_same o o' :
  startId o' = startId o -> endId o' = endId o -> has_range o -> has_range o'.
Proof. intros E1 E2 (a & b & H1 & H2 & H3). exists a, b. rewrite E1, E2. now split. Qed.

Lemma fresh_not_collecting : ~ collecting fresh.
Proof. intros [H | H]; discriminate H. Qed.

Lemma grows_refl σ : ranged_store σ -> grows σ σ.
Proof. intros H. split; [lia | ]. split; [exact H | auto]. Qed.

Lemma grows_trans σ1 σ2 σ3 : grows σ1 σ2 -> grows σ2 σ3 -> grows σ1 σ3.
Proof.
  intros (Hn1 & _ & H1) (Hn2 & Hr & H2). split; [lia | ]. split; [exact Hr | ].
  intros l Hl H. apply H2; [lia | now apply H1].
Qed.

Lemma grows_update σ l f :
  ranged_store σ ->
  (has_range (obj σ l) -> has_range (f (obj σ l))) ->
  (collecting (f (obj σ l)) -> has_range (f (obj σ l))) ->
  grows σ (update l f σ).
Proof.
  intros [Hr Ha] Hkeep Hnew. split; [simpl; lia | ]. split; [split | ].
  - intros l'. destruct (decide (l = l')) as [<- | Hne].
    + rewrite obj_update_eq. exact Hnew.
    + rewrite obj_update_ne by assumption. apply Hr.
  - exact Ha.
  - intros l' _. destruct (decide (l = l')) as [<- | Hne].
    + rewrite obj_update_eq. exact Hkeep.
    + now rewrite obj_update_ne by assumption.
Qed.

Lemma grows_resetSession σ c : ranged_store σ -> grows σ (resetSession σ c).
Proof.
  intros [Hr Ha]. split; [simpl; lia | ]. split; [split | ].
  - intros l. destruct (decide (l = next_loc σ)) as [-> | Hne].
    + unfold obj, resetSession. simpl. rewrite lookup_insert_eq. simpl.
      intros H. destruct (fresh_not_collecting H).
    + unfold obj, resetSession. simpl. rewrite lookup_insert_ne by congruence. apply Hr.
  - intros c0 l. unfold resetSession. simpl. destruct (decide (c = c0)) as [<- | Hne].
    + rewrite lookup_insert_eq. intros [= <-]. lia.
    + rewrite lookup_insert_ne by assumption. intros H. specialize (Ha _ _ H). lia.
  - intros l Hl. now rewrite (obj_resetSession _ _ _ Hl).
Qed.

Lemma grows_getSession σ c :
  ranged_store σ ->
  grows σ (getSession σ c).1 /\ ((getSession σ c).2 < next_loc (getSession σ c).1)%nat.
Proof.
  intros Hr. unfold getSession. destruct (sessions σ !! c) as [l | ] eqn:E; simpl.
  - split; [now apply grows_refl | now apply (proj2 Hr c)].
  - split; [now apply grows_resetSession | lia].
Qed.

Lemma ranged_finish σ σ' logs : grows σ σ' -> result_ranged σ (finish σ' logs).
Proof. intros H. split; [exact H | discriminate]. Qed.

Lemma ranged_await σ σ' logs call k :
  grows σ σ' -> kont_ranged σ' k -> result_ranged σ (await σ' logs call k).
Proof. intros H Hk. split; [exact H | ]. simpl. now intros t [= <-]. Qed.

Lemma kont_ranged_plain σ k : kont_obj k = None -> kont_ranged σ k.
Proof. intros H l. rewrite H. discriminate. Qed.

Lemma kont_ranged_like σ k k' :
  kont_ranged σ k -> kont_obj k' = kont_obj k -> kont_ranged σ k'.
Proof. intros H E l. rewrite E. apply H. Qed.

Lemma kont_ranged_grows σ σ' k : grows σ σ' -> kont_ranged σ k -> kont_ranged σ' k.
Proof.
  intros (Hn & _ & Hg) H l Hl. destruct (H l Hl) as [Hlt Hr].
  split; [lia | now apply Hg].
Qed.

Lemma on_message_ranged σ c msg_text :
  ranged_store σ -> result_ranged σ (on_message σ c msg_text).
Proof.
  intros Hr. pose proof (grows_refl σ Hr) as H. unfold on_message.
  destruct (trim (default [] msg_text)) as [ | a u]; [now apply ranged_finish | ].
  destruct (startsWith ch_slash (a :: u)); [now apply ranged_finish | ].
  destruct (sessions σ !! c) as [l | ] eqn:E; [ | now apply ranged_finish].
  pose proof (proj2 Hr _ _ E) as Hl.
  destruct (step (obj σ l)) as [[ | | ] | ] eqn:Hstep; [ | | | now apply ranged_finish].
  - assert (Hhas : has_range (obj σ l)) by (apply (proj1 Hr); left; exact Hstep).
    destruct (negb (ref_truthy (normalizeChatRef (a :: u))));
      (apply ranged_await; [ | now apply kont_ranged_plain]); [exact H | ].
    apply grows_update; [exact Hr | | ]; intros _; now apply (has_range_same (obj σ l)).
  - assert (Hhas : has_range (obj σ l)) by (apply (proj1 Hr); right; exact Hstep).
    destruct (negb (ref_truthy (normalizeChatRef (a :: u)))).
    + apply ranged_await; [exact H | now apply kont_ranged_plain].
    + apply ranged_await.
      * apply grows_update; [exact Hr | | ]; intros _; now apply (has_range_same (obj σ l)).
      * intros l' [= <-]. split; [exact Hl | ]. rewrite obj_update_eq.
        now apply (has_range_same (obj σ l)).
  - destruct (normalizeChatRef (a :: u)) as [[n | name] | ];
      (apply ranged_await; [exact H | now apply kont_ranged_plain]).
Qed.

Lemma on_forward_ranged σ c (m1 m2 : jsstring) :
  ranged_store σ -> result_ranged σ (on_forward σ c m1 m2).
Proof.
  intros Hr. unfold on_forward.
  destruct (grows_getSession σ c Hr) as [H1 Hl].
  destruct (getSession σ c) as [σ1 l]. simpl in H1, Hl.
  destruct (running (obj σ1 l));
    [apply ranged_await; [exact H1 | now apply kont_ranged_plain] | ].
  destruct (Number m1) as [a | na]; cbn [isInteger negb orb];
    [ | apply ranged_await; [exact H1 | now apply kont_ranged_plain]].
  destruct (Number m2) as [b | nb]; cbn [isInteger negb orb];
    [ | apply ranged_await; [exact H1 | now apply kont_ranged_plain]].
  cbn [lt]. destruct (Z.ltb_spec b a) as [Hlt | Hge];
    (apply ranged_await; [ | now apply kont_ranged_plain]);
    (eapply grows_trans; [exact H1 | ]);
    (apply grows_update; [apply H1 | | ]); intros _;
    [exists b, a | exists b, a | exists a, b | exists a, b]; simpl; repeat split; lia.
Qed.

Lemma resume_ranged σ k r :
  ranged_store σ -> kont_ranged σ k -> result_ranged σ (resume σ k r).
Proof.
  intros Hr Hk. pose proof (grows_refl σ Hr) as H.
  assert (Hloop : forall fr', kont_obj k = Some (s fr') ->
                              result_ranged σ (loop_test σ fr')).
  { intros fr' E. unfold loop_test. destruct (loop_condition σ fr').
    - apply ranged_await; [exact H | ]. now apply (kont_ranged_like _ k).
    - apply ranged_await; [exact H | now apply kont_ranged_plain]. }
  destruct k as [ | c | c ref | c ref in_try | c l | c l src | c l src dst
                | fr | fr | fr | fr | c ].
  - now apply ranged_finish.
  - destruct r as [v | e]; [ | now apply ranged_finish]. cbn [resume].
    destruct (grows_getSession σ c Hr) as [H1 Hl].
    destruct (getSession σ c) as [σ1 l]. simpl in H1, Hl.
    destruct (running (obj σ1 l)); apply ranged_finish; [exact H1 | ].
    eapply grows_trans; [exact H1 | ]. apply grows_update; [apply H1 | | ].
    + now apply has_range_same.
    + intros [E | E]; discriminate E.
  - destruct r; cbn [resume]; (apply ranged_await; [exact H | now apply kont_ranged_plain]).
  - destruct in_try, r as [v | e]; cbn [resume];
      try (apply ranged_finish; first [exact H | now apply grows_resetSession]);
      (apply ranged_await; [exact H | now apply kont_ranged_plain]).
  - destruct r as [v | e]; cbn [resume].
    + apply ranged_await; [exact H | now apply (kont_ranged_like _ _ _ Hk)].
    + apply ranged_await; [now apply grows_resetSession | now apply kont_ranged_plain].
  - destruct (Hk l eq_refl) as [Hl Hhas].
    destruct r as [v | e]; cbn [resume].
    + apply ranged_await.
      * apply grows_update; [exact Hr | | ]; intros _; now apply (has_range_same (obj σ l)).
      * intros l' [= <-]. split; [exact Hl | ]. rewrite obj_update_eq.
        now apply (has_range_same (obj σ l)).
    + apply ranged_await; [now apply grows_resetSession | now apply kont_ranged_plain].
  - destruct r as [v | e]; [ | now apply ranged_finish]. cbn [resume].
    unfold loop_enter. destruct (startId (obj σ l)) as [a | ].
    + now apply Hloop.
    + apply ranged_await; [exact H | now apply kont_ranged_plain].
  - destruct r as [v | e]; cbn [resume]; [ | destruct (flood_control e)];
      (apply ranged_await; [exact H | ]); now apply (kont_ranged_like _ _ _ Hk).
  - assert (E : resume σ (K_pacing fr) r = loop_test σ (at_mid (succ (mid fr)) fr))
      by now destruct r.
    rewrite E. now apply Hloop.
  - assert (E : resume σ (K_flood_wait fr) r = await σ [] (copy_of fr) (K_retrying fr))
      by now destruct r.
    rewrite E. apply ranged_await; [exact H | ]. now apply (kont_ranged_like _ _ _ Hk).
  - destruct r as [v | e]; cbn [resume];
      (apply ranged_await; [exact H | ]); now apply (kont_ranged_like _ _ _ Hk).
  - destruct r as [v | e]; cbn [resume]; apply ranged_finish;
      [now apply grows_resetSession | exact H].
Qed.

Lemma deliver_ranged σ c msg_text :
  ranged_store σ -> exists r, deliver σ c msg_text = spawn r /\ result_ranged σ r.
Proof.
  intros Hr. pose proof (grows_refl σ Hr) as H.
  destruct (deliver_cases σ c msg_text) as [E | [E | [(h & Hin & E) | (m1 & m2 & E)]]].
  - exists (finish σ []). split; [exact E | now apply ranged_finish].
  - exists (on_message σ c msg_text). split; [exact E | now apply on_message_ranged].
  - exists (h σ c). split; [exact E | ].
    destruct Hin as [<- | [<- | [<- | [<- | []]]]].
    + apply ranged_await; [exact H | now apply kont_ranged_plain].
    + apply ranged_await; [now apply grows_resetSession | now apply kont_ranged_plain].
    + apply ranged_await; [exact H | now apply kont_ranged_plain].
    + apply ranged_await; [exact H | now apply kont_ranged_plain].
  - exists (on_forward σ c m1 m2). split; [exact E | now apply on_forward_ranged].
Qed.

Lemma sys_step_ranged Σ ev Σ' :
  sys_ranged Σ -> sys_step Σ ev = Some Σ' -> sys_ranged Σ'.
Proof.
  intros [Hs Hp] Hstep. destruct ev as [c msg_text | i r]; simpl in Hstep.
  - destruct (deliver_ranged (mem Σ) c msg_text Hs) as (res & E & Hg & Hnext).
    rewrite E in Hstep. unfold spawn in Hstep. injection Hstep as <-.
    split; [apply Hg | ]. simpl.
    intros i t H. apply lookup_app_Some in H as [H | [_ H]].
    + apply (kont_ranged_grows (mem Σ)); [exact Hg | now apply (Hp i)].
    + destruct (next res) as [t' | ]; [ | destruct (i - length (pool Σ))%nat; discriminate H].
      destruct (i - length (pool Σ))%nat; [ | discriminate H].
      injection H as <-. now apply Hnext.
  - destruct (pool Σ !! i) as [[t | ] | ] eqn:Ht; try discriminate.
    destruct (admissible (awaiting t) r); [ | discriminate].
    injection Hstep as <-.
    destruct (resume_ranged (mem Σ) (cont t) r Hs (Hp _ _ Ht)) as [Hg Hnext].
    split; [apply Hg | ]. simpl.
    intros j t' H. apply list_lookup_insert_Some in H as [(_ & H & _) | [_ H]].
    + now apply Hnext.
    + apply (kont_ranged_grows (mem Σ)); [exact Hg | now apply (Hp j)].
Qed.

Lemma sys_ranged_boot : sys_ranged boot.
Proof.
  split; [split | ].
  - intros l H. destruct (fresh_not_collecting H).
  - intros c l H. simpl in H. now rewrite lookup_empty in H.
  - intros i t H. discriminate H.
Qed.

Lemma sys_run_ranged evs : forall Σ Σ',
  sys_ranged Σ -> sys_run Σ evs = Some Σ' -> sys_ranged Σ'.
Proof.
  induction evs as [ | ev evs IH]; intros Σ Σ' Hr Hrun; [now injection Hrun as <- | ].
  simpl in Hrun. destruct (sys_step Σ ev) as [Σ1 | ] eqn:Hstep; [ | discriminate].
  apply (IH Σ1); [ | exact Hrun]. now apply (sys_step_ranged Σ ev).
Qed.

(** X24: every job has a range.  In a system reached from the start, a
    session that waits for its source or its destination, and the session
    object of every handler that has taken a destination (while it resolves
    the references, sends the start message, copies, waits or retries), has
    a [startId] and an [endId] that are integers with [startId <= endId]:
    the loop never starts from an undefined bound or from a range that is
    the wrong way round. *)
Theorem jobs_have_ranges evs Σ :
  sys_run boot evs = Some Σ ->
  (forall c, step (view (mem Σ) c) = Some SRC \/ step (view (mem Σ) c) = Some DST ->
             has_range (view (mem Σ) c))
  /\ (forall i t l, pool Σ !! i = Some (Some t) -> kont_obj (cont t) = Some l ->
                    has_range (obj (mem Σ) l)).
Proof.
  intros Hrun. destruct (sys_run_ranged evs boot Σ sys_ranged_boot Hrun) as [[Hc _] Hp].
  split.
  - intros c. unfold view. destruct (sessions (mem Σ) !! c) as [l | ]; [apply Hc | ].
    intros [H | H]; discriminate H.
  - intros i t l Ht Hl. now apply (Hp i t Ht l).
Qed.

Lemma jobs_have_ranges_witness :
  sys_run boot Scenario.race = Some Scenario.raced
  /\ has_range (view (mem Scenario.raced) 1)
  /\ has_range (obj (mem Scenario.raced) 0%nat).
Proof.
  assert (H : sys_run boot Scenario.race = Some Scenario.raced) by (vm_compute; reflexivity).
  destruct (jobs_have_ranges _ _ H) as [Hview Hpool].
  split; [exact H | ]. split.
  - apply Hview. left. reflexivity.
  - apply (Hpool 2%nat
             {| awaiting := sendMessage 1 (MsgStarting (Finite (-1001)) (Finite (-1002))
                                             (Some (Finite 1)) (Some (Finite 2)));
                cont := K_starting 1 0%nat (Finite (-1001)) (Finite (-1002)) |});
      reflexivity.
Defined.

End Ranges.
